(** * setop: set operations over tokenized input streams

    A shallow embedding of [src/main.cpp] (setop 0.1) and the properties
    of its tokenizer, its set algebra and its query evaluation.

    Conventions of the embedding
    - [element_t] ([std::string]) is a list of characters;
    - [set_t] ([std::set<element_t, el_comp_t>]) is the sequence of its
      elements in iteration order, an iterator is an index into it;
    - sizes ([std::size_t]) are natural numbers: [buffersize] only ever
      doubles, and [new char[buffersize]] has thrown [std::bad_alloc]
      long before a 64-bit size could wrap;
    - Boost.Regex is an external library: the tokenizer is written over
      an interface ([RegexEngine]) with exactly the calls the source
      makes, and a fragment of the Perl matcher of Boost.Regex is
      modelled to instantiate it;
    - the calls of the engine answer and [new char[...]] succeeds: the
      [std::runtime_error] Boost.Regex throws when a search gets too
      complex and [std::bad_alloc], which [main] catches and turns into
      [EXIT_FAILURE], are not embedded, and an input stream is a finite
      sequence of characters.  The statements below are about runs on
      which none of these occurs; where this matters they are stated of
      a call or a run that has returned. *)

From Stdlib Require Import List Ascii String Bool Arith Lia ZArith Sorted DecimalString
  Permutation.
Import ListNotations.

Set Implicit Arguments.

(** ** Elements and comparators *)

(** [typedef std::string element_t;] *)
Definition element_t := list ascii.

(** [typedef std::function<bool(element_t const&, element_t const&)> el_comp_t;] *)
Definition el_comp_t := element_t -> element_t -> bool.

Definition str (s : string) : element_t := list_ascii_of_string s.

(** Value of a plain [char] in a comparison.  Whether [char] is signed is
    implementation-defined (signed on x86, unsigned on ARM Linux). *)
Definition char_value (char_is_signed : bool) (c : ascii) : Z :=
  let n := Z.of_N (N_of_ascii c) in
  if char_is_signed && (128 <=? n)%Z then (n - 256)%Z else n.

(** [std::toupper(c, std::locale())]: the program never installs a global
    locale, so this is the classic "C" locale. *)
Definition toupper (c : ascii) : ascii :=
  let n := N_of_ascii c in
  if ((97 <=? n) && (n <=? 122))%N then ascii_of_N (n - 32) else c.

(** [boost::algorithm::is_less] and [boost::algorithm::is_iless]. *)
Definition is_less (sg : bool) (a b : ascii) : bool :=
  (char_value sg a <? char_value sg b)%Z.

Definition is_iless (sg : bool) (a b : ascii) : bool :=
  (char_value sg (toupper a) <? char_value sg (toupper b))%Z.

(** [std::lexicographical_compare] with a predicate, which both
    [boost::algorithm::lexicographical_compare] and
    [boost::algorithm::ilexicographical_compare] call. *)
Fixpoint lexicographical_compare (pred : ascii -> ascii -> bool)
    (a b : element_t) : bool :=
  match a, b with
  | x :: a', y :: b' =>
      if pred x y then true
      else if pred y x then false
      else lexicographical_compare pred a' b'
  | [], _ :: _ => true
  | _, _ => false
  end.

(** The comparator chosen in [execute_setop] ("handle case-insensitive"). *)
Definition element_comp_of (sg ignore_case : bool) : el_comp_t :=
  if ignore_case then lexicographical_compare (is_iless sg)
  else lexicographical_compare (is_less sg).

(** ** [std::set<element_t, el_comp_t>] *)

Definition set_t := list element_t.

Section StdSet.
Variable comp : el_comp_t.

(** Equivalence of keys as [std::set] defines it. *)
Definition equiv (a b : element_t) : bool := negb (comp a b) && negb (comp b a).

(** [s.find(x)]: the index of the element equivalent to [x], [None] for
    [s.end()]. *)
Fixpoint set_find (x : element_t) (s : set_t) : option nat :=
  match s with
  | [] => None
  | y :: s' =>
      if comp y x then option_map S (set_find x s')
      else if comp x y then None
      else Some 0
  end.

(** [s.insert(x)]: nothing happens when an equivalent element is stored. *)
Fixpoint set_insert (x : element_t) (s : set_t) : set_t :=
  match s with
  | [] => [x]
  | y :: s' =>
      if comp y x then y :: set_insert x s'
      else if comp x y then x :: s
      else s
  end.

(** [s.erase(x)] by key. *)
Fixpoint set_erase (x : element_t) (s : set_t) : set_t :=
  match s with
  | [] => []
  | y :: s' =>
      if comp y x then y :: set_erase x s'
      else if comp x y then s
      else s'
  end.

(** [s.erase(it)] by iterator. *)
Fixpoint set_erase_at (it : nat) (s : set_t) : set_t :=
  match s, it with
  | [], _ => []
  | _ :: s', O => s'
  | y :: s', S it' => y :: set_erase_at it' s'
  end.

(** [s.insert(first, last)]. *)
Definition set_insert_range (els : list element_t) (s : set_t) : set_t :=
  fold_left (fun acc el => set_insert el acc) els s.

Definition set_contains (x : element_t) (s : set_t) : bool :=
  match set_find x s with Some _ => true | None => false end.

(** The representation invariant of [std::set]: strictly ascending. *)
Definition is_set (s : set_t) : Prop :=
  StronglySorted (fun a b => comp a b = true) s.

(** No two stored elements (at different positions) are equivalent. *)
Definition unique_elements (s : set_t) : Prop :=
  forall i j a b, nth_error s i = Some a -> nth_error s j = Some b ->
                  i <> j -> equiv a b = false.
(** Membership up to equivalence, which is what [find] decides, as a
    proposition and as a test on the sequence of elements. *)
Definition set_In (x : element_t) (s : set_t) : Prop :=
  exists y, In y s /\ equiv x y = true.

Definition mem (x : element_t) (s : list element_t) : bool :=
  existsb (equiv x) s.
End StdSet.

(** What [std::set] requires of its comparator: a strict weak ordering. *)
Class StrictWeakOrder (comp : el_comp_t) : Prop := {
  comp_irrefl : forall a, comp a a = false;
  comp_trans : forall a b c, comp a b = true -> comp b c = true -> comp a c = true;
  comp_negtrans : forall a b c, comp a c = true -> comp a b = true \/ comp b c = true
}.

(** ** The pattern engine (Boost.Regex) as an interface *)

(** [boost::sub_match]: the half-open range [[first, second)] of offsets
    into the searched text, and whether it is a full match. *)
Record sub_match := mk_sub_match {
  first : nat;
  second : nat;
  matched : bool
}.

(** The calls [file_to_set] makes on a compiled, non-empty [boost::regex]:
    - [regex_match re txt]: [boost::regex_match(b, e, re, match_default)];
    - [regex_match_partial re txt]: the same call with
      [match_default | match_partial], true for a full and for a partial
      match of the whole text;
    - [cregex_iterator re txt]: the successive values of
      [boost::cregex_iterator(b, e, re, match_default | match_partial)]
      up to the end iterator. *)
Class RegexEngine (pattern : Type) := {
  regex_match : pattern -> list ascii -> bool;
  regex_match_partial : pattern -> list ascii -> bool;
  cregex_iterator : pattern -> list ascii -> list sub_match
}.

(** ** Input options *)

(** [class InputOptions].  A [boost::regex] is either default-constructed
    ([empty()] holds, [None]) or compiled from a non-empty string. *)
Record InputOptions (pattern : Type) := mk_InputOptions {
  element_comp : el_comp_t;
  include_empty_elements : bool;
  input_element_regex : option pattern;
  input_separator_regex : option pattern;
  output_separator : list ascii;
  trim_characters : list ascii
}.

(** [boost::regex::empty()] *)
Definition regex_empty {pattern : Type} (re : option pattern) : bool :=
  match re with None => true | Some _ => false end.

(** ** Trimming ([boost::trim_if] with [boost::is_any_of]) *)

Definition is_any_of (set : list ascii) (c : ascii) : bool :=
  existsb (Ascii.eqb c) set.

Fixpoint trim_left_if (p : ascii -> bool) (s : element_t) : element_t :=
  match s with
  | c :: s' => if p c then trim_left_if p s' else s
  | [] => []
  end.

Definition trim_right_if (p : ascii -> bool) (s : element_t) : element_t :=
  rev (trim_left_if p (rev s)).

Definition trim_if (p : ascii -> bool) (s : element_t) : element_t :=
  trim_left_if p (trim_right_if p s).

(** ** Input streams *)

(** A [std::istream]: the characters not yet extracted and whether the
    stream is still good (neither [eofbit] nor [failbit]). *)
Record istream := mk_istream {
  is_content : list ascii;
  is_good : bool
}.

(** [inputstream.read(p, n)]: extracts up to [n] characters; when fewer are
    available it sets [eofbit | failbit].  A stream that is not good
    extracts nothing.  Returns the characters stored ([gcount] of them). *)
Definition istream_read (s : istream) (n : nat) : list ascii * istream :=
  if is_good s then
    let got := firstn n (is_content s) in
    (got, mk_istream (skipn n (is_content s)) (n <=? List.length (is_content s)))
  else ([], s).

(** ** Character arrays *)

(** [new char[n]]: the contents are indeterminate; the model fixes them. *)
Definition new_char_array (n : nat) : list ascii := repeat zero n.

(** Writing [src] into the array [dst] at offset [off]. *)
Definition array_write (dst : list ascii) (off : nat) (src : list ascii) : list ascii :=
  firstn off dst ++ src ++ skipn (off + List.length src) dst.

(** [std::memmove(dst, src + from, n)] where [dst] and [src] are arrays. *)
Definition memmove (dst src : list ascii) (from n : nat) : list ascii :=
  array_write dst 0 (firstn n (skipn from src)).

(** [element_t(base + from, base + to)]: the characters in [[from, to)]. *)
Definition substring (a : list ascii) (from to : nat) : element_t :=
  firstn (to - from) (skipn from a).

(** ** The streaming tokenizer: [file_to_set] *)

(** [#define INITIAL_BUFFERSIZE 4096] *)
Definition INITIAL_BUFFERSIZE : nat := 4096.

(** The exceptions that reach [main]. *)
Inductive exception :=
| runtime_error (what : list ascii)
| invalid_argument (what : list ascii).

(** The local state of [file_to_set] across rounds of its do-while loop.
    [buffer] is the whole array of [buffersize] characters, of which the
    first [used_buffer] are pending. *)
Record tokenizer := mk_tokenizer {
  buffersize : nat;
  used_buffer : nat;
  buffer : list ascii;
  result : set_t;
  inputstream : istream
}.

(** The state before the first round: an empty set, a fresh array of the
    initial capacity, nothing pending. *)
Definition initial_tokenizer (initial_buffersize : nat) (stream : istream)
    : tokenizer :=
  mk_tokenizer initial_buffersize 0 (new_char_array initial_buffersize) [] stream.

Section Tokenizer.
Context {pattern : Type} {engine : RegexEngine pattern}.
Variable input_opts : InputOptions pattern.

(** The lambda [adjust_and_insert_element]. *)
Definition adjust_and_insert_element (result : set_t) (el_str : element_t)
    (check_element_regex : bool) : set_t :=
  if negb check_element_regex
     || regex_empty (input_element_regex input_opts)
     || match input_element_regex input_opts with
        | Some re => regex_match re el_str
        | None => false
        end
  then
    let el_str := trim_if (is_any_of (trim_characters input_opts)) el_str in
    if negb (match el_str with [] => true | _ => false end)
       || include_empty_elements input_opts
    then set_insert (element_comp input_opts) el_str result
    else result
  else result.

(** [use_separator_regex] and the pattern [regex] refers to. *)
Variable use_separator_regex : bool.
Variable regex : pattern.

(** The condition of the inner while loop for the match [m], the iterator
    not being at its end: [m] is a full match, and the stream is at its
    end or the text from the start of [m] to the end of the buffer is
    neither a full nor a partial match. *)
Definition match_is_final (stream_failed : bool) (region : list ascii)
    (m : sub_match) : bool :=
  matched m
  && (stream_failed
      || negb (regex_match_partial regex (skipn (first m) region))).

(** The inner while loop.  [region] is the buffer up to [buffer_end],
    [curr_match] the values the iterator still has to yield.  Returns the
    set, [buffer_handled_until] and the iterator where the loop stopped. *)
Fixpoint match_loop (stream_failed : bool) (region : list ascii)
    (curr_match : list sub_match) (buffer_handled_until : nat)
    (result : set_t) : set_t * nat * list sub_match :=
  match curr_match with
  | [] => (result, buffer_handled_until, [])
  | m :: next =>
      if match_is_final stream_failed region m then
        if use_separator_regex then
          match_loop stream_failed region next (second m)
            (adjust_and_insert_element result
               (substring region buffer_handled_until (first m)) true)
        else
          match_loop stream_failed region next buffer_handled_until
            (adjust_and_insert_element result
               (substring region (first m) (second m)) false)
      else (result, buffer_handled_until, curr_match)
  end.

(** The three parts of the body of the do-while loop. *)

(** Reading: the array after [inputstream.read], the offset [buffer_end]
    and the stream. *)
Definition round_read (t : tokenizer) : list ascii * nat * istream :=
  let '(got, stream) :=
    istream_read (inputstream t) (buffersize t - used_buffer t) in
  (array_write (buffer t) (used_buffer t) got,
   used_buffer t + List.length got,
   stream).

(** Matching: the inner while loop over the iterator on
    [[buffer, buffer_end)], then the correction of [buffer_handled_until]
    when the element expression is used.  Returns the set and
    [buffer_handled_until]. *)
Definition round_scan (stream_failed : bool) (buffer1 : list ascii)
    (buffer_end : nat) (result : set_t) : set_t * nat :=
  let region := firstn buffer_end buffer1 in
  let '(result1, handled, curr_match) :=
    match_loop stream_failed region (cregex_iterator regex region) 0 result in
  (result1,
   if use_separator_regex then handled
   else match curr_match with
        | m :: _ => first m
        | [] => buffer_end
        end).

(** Keeping the pending characters: the new [buffersize], [used_buffer]
    and array. *)
Definition round_keep (buffersize : nat) (buffer1 : list ascii)
    (buffer_end buffer_handled_until : nat) : nat * nat * list ascii :=
  let used := buffer_end - buffer_handled_until in
  if buffer_handled_until =? 0 then
    let size := buffersize * 2 in
    (size, used, memmove (new_char_array size) buffer1 buffer_handled_until used)
  else
    (buffersize, used, memmove buffer1 buffer1 buffer_handled_until used).

(** One pass through the body of the do-while loop. *)
Definition tokenizer_round (t : tokenizer) : tokenizer :=
  let '(buffer1, buffer_end, stream) := round_read t in
  let '(result1, buffer_handled_until) :=
    round_scan (negb (is_good stream)) buffer1 buffer_end (result t) in
  let '(size, used, buffer2) :=
    round_keep (buffersize t) buffer1 buffer_end buffer_handled_until in
  mk_tokenizer size used buffer2 result1 stream.

(** The do-while loop: rounds until the stream is no longer good. *)
Fixpoint tokenizer_loop (fuel : nat) (t : tokenizer) : option tokenizer :=
  match fuel with
  | O => None
  | S fuel' =>
      let t' := tokenizer_round t in
      if is_good (inputstream t') then tokenizer_loop fuel' t'
      else Some t'
  end.

(** After the loop: in separator mode the pending characters, if any, are
    the last element. *)
Definition tokenizer_finish (t : tokenizer) : set_t :=
  if use_separator_regex && (0 <? used_buffer t) then
    adjust_and_insert_element (result t) (firstn (used_buffer t) (buffer t)) true
  else result t.

(** The part [[buffer, buffer_end)] of the array a round matches on, and
    the value of [buffer_handled_until] when the round reaches
    [used_buffer = buffer_end - buffer_handled_until]. *)
Definition round_region (t : tokenizer) : list ascii :=
  let '(buffer1, buffer_end, _) := round_read t in
  firstn buffer_end buffer1.

Definition round_handled (t : tokenizer) : nat :=
  let '(buffer1, buffer_end, stream) := round_read t in
  snd (round_scan (negb (is_good stream)) buffer1 buffer_end (result t)).

(** The tokenizer on an open stream, with the initial capacity explicit.
    Every round but the last extracts at least one character, so the
    length of the stream plus two bounds the number of rounds. *)
Definition tokenize (initial_buffersize : nat) (stream : istream)
    : option (set_t * istream) :=
  let t0 := initial_tokenizer initial_buffersize stream in
  match tokenizer_loop (2 + List.length (is_content stream)) t0 with
  | Some t => Some (tokenizer_finish t, inputstream t)
  | None => None
  end.
End Tokenizer.

(** The pending characters: the first [used_buffer] ones of the array. *)
Definition pending (t : tokenizer) : list ascii :=
  firstn (used_buffer t) (buffer t).

(** Between two rounds the array has [buffersize] characters and is not
    full. *)
Definition tokenizer_ok (t : tokenizer) : Prop :=
  used_buffer t < buffersize t /\ List.length (buffer t) = buffersize t.

(** The matches of an iterator lie inside the text of [n] characters. *)
Definition matches_within (n : nat) (ms : list sub_match) : Prop :=
  Forall (fun m => first m <= n /\ second m <= n) ms.

(** The file system and the standard input, as [file_to_set] sees them. *)
Record world := mk_world {
  files : list ascii -> option (list ascii);
  std_cin : istream;
  std_cout : list ascii;
  std_cerr : list ascii
}.

Section FileToSet.
Context {pattern : Type} {engine : RegexEngine pattern}.
Variable input_opts : InputOptions pattern.

(** What [file_to_set] returns or throws, and the world it leaves.  The
    exceptions are the two [file_to_set] raises itself or meets before its
    loop: the file that cannot be opened and the expression that was never
    set.  An exception thrown by the engine inside the loop and
    [std::bad_alloc] are not embedded. *)
Definition file_to_set_with (initial_buffersize : nat) (filename : list ascii)
    (w : world) : option ((exception + set_t) * world) :=
  let is_cin := if list_eq_dec ascii_dec filename (str "-") then true else false in
  let opened :=
    if is_cin then Some (std_cin w)
    else match files w filename with
         | Some content => Some (mk_istream content true)
         | None => None
         end in
  match opened with
  | None =>
      Some (inl (runtime_error
                   (str "Input file " ++ filename ++ str " could not be opened.")), w)
  | Some stream =>
      let use_separator_regex := regex_empty (input_element_regex input_opts) in
      let regex := if use_separator_regex then input_separator_regex input_opts
                   else input_element_regex input_opts in
      match regex with
      | None =>
          (* Boost.Regex refuses an uninitialised expression *)
          Some (inl (invalid_argument (str "Invalid regular expression object")), w)
      | Some regex =>
          match tokenize input_opts use_separator_regex regex
                  initial_buffersize stream with
          | None => None
          | Some (s, stream') =>
              Some (inr s,
                    if is_cin
                    then mk_world (files w) stream' (std_cout w) (std_cerr w)
                    else w)
          end
      end
  end.

Definition file_to_set := file_to_set_with INITIAL_BUFFERSIZE.
End FileToSet.

(** ** Exit codes, operations and queries *)

(** [EXIT_SUCCESS] and [EXIT_FAILURE] of [<cstdlib>], with their values on
    POSIX systems, and [#define EXIT_QUERY_NEGATIVE 3]. *)
Definition EXIT_SUCCESS : Z := 0.
Definition EXIT_FAILURE : Z := 1.
Definition EXIT_QUERY_NEGATIVE : Z := 3.

(** The [#if ... #error] guard below the definition of
    [EXIT_QUERY_NEGATIVE]: compilation stops when this is [true]. *)
Definition exit_code_guard_fails : bool :=
  (EXIT_QUERY_NEGATIVE =? EXIT_SUCCESS)%Z || (EXIT_QUERY_NEGATIVE =? EXIT_FAILURE)%Z.

(** [enum class SetConcat] *)
Inductive SetConcat := UNION | INTERSECTION | SYM_DIFFERENCE.

(** [enum class SetQuery] *)
Inductive SetQuery :=
| RETURN_SET | CARDINALITY | ISEMPTY | SUBSET | SUPERSET
| CONTAINS_ELEMENT | SET_EQUALITY.

Definition newline : ascii := ascii_of_nat 10.
Definition dquote : ascii := ascii_of_nat 34.

(** ** A state and exception monad over [world]

    [None] stands for a computation that does not return. *)
Definition M (A : Type) : Type := world -> option ((exception + A) * world).

Definition ret {A : Type} (a : A) : M A := fun w => Some (inr a, w).

Definition throw {A : Type} (e : exception) : M A := fun w => Some (inl e, w).

Definition bind {A B : Type} (c : M A) (k : A -> M B) : M B :=
  fun w =>
    match c w with
    | None => None
    | Some (inl e, w') => Some (inl e, w')
    | Some (inr a, w') => k a w'
    end.

Notation "x <- c ;; k" := (bind c (fun x => k))
  (at level 61, c at next level, right associativity).

(** [std::cout << s] and [std::cerr << s] *)
Definition cout (s : list ascii) : M unit :=
  fun w => Some (inr tt, mk_world (files w) (std_cin w) (std_cout w ++ s) (std_cerr w)).

Definition cerr (s : list ascii) : M unit :=
  fun w => Some (inr tt, mk_world (files w) (std_cin w) (std_cout w) (std_cerr w ++ s)).

(** [print_error] *)
Definition print_error (error_message : list ascii) : M Z :=
  _ <- cerr (str "Error: " ++ error_message ++ [newline]) ;;
  ret EXIT_FAILURE.

(** ** Steps 1 and 2 of [execute_setop]: the set algebra *)

(** The body of the loop of [case SetConcat::SYM_DIFFERENCE]: an element
    of [curr_set] that is found is erased, one that is not is inserted. *)
Definition toggle (comp : el_comp_t) (output_set : set_t) (el : element_t) : set_t :=
  match set_find comp el output_set with
  | Some it => set_erase_at it output_set
  | None => set_insert comp el output_set
  end.

(** The body of the loop of [case SetConcat::INTERSECTION]. *)
Definition keep_if_found (comp : el_comp_t) (curr_set intersect : set_t)
    (el : element_t) : set_t :=
  match set_find comp el curr_set with
  | Some _ => set_insert comp el intersect
  | None => intersect
  end.

(** The body of the [switch (set_concat_type)] for an input stream that is
    not the first one. *)
Definition concat_step (comp : el_comp_t) (set_concat_type : SetConcat)
    (output_set curr_set : set_t) : set_t :=
  match set_concat_type with
  | UNION => set_insert_range comp curr_set output_set
  | INTERSECTION => fold_left (keep_if_found comp curr_set) output_set []
  | SYM_DIFFERENCE => fold_left (toggle comp) curr_set output_set
  end.

(** Step 1 on sets that are already built: the first one initialises
    [output_set], each further one goes through [concat_step]. *)
Definition concat_sets (comp : el_comp_t) (set_concat_type : SetConcat)
    (sets : list set_t) : set_t :=
  match sets with
  | [] => []
  | first_set :: others =>
      fold_left (concat_step comp set_concat_type) others first_set
  end.

(** The inner loop of step 2: [for (el : curr_diff) output_set.erase(el);] *)
Definition difference_step (comp : el_comp_t) (output_set curr_diff : set_t) : set_t :=
  fold_left (fun output_set el => set_erase comp el output_set) curr_diff output_set.

(** Step 2 on sets that are already built. *)
Definition subtract_sets (comp : el_comp_t) (output_set : set_t)
    (diffs : list set_t) : set_t :=
  fold_left (difference_step comp) diffs output_set.

(** The options and arguments [execute_setop] has parsed and checked when
    it reaches its three steps. *)
Record CommandLine := mk_CommandLine {
  quiet : bool;
  verbose : bool;
  set_concat_type : SetConcat;
  set_query_type : SetQuery;
  input_filenames : list (list ascii);
  setdifference_filenames : list (list ascii);
  element_to_check : element_t;
  equal_filename : list ascii;
  subset_filename : list ascii;
  superset_filename : list ascii
}.

(** [std::to_string]-like printing of a size. *)
Definition print_size (n : nat) : list ascii :=
  str (NilEmpty.string_of_uint (Nat.to_uint n)).

(** [operator==] on two [std::set]s: same size and pairwise equal strings. *)
Definition set_eqb (a b : set_t) : bool :=
  if list_eq_dec (list_eq_dec ascii_dec) a b then true else false.

Section ExecuteSetop.
Context {pattern : Type} {engine : RegexEngine pattern}.
Variable input_opts : InputOptions pattern.
Variable cl : CommandLine.

Definition load (filename : list ascii) : M set_t := file_to_set input_opts filename.

(** STEP 1/3: the loop over [input_filenames]; [is_first] tells whether
    [curr_fn_it == input_filenames.cbegin()]. *)
Fixpoint step1 (is_first : bool) (filenames : list (list ascii))
    (output_set : set_t) : M set_t :=
  match filenames with
  | [] => ret output_set
  | fn :: rest =>
      curr_set <- load fn ;;
      step1 false rest
        (if is_first then curr_set
         else concat_step (element_comp input_opts) (set_concat_type cl)
                output_set curr_set)
  end.

(** STEP 2/3: the loop over [setdifference_filenames]. *)
Fixpoint step2 (filenames : list (list ascii)) (output_set : set_t) : M set_t :=
  match filenames with
  | [] => ret output_set
  | fn :: rest =>
      curr_diff <- load fn ;;
      step2 rest (difference_step (element_comp input_opts) output_set curr_diff)
  end.

(** The lambda [answer_query]. *)
Definition answer_query (success : bool) (success_msg unsuccess_msg : list ascii)
    : M Z :=
  if success then
    _ <- (if verbose cl then cout success_msg else ret tt) ;;
    ret EXIT_SUCCESS
  else
    _ <- (if quiet cl then ret tt else cout unsuccess_msg) ;;
    ret EXIT_QUERY_NEGATIVE.

(** The predicates handed to [std::all_of] for SUBSET and SUPERSET. *)
Definition subset_test (output_set set_to_check : set_t) : bool :=
  forallb (fun s => match set_find (element_comp input_opts) s output_set with
                    | Some _ => true | None => false end)
          set_to_check.

Definition superset_test (output_set set_to_check : set_t) : bool :=
  forallb (fun s => match set_find (element_comp input_opts) s set_to_check with
                    | Some _ => true | None => false end)
          output_set.

(** STEP 3/3: the [switch (set_query_type)]. *)
Definition step3 (output_set : set_t) : M Z :=
  match set_query_type cl with
  | RETURN_SET =>
      _ <- cout (List.concat (map (fun el => el ++ output_separator input_opts) output_set)) ;;
      ret EXIT_SUCCESS
  | CARDINALITY =>
      _ <- cout (print_size (List.length output_set) ++ [newline]) ;;
      ret EXIT_SUCCESS
  | ISEMPTY =>
      answer_query (match output_set with [] => true | _ => false end)
        (str "Resulting set is empty." ++ [newline])
        (str "Resulting set is not empty." ++ [newline])
  | CONTAINS_ELEMENT =>
      let element_to_check :=
        trim_if (is_any_of (trim_characters input_opts)) (element_to_check cl) in
      answer_query
        (match set_find (element_comp input_opts) element_to_check output_set with
         | Some _ => true | None => false end)
        ([dquote] ++ element_to_check ++ [dquote]
           ++ str " is contained in set." ++ [newline])
        (str "Input does not contain element " ++ [dquote] ++ element_to_check
           ++ [dquote] ++ str "." ++ [newline])
  | SET_EQUALITY =>
      loaded <- load (equal_filename cl) ;;
      answer_query (set_eqb loaded output_set)
        (str "Resulting set is equal to input " ++ [dquote] ++ equal_filename cl
           ++ [dquote] ++ str "." ++ [newline])
        (str "Resulting set is not equal to input " ++ [dquote]
           ++ equal_filename cl ++ [dquote] ++ str "." ++ [newline])
  | SUBSET =>
      set_to_check <- load (subset_filename cl) ;;
      answer_query (subset_test output_set set_to_check)
        ([dquote] ++ subset_filename cl ++ [dquote]
           ++ str " is a subset." ++ [newline])
        ([dquote] ++ subset_filename cl ++ [dquote]
           ++ str " is not a subset." ++ [newline])
  | SUPERSET =>
      set_to_check <- load (superset_filename cl) ;;
      answer_query (superset_test output_set set_to_check)
        ([dquote] ++ superset_filename cl ++ [dquote]
           ++ str " is a superset." ++ [newline])
        ([dquote] ++ superset_filename cl ++ [dquote]
           ++ str " is not a superset." ++ [newline])
  end.

(** "use console as input when no file given" *)
Definition input_filenames_or_cin : list (list ascii) :=
  match input_filenames cl with
  | [] => [str "-"]
  | fns => fns
  end.

(** [execute_setop] from "PROCESS CALCULATIONS IN THREE STEPS" on. *)
Definition execute_setop : M Z :=
  output_set <- step1 true input_filenames_or_cin [] ;;
  output_set <- step2 (setdifference_filenames cl) output_set ;;
  step3 output_set.

(** [main]: every exception ends in [print_error]. *)
Definition main : world -> option (Z * world) :=
  fun w =>
    match execute_setop w with
    | None => None
    | Some (inr exit_code, w') => Some (exit_code, w')
    | Some (inl (runtime_error what), w')
    | Some (inl (invalid_argument what), w') =>
        match print_error what w' with
        | Some (inr exit_code, w'') => Some (exit_code, w'')
        | _ => None
        end
    end.
End ExecuteSetop.

(** ** A fragment of the Perl matcher of Boost.Regex

    Boost.Regex is not part of the repository.  This is a model of the
    documented behaviour of its backtracking matcher for expressions made
    of single-character tests (literals, classes), the assertion [^],
    concatenation, alternation and the greedy star, under the flags
    [match_default | match_partial] the tokenizer passes:
    - a search tries the start positions from left to right; at one
      position the alternatives are tried in order and a repeat is greedy;
      the first way to reach the end of the expression is the full match;
    - when no full match starts at a position but some state failed with
      the whole text consumed, the search returns the partial match from
      that position to the end of the text;
    - [^] matches at the start of the searched text and after a line
      separator. *)

Inductive perl_pattern :=
| p_empty
| p_char (f : ascii -> bool)
| p_start_line
| p_cat (a b : perl_pattern)
| p_alt (a b : perl_pattern)
| p_star (a : perl_pattern).

(** What the attempt at one start position gives. *)
Inductive outcome :=
| Full (e : nat)
| Partial
| NoMatch.

(** Trying [b] after [a] has failed: a full match wins, and the mark of a
    partial match stays. *)
Definition orelse (a b : outcome) : outcome :=
  match a with
  | Full e => Full e
  | Partial => match b with Full e => Full e | _ => Partial end
  | NoMatch => b
  end.

Definition is_separator (c : ascii) : bool :=
  Ascii.eqb c (ascii_of_nat 10) || Ascii.eqb c (ascii_of_nat 13)
  || Ascii.eqb c (ascii_of_nat 12).

(** [match_start_line]: [prev] is the character before the position,
    [None] at the start of the text. *)
Definition at_start_line (prev : option ascii) (rest : list ascii) : bool :=
  match prev with
  | None => true
  | Some t =>
      match rest with
      | c :: _ =>
          is_separator t
          && negb (Ascii.eqb t (ascii_of_nat 13) && Ascii.eqb c (ascii_of_nat 10))
      | [] => is_separator t
      end
  end.

(** A state that fails: this marks a partial match when the position is
    the end of the text and not the start of the search. *)
Definition state_fails (search_base pos : nat) (rest : list ascii) : outcome :=
  match rest with
  | [] => if pos =? search_base then NoMatch else Partial
  | _ :: _ => NoMatch
  end.

(** A greedy repeat: once more the states of the repeated expression and
    then the repeat again, else the continuation [k].  An iteration that
    consumes nothing ends the repeat; [count] bounds the iterations by the
    length of the text. *)
Fixpoint repeat_star
    (states : nat -> option ascii -> list ascii ->
              (nat -> option ascii -> list ascii -> outcome) -> outcome)
    (k : nat -> option ascii -> list ascii -> outcome)
    (count pos : nat) (prev : option ascii) (rest : list ascii)
    {struct count} : outcome :=
  match count with
  | O => k pos prev rest
  | S count' =>
      orelse
        (states pos prev rest
           (fun pos' prev' rest' =>
              if pos' =? pos then k pos' prev' rest'
              else repeat_star states k count' pos' prev' rest'))
        (k pos prev rest)
  end.

(** The states of [p] from position [pos], then the continuation [k]. *)
Fixpoint match_all_states (search_base : nat) (p : perl_pattern) (pos : nat)
    (prev : option ascii) (rest : list ascii)
    (k : nat -> option ascii -> list ascii -> outcome) {struct p} : outcome :=
  match p with
  | p_empty => k pos prev rest
  | p_char f =>
      match rest with
      | c :: rest' =>
          if f c then k (S pos) (Some c) rest' else NoMatch
      | [] => state_fails search_base pos rest
      end
  | p_start_line =>
      if at_start_line prev rest then k pos prev rest
      else state_fails search_base pos rest
  | p_cat a b =>
      match_all_states search_base a pos prev rest
        (fun pos' prev' rest' => match_all_states search_base b pos' prev' rest' k)
  | p_alt a b =>
      orelse (match_all_states search_base a pos prev rest k)
             (match_all_states search_base b pos prev rest k)
  | p_star a =>
      repeat_star (match_all_states search_base a) k
        (S (List.length rest)) pos prev rest
  end.

(** [can_be_null]: the expression may match the empty string. *)
Fixpoint can_be_null (p : perl_pattern) : bool :=
  match p with
  | p_empty | p_start_line | p_star _ => true
  | p_char _ => false
  | p_cat a b => can_be_null a && can_be_null b
  | p_alt a b => can_be_null a || can_be_null b
  end.

(** [match_match] for a search: with [match_not_initial_null] an empty
    match at the start of the search is refused. *)
Definition search_accept (not_initial_null : bool) (search_base : nat)
    (pos : nat) (_ : option ascii) (rest : list ascii) : outcome :=
  if not_initial_null && (pos =? search_base) then NoMatch else Full pos.

(** [match_match] under [match_all] ([regex_match]): only at the end. *)
Definition match_accept (pos : nat) (_ : option ascii) (rest : list ascii) : outcome :=
  match rest with
  | [] => Full pos
  | _ :: _ => NoMatch
  end.

(** [find_restart_any]: the start positions from [pos] on. *)
Fixpoint find_restart_any (p : perl_pattern) (not_initial_null : bool)
    (search_base pos : nat) (prev : option ascii) (rest : list ascii)
    : option sub_match :=
  let attempt :=
    match_all_states search_base p pos prev rest
      (search_accept not_initial_null search_base) in
  let last := pos + List.length rest in
  match rest with
  | [] =>
      if can_be_null p then
        match attempt with
        | Full e => Some (mk_sub_match pos e true)
        | Partial => Some (mk_sub_match pos last false)
        | NoMatch => None
        end
      else None
  | c :: rest' =>
      match attempt with
      | Full e => Some (mk_sub_match pos e true)
      | Partial => Some (mk_sub_match pos last false)
      | NoMatch =>
          find_restart_any p not_initial_null search_base (S pos) (Some c) rest'
      end
  end.

(** [regex_search(text + from, text_end, m, re, flags, text)]. *)
Definition perl_regex_search (p : perl_pattern) (not_initial_null : bool)
    (text : list ascii) (from : nat) : option sub_match :=
  find_restart_any p not_initial_null from from
    (match from with O => None | S i => nth_error text i end)
    (skipn from text).

(** The values of a [regex_iterator]: the first search starts at the
    beginning, the next one where the last match ended, with
    [match_not_initial_null] after an empty match.  The list stops at a
    partial match, which reaches the end of the text. *)
Fixpoint perl_iterate (fuel : nat) (p : perl_pattern) (text : list ascii)
    (from : nat) (not_initial_null : bool) : list sub_match :=
  match fuel with
  | O => []
  | S fuel' =>
      match perl_regex_search p not_initial_null text from with
      | None => []
      | Some m =>
          m :: (if matched m
                then perl_iterate fuel' p text (second m) (second m =? first m)
                else [])
      end
  end.

Definition perl_cregex_iterator (p : perl_pattern) (text : list ascii)
    : list sub_match :=
  perl_iterate (2 * List.length text + 2) p text 0 false.

(** [regex_match] with and without [match_partial]. *)
Definition perl_regex_match_outcome (p : perl_pattern) (text : list ascii) : outcome :=
  match_all_states 0 p 0 None text match_accept.

Definition perl_regex_match (p : perl_pattern) (text : list ascii) : bool :=
  match perl_regex_match_outcome p text with
  | Full _ => true
  | _ => false
  end.

Definition perl_regex_match_partial (p : perl_pattern) (text : list ascii) : bool :=
  match perl_regex_match_outcome p text with
  | Full _ | Partial => true
  | NoMatch => false
  end.

#[export] Instance perl_engine : RegexEngine perl_pattern := {
  regex_match := perl_regex_match;
  regex_match_partial := perl_regex_match_partial;
  cregex_iterator := perl_cregex_iterator
}.

(** Some expressions. *)
Definition p_lit (c : ascii) : perl_pattern := p_char (Ascii.eqb c).
Definition p_plus (a : perl_pattern) : perl_pattern := p_cat a (p_star a).
Definition is_digit (c : ascii) : bool :=
  let n := nat_of_ascii c in (48 <=? n) && (n <=? 57).

(** [\n], the default separator; [\d+]; [^a]; [a|ab]. *)
Definition re_newline : perl_pattern := p_lit newline.
Definition re_digits : perl_pattern := p_plus (p_char is_digit).
Definition re_line_a : perl_pattern := p_cat p_start_line (p_lit "a"%char).
Definition re_a_or_ab : perl_pattern :=
  p_alt (p_lit "a"%char) (p_cat (p_lit "a"%char) (p_lit "b"%char)).

(** Options as [execute_setop] sets them up. *)
Definition options_of (sg ignore_case include_empty : bool)
    (element_format separator_format : option perl_pattern)
    (trim : list ascii) : InputOptions perl_pattern :=
  mk_InputOptions (element_comp_of sg ignore_case) include_empty
    element_format
    (match element_format, separator_format with
     | None, None => Some re_newline
     | _, _ => separator_format
     end)
    [newline] trim.

Definition default_options : InputOptions perl_pattern :=
  options_of true false false None None [].

(** ** Vocabulary of the statements *)

Section Vocabulary.
Context {pattern : Type} {engine : RegexEngine pattern}.
Variable input_opts : InputOptions pattern.

(** Loading the named sources one after the other. *)
Fixpoint load_all (filenames : list (list ascii)) : M (list set_t) :=
  match filenames with
  | [] => ret []
  | fn :: rest =>
      s <- load input_opts fn ;;
      others <- load_all rest ;;
      ret (s :: others)
  end.

(** Steps 1 and 2 of [execute_setop]: the set handed to step 3. *)
Definition output_set_of (cl : CommandLine) : M set_t :=
  output_set <- step1 input_opts cl true (input_filenames_or_cin cl) [] ;;
  step2 input_opts (setdifference_filenames cl) output_set.

(** The sets that exist during a run: those [file_to_set] returns,
    [output_set] after a step of the primary operation or of the
    subtraction on such sets, and the set handed to step 3. *)
Inductive produced : set_t -> Prop :=
| produced_by_file_to_set filename w s w' :
    file_to_set input_opts filename w = Some (inr s, w') -> produced s
| produced_by_concat_step op output_set curr_set :
    produced output_set -> produced curr_set ->
    produced (concat_step (element_comp input_opts) op output_set curr_set)
| produced_by_difference_step output_set curr_diff :
    produced output_set -> produced curr_diff ->
    produced (difference_step (element_comp input_opts) output_set curr_diff)
| produced_as_output_set cl w s w' :
    output_set_of cl w = Some (inr s, w') -> produced s.

(** The truth value of the query on [output_set]: [None] for the two
    queries that only print, otherwise the boolean [step3] hands to
    [answer_query]. *)
Definition query_truth (cl : CommandLine) (output_set : set_t)
    : M (option bool) :=
  match set_query_type cl with
  | RETURN_SET | CARDINALITY => ret None
  | ISEMPTY => ret (Some (match output_set with [] => true | _ => false end))
  | CONTAINS_ELEMENT =>
      ret (Some (set_contains (element_comp input_opts)
                   (trim_if (is_any_of (trim_characters input_opts))
                      (element_to_check cl))
                   output_set))
  | SET_EQUALITY =>
      loaded <- load input_opts (equal_filename cl) ;;
      ret (Some (set_eqb loaded output_set))
  | SUBSET =>
      set_to_check <- load input_opts (subset_filename cl) ;;
      ret (Some (subset_test input_opts output_set set_to_check))
  | SUPERSET =>
      set_to_check <- load input_opts (superset_filename cl) ;;
      ret (Some (superset_test input_opts output_set set_to_check))
  end.

(** The three outcomes of a query and their exit codes. *)
Definition exit_code_of (truth : option bool) : Z :=
  match truth with
  | None => EXIT_SUCCESS
  | Some true => EXIT_SUCCESS
  | Some false => EXIT_QUERY_NEGATIVE
  end.

(** The file a query reads besides the inputs, if any. *)
Definition comparison_filename (cl : CommandLine) : option (list ascii) :=
  match set_query_type cl with
  | SET_EQUALITY => Some (equal_filename cl)
  | SUBSET => Some (subset_filename cl)
  | SUPERSET => Some (superset_filename cl)
  | _ => None
  end.
End Vocabulary.

(** The test of the tokenizer as the specification words it: a full match
    is safe when the stream is exhausted or the end of the match does not
    touch the end of the buffer. *)
Definition spec_match_is_safe (stream_exhausted : bool) (region : list ascii)
    (m : sub_match) : bool :=
  matched m && (stream_exhausted || negb (second m =? List.length region)).

(** How many of the sets hold an element equivalent to [z]. *)
Definition count_containing (comp : el_comp_t) (z : element_t)
    (sets : list set_t) : nat :=
  List.length (filter (set_contains comp z) sets).

(** ** A small world for the examples *)

Definition lines (l : list string) : list ascii :=
  List.concat (map (fun s => str s ++ [newline]) l).

Definition example_files (filename : list ascii) : option (list ascii) :=
  if list_eq_dec ascii_dec filename (str "A") then Some (lines ["a"; "b"; "a"]%string)
  else if list_eq_dec ascii_dec filename (str "B") then Some (lines ["b"; "c"]%string)
  else if list_eq_dec ascii_dec filename (str "X") then Some (lines ["x"]%string)
  else if list_eq_dec ascii_dec filename (str "XY") then Some (lines ["x"; "y"]%string)
  else if list_eq_dec ascii_dec filename (str "F") then Some (lines ["Foo"; "foo"; "bar"]%string)
  else None.

Definition example_world : world :=
  mk_world example_files (mk_istream [] true) [] [].

Definition example_command_line (op : SetConcat) (query : SetQuery)
    (inputs diffs : list string) (other : string) : CommandLine :=
  mk_CommandLine false false op query (map str inputs) (map str diffs)
    (str other) (str other) (str other) (str other).

(** A tokenizer before its first round; the input is the line [ab]
    followed by 4096 times [c]. *)
Definition example_tokenizer : tokenizer :=
  initial_tokenizer INITIAL_BUFFERSIZE
    (mk_istream (lines ["ab"]%string ++ repeat "c"%char INITIAL_BUFFERSIZE) true).

(** A tokenizer before its only round: the input is one line, and empty
    elements are included. *)
Definition include_empty_options : InputOptions perl_pattern :=
  options_of true false true None None [].


(** An input whose first 4096 characters end in [ab]: 4094 times [x],
    then [abz]. *)
Definition ab_at_buffer_end : list ascii :=
  repeat "x"%char (INITIAL_BUFFERSIZE - 2) ++ str "abz".

(** The standard input holding [content]. *)
Definition world_with_cin (content : list ascii) : world :=
  mk_world (fun _ => None) (mk_istream content true) [] [].

(** ** Vocabulary of the statements on the tokenizer *)

Section TokenizerVocabulary.
Context {pattern : Type} {engine : RegexEngine pattern}.
Variable input_opts : InputOptions pattern.

(** The strings the inner loop hands to [adjust_and_insert_element] for
    the matches [done], in order: with the separator expression the text
    between [buffer_handled_until] and each match, with the element
    expression the text of each match. *)
Fixpoint finalized_elements (use_separator_regex : bool) (region : list ascii)
    (buffer_handled_until : nat) (done : list sub_match) : list element_t :=
  match done with
  | [] => []
  | m :: done' =>
      if use_separator_regex then
        substring region buffer_handled_until (first m)
        :: finalized_elements use_separator_regex region (second m) done'
      else
        substring region (first m) (second m)
        :: finalized_elements use_separator_regex region buffer_handled_until done'
  end.

(** Handing strings to [adjust_and_insert_element] one after the other. *)
Definition insert_elements (check_element_regex : bool)
    (els : list element_t) (result : set_t) : set_t :=
  fold_left
    (fun acc el => adjust_and_insert_element input_opts acc el check_element_regex)
    els result.

(** Tokenizing in one pass: the capacity exceeds the input, so the first
    read takes all of it and finds the end of the stream. *)
Definition tokenize_in_one_pass (use_separator_regex : bool) (regex : pattern)
    (content : list ascii) : option (set_t * istream) :=
  tokenize input_opts use_separator_regex regex (S (List.length content))
    (mk_istream content true).
End TokenizerVocabulary.

(** ** Reference tokenization for a separator of one character

    The separator is a test [f] on single characters (a literal such as
    the default [\n], or a class). *)

(** The matches an iterator finds in [text], whose first character is at
    offset [pos]: one full match per separator character. *)
Fixpoint separator_matches (f : ascii -> bool) (pos : nat) (text : list ascii)
    : list sub_match :=
  match text with
  | [] => []
  | c :: text' =>
      if f c then mk_sub_match pos (S pos) true :: separator_matches f (S pos) text'
      else separator_matches f (S pos) text'
  end.

(** Splitting [text] at the separator characters, [cur] being the element
    in progress: the elements that are closed by a separator, and the
    characters left pending.  When more input may follow
    ([at_end = false]) a separator that is the last character stays
    pending with the element before it. *)
Fixpoint split_fields (f : ascii -> bool) (at_end : bool) (cur : element_t)
    (text : list ascii) : list element_t * list ascii :=
  match text with
  | [] => ([], cur)
  | c :: text' =>
      if f c then
        if at_end || match text' with [] => false | _ => true end then
          let '(fields, rest) := split_fields f at_end [] text' in
          (cur :: fields, rest)
        else ([], cur ++ [c])
      else split_fields f at_end (cur ++ [c]) text'
  end.

(** The elements of a whole input: those closed by a separator, then the
    characters behind the last separator when there are any. *)
Definition all_fields (f : ascii -> bool) (text : list ascii) : list element_t :=
  let '(fields, rest) := split_fields f true [] text in
  fields ++ match rest with [] => [] | _ :: _ => [rest] end.

(** ** Relating a search to [regex_match] on the text from the match on *)

(** The character before the position, in the search and in
    [regex_match]: the same, or none at the start of the text. *)
Definition prev_related (prev2 prev : option ascii) : Prop :=
  prev2 = None \/ prev2 = prev.

(** The continuations of the search ([k]) and of [regex_match] ([k2]):
    where the first gives the full match ending at [e], the second does
    not fail.  [L] is the length of the text, [s] the offset of
    [regex_match] in it. *)
Definition continuation_related (e L s pos : nat)
    (k k2 : nat -> option ascii -> list ascii -> outcome) : Prop :=
  forall pos' prev' rest' prev2',
    pos <= pos' -> pos' + List.length rest' = L -> prev_related prev2' prev' ->
    k pos' prev' rest' = Full e ->
    k2 (pos' - s) prev2' rest' <> NoMatch.

(** An input of 4097 characters: 4096 times [b], then [a]. *)
Definition long_line : list ascii := repeat "b"%char INITIAL_BUFFERSIZE ++ ["a"%char].

(** * The rest of the program *)

(** ** [unescape_sequence] *)

Definition backslash : ascii := ascii_of_nat 92.

(** The map [escape_characters]: the character behind the backslash and
    the character it stands for. *)
Definition escape_characters : list (ascii * ascii) :=
  [ ("'"%char, "'"%char);
    (dquote, dquote);
    ("?"%char, "?"%char);
    (backslash, backslash);
    ("f"%char, ascii_of_nat 12);
    ("n"%char, ascii_of_nat 10);
    ("r"%char, ascii_of_nat 13);
    ("t"%char, ascii_of_nat 9);
    ("v"%char, ascii_of_nat 11) ].

(** [escape_characters.find(c)] *)
Fixpoint escape_find (c : ascii) (m : list (ascii * ascii)) : option ascii :=
  match m with
  | [] => None
  | (key, value) :: m' => if Ascii.eqb c key then Some value else escape_find c m'
  end.

(** The loop of [unescape_sequence] over what is left of [escape_seq],
    [result] being the string built so far. *)
Fixpoint unescape_loop (escape_seq rest result : list ascii)
    : exception + list ascii :=
  match rest with
  | [] => inr result
  | curr_char :: rest' =>
      if Ascii.eqb curr_char backslash then
        match rest' with
        | [] =>
            inl (invalid_argument
                   (str "Parsing failed: Backslash at end of " ++ [dquote]
                      ++ escape_seq ++ [dquote] ++ str " is invalid."))
        | second_char :: rest'' =>
            match escape_find second_char escape_characters with
            | Some c => unescape_loop escape_seq rest'' (result ++ [c])
            | None =>
                inl (invalid_argument
                       (str "Parsing failed: " ++ str "Escape sequence "
                          ++ [dquote; backslash; second_char; dquote]
                          ++ str " in argument " ++ [dquote] ++ escape_seq
                          ++ [dquote] ++ str " is not supported."))
            end
        end
      else unescape_loop escape_seq rest' (result ++ [curr_char])
  end.

Definition unescape_sequence (escape_seq : list ascii) : exception + list ascii :=
  unescape_loop escape_seq escape_seq [].

(** A way to write a string with escape sequences: the backslash and the
    five control characters are written as their sequences. *)
Definition escape_char (c : ascii) : list ascii :=
  if Ascii.eqb c backslash then [backslash; backslash]
  else if Ascii.eqb c (ascii_of_nat 12) then [backslash; "f"%char]
  else if Ascii.eqb c (ascii_of_nat 10) then [backslash; "n"%char]
  else if Ascii.eqb c (ascii_of_nat 13) then [backslash; "r"%char]
  else if Ascii.eqb c (ascii_of_nat 9) then [backslash; "t"%char]
  else if Ascii.eqb c (ascii_of_nat 11) then [backslash; "v"%char]
  else [c].

Definition escape_string (s : list ascii) : list ascii :=
  List.concat (map escape_char s).

(** ** [execute_setop] from the parsed command line on *)

(** What [boost::program_options] has stored when parsing succeeded: the
    switches, the strings (empty when the option was not given; the
    output separator defaults to a backslash and an [n]) and, for the
    options that are counted, whether they were given. *)
Record ProgramOptions := mk_ProgramOptions {
  po_help : bool;
  po_version : bool;
  po_quiet : bool;
  po_verbose : bool;
  po_ignore_case : bool;
  po_include_empty : bool;
  po_input_separator : list ascii;
  po_input_element : list ascii;
  po_output_separator : list ascii;
  po_trim : list ascii;
  po_union : bool;
  po_intersection : bool;
  po_symmetric_difference : bool;
  po_difference : list (list ascii);
  po_cardinality : bool;
  po_is_empty : bool;
  po_contains : option (list ascii);
  po_equal : option (list ascii);
  po_subset : option (list ascii);
  po_superset : option (list ascii);
  po_inputfile : list (list ascii)
}.

Definition given {A : Type} (o : option A) : bool :=
  match o with Some _ => true | None => false end.

Definition value_or_empty (o : option (list ascii)) : list ascii :=
  match o with Some s => s | None => [] end.

(** [opt_map.count("union") + opt_map.count("intersection")
    + opt_map.count("symmetric-difference")] *)
Definition count_set_operations (po : ProgramOptions) : nat :=
  Nat.b2n (po_union po) + Nat.b2n (po_intersection po)
  + Nat.b2n (po_symmetric_difference po).

Definition count_queries (po : ProgramOptions) : nat :=
  Nat.b2n (po_cardinality po) + Nat.b2n (po_is_empty po)
  + Nat.b2n (given (po_subset po)) + Nat.b2n (given (po_superset po))
  + Nat.b2n (given (po_contains po)) + Nat.b2n (given (po_equal po)).

Definition chosen_set_operation (po : ProgramOptions) : SetConcat :=
  if po_intersection po then INTERSECTION
  else if po_symmetric_difference po then SYM_DIFFERENCE
  else UNION.

Definition chosen_query (po : ProgramOptions) : SetQuery :=
  if po_cardinality po then CARDINALITY
  else if po_is_empty po then ISEMPTY
  else if given (po_subset po) then SUBSET
  else if given (po_superset po) then SUPERSET
  else if given (po_contains po) then CONTAINS_ELEMENT
  else if given (po_equal po) then SET_EQUALITY
  else RETURN_SET.

Definition what (e : exception) : list ascii :=
  match e with
  | runtime_error w => w
  | invalid_argument w => w
  end.

Section ExecuteSetopOptions.
Context {pattern : Type} {engine : RegexEngine pattern}.

(** The constructor of [boost::regex] with the flags the program passes:
    [None] when it throws [boost::regex_error]. *)
Variable regex_compile : list ascii -> option pattern.

(** Whether plain [char] is signed, and what the program prints for
    [--help] (the text ends with the rendering of the options by
    [boost::program_options]). *)
Variable char_is_signed : bool.
Variable help_text : list ascii.

(** The [try] block "check if regexes are ok": the two expressions, or the
    format that is not a valid regular expression. *)
Definition compile_regexes (element_format separator_format : list ascii)
    : list ascii + (option pattern * option pattern) :=
  match
    match element_format with
    | [] => Some None
    | _ :: _ => option_map Some (regex_compile element_format)
    end
  with
  | None => inl element_format
  | Some element_regex =>
      match
        match separator_format with
        | [] => Some None
        | _ :: _ => option_map Some (regex_compile separator_format)
        end
      with
      | None => inl separator_format
      | Some separator_regex => inr (element_regex, separator_regex)
      end
  end.

(** [execute_setop] behind the parsing of the command line. *)
Definition execute_setop_options (po : ProgramOptions) : M Z :=
  if po_help po then
    _ <- cout help_text ;; ret EXIT_SUCCESS
  else if po_version po then
    _ <- cout (str "setop 0.1" ++ [newline]) ;; ret EXIT_SUCCESS
  else
    let both := po_quiet po && po_verbose po in
    _ <- (if both
          then cerr (str "Warning: Only one of the options quiet and verbose is allowed. Both ignored."
                       ++ [newline])
          else ret tt) ;;
    let quiet := if both then false else po_quiet po in
    let verbose := if both then false else po_verbose po in
    if 1 <? count_set_operations po then
      print_error (str "Only one of the set operations union, intersection, and symmetric difference must be used.")
    else if 1 <? count_queries po then
      print_error (str "Only one of the options cardinality, is-empty, subset, superset, contains, and equal is allowed.")
    else
      match unescape_sequence (po_trim po) with
      | inl e => print_error (what e)
      | inr trim_characters =>
          match unescape_sequence (po_output_separator po) with
          | inl e => print_error (what e)
          | inr output_separator =>
              let separator_format :=
                match po_input_element po, po_input_separator po with
                | [], [] => [backslash; "n"%char]
                | _, _ => po_input_separator po
                end in
              match compile_regexes (po_input_element po) separator_format with
              | inl format =>
                  print_error ([dquote] ++ format ++ [dquote]
                                 ++ str " is not a valid regular expression.")
              | inr (element_regex, separator_regex) =>
                  execute_setop
                    (mk_InputOptions
                       (element_comp_of char_is_signed (po_ignore_case po))
                       (po_include_empty po) element_regex separator_regex
                       output_separator trim_characters)
                    (mk_CommandLine quiet verbose (chosen_set_operation po)
                       (chosen_query po) (po_inputfile po) (po_difference po)
                       (value_or_empty (po_contains po))
                       (value_or_empty (po_equal po))
                       (value_or_empty (po_subset po))
                       (value_or_empty (po_superset po)))
              end
          end
      end.

(** [main] behind the parsing of the command line: an exception that
    leaves [execute_setop] ends in [print_error]. *)
Definition main_options (po : ProgramOptions) (w : world) : option (Z * world) :=
  match execute_setop_options po w with
  | None => None
  | Some (inr exit_code, w') => Some (exit_code, w')
  | Some (inl e, w') =>
      match print_error (what e) w' with
      | Some (inr exit_code, w'') => Some (exit_code, w'')
      | _ => None
      end
  end.
End ExecuteSetopOptions.

(** The options of a command line with nothing on it. *)
Definition no_options : ProgramOptions :=
  mk_ProgramOptions false false false false false false [] []
    [backslash; "n"%char] [] false false false [] false false
    None None None None [].

(** ** Vocabulary for the statements about the whole program *)

(** The world once standard input has been read to its end. *)
Definition cin_read (w : world) : world :=
  mk_world (files w)
    (if is_good (std_cin w) then mk_istream [] false else std_cin w)
    (std_cout w) (std_cerr w).

(** [w'] is [w] or [w] with standard input read to its end. *)
Definition reads (w w' : world) : Prop := w' = w \/ w' = cin_read w.

(** A name [file_to_set] can open: standard input or an existing file. *)
Definition can_be_opened (fs : list ascii -> option (list ascii))
    (filename : list ascii) : Prop :=
  filename = str "-" \/ fs filename <> None.



(** The queries [answer_query] answers. *)
Definition is_boolean_query (q : SetQuery) : bool :=
  match q with
  | RETURN_SET | CARDINALITY => false
  | _ => true
  end.

(** The separator format the regular expressions are built from. *)
Definition separator_format_of (po : ProgramOptions) : list ascii :=
  match po_input_element po, po_input_separator po with
  | [], [] => [backslash; "n"%char]
  | _, _ => po_input_separator po
  end.

(** The checks of "CHECK PLAUSIBILITY OF INPUT OPTIONS AND ARGUMENTS" that
    end in [print_error]. *)
Definition configuration_error {pattern : Type}
    (regex_compile : list ascii -> option pattern) (po : ProgramOptions) : Prop :=
  1 < count_set_operations po
  \/ 1 < count_queries po
  \/ (exists e, unescape_sequence (po_trim po) = inl e)
  \/ (exists e, unescape_sequence (po_output_separator po) = inl e)
  \/ (po_input_element po <> [] /\ regex_compile (po_input_element po) = None)
  \/ (separator_format_of po <> []
      /\ regex_compile (separator_format_of po) = None).

(** The names the three steps hand to [file_to_set], in this order. *)
Definition needed_files (po : ProgramOptions) : list (list ascii) :=
  match po_inputfile po with [] => [str "-"] | fns => fns end
  ++ po_difference po
  ++ match chosen_query po with
     | SET_EQUALITY => [value_or_empty (po_equal po)]
     | SUBSET => [value_or_empty (po_subset po)]
     | SUPERSET => [value_or_empty (po_superset po)]
     | _ => []
     end.


Definition with_input_separator (separator_format : list ascii)
    (po : ProgramOptions) : ProgramOptions :=
  mk_ProgramOptions (po_help po) (po_version po) (po_quiet po) (po_verbose po)
    (po_ignore_case po) (po_include_empty po) separator_format
    (po_input_element po) (po_output_separator po) (po_trim po) (po_union po)
    (po_intersection po) (po_symmetric_difference po) (po_difference po)
    (po_cardinality po) (po_is_empty po) (po_contains po) (po_equal po)
    (po_subset po) (po_superset po) (po_inputfile po).

(** A compiler for the modelled fragment, for examples: the formats it
    knows are a backslash and [n], [^a], [\d+] and single characters that
    are not special. *)
Definition example_regex_compile (format : list ascii) : option perl_pattern :=
  if list_eq_dec ascii_dec format [backslash; "n"%char] then Some re_newline
  else if list_eq_dec ascii_dec format (str "^a") then Some re_line_a
  else if list_eq_dec ascii_dec format (backslash :: str "d+") then Some re_digits
  else match format with
       | [c] => if is_any_of (str "()[]{}*+?.|^$" ++ [backslash]) c then None
                else Some (p_lit c)
       | _ => None
       end.

(** The expression [file_to_set] matches with. *)
Definition regex_in_use {pattern : Type} (input_opts : InputOptions pattern)
    : option pattern :=
  if regex_empty (input_element_regex input_opts)
  then input_separator_regex input_opts
  else input_element_regex input_opts.

(** What [execute_setop] has made of the command line when it reaches its
    three steps, and the warning it has written by then. *)
Definition command_line_of (po : ProgramOptions) : CommandLine :=
  let both := po_quiet po && po_verbose po in
  mk_CommandLine (if both then false else po_quiet po)
    (if both then false else po_verbose po)
    (chosen_set_operation po) (chosen_query po) (po_inputfile po)
    (po_difference po) (value_or_empty (po_contains po))
    (value_or_empty (po_equal po)) (value_or_empty (po_subset po))
    (value_or_empty (po_superset po)).

Definition warning (po : ProgramOptions) : list ascii :=
  if po_quiet po && po_verbose po
  then str "Warning: Only one of the options quiet and verbose is allowed. Both ignored."
         ++ [newline]
  else [].

(** The names a query hands to [file_to_set]. *)
Definition query_files (cl : CommandLine) : list (list ascii) :=
  match comparison_filename cl with
  | Some filename => [filename]
  | None => []
  end.

(** The world once the warning about [--quiet] with [--verbose], if any,
    is written, and the names the three steps hand to [file_to_set]. *)
Definition warned (po : ProgramOptions) (w : world) : world :=
  mk_world (files w) (std_cin w) (std_cout w) (std_cerr w ++ warning po).

Definition all_files (cl : CommandLine) : list (list ascii) :=
  match input_filenames cl with [] => [str "-"] | fns => fns end
  ++ setdifference_filenames cl ++ query_files cl.

(** Command lines for examples: [--quiet], [-u], [-i], [-c], [-e] and the
    input files; every other option is left out. *)
Definition example_program_options (quiet union intersection : bool)
    (contains equal : option string) (inputs : list string) : ProgramOptions :=
  mk_ProgramOptions false false quiet false false false [] []
    [backslash; "n"%char] [] union intersection false [] false false
    (option_map str contains) (option_map str equal) None None
    (map str inputs).

(** Whether the primary operation over [sets] holds an element equivalent
    to [z], from what each of the sets holds. *)
Definition primary_membership (comp : el_comp_t) (op : SetConcat)
    (z : element_t) (sets : list set_t) : bool :=
  match op with
  | UNION => existsb (set_contains comp z) sets
  | INTERSECTION =>
      match sets with
      | [] => false
      | _ :: _ => forallb (set_contains comp z) sets
      end
  | SYM_DIFFERENCE => Nat.odd (count_containing comp z sets)
  end.

(** [sub] is a run of consecutive characters of [text]. *)
Definition is_substring_of (sub text : list ascii) : Prop :=
  exists before after, text = before ++ sub ++ after.

(** Between two rounds of the tokenizer on [input]: the pending characters
    are the last ones taken from the stream, and every element is a piece
    of the input. *)
Definition buffer_holds_input (input : list ascii) (t : tokenizer) : Prop :=
  tokenizer_ok t
  /\ (exists before, input = before ++ pending t ++ is_content (inputstream t))
  /\ (forall x, In x (result t) -> is_substring_of x input).


(** The input options with another value for [--include-empty]. *)
Definition with_include_empty {pattern : Type} (include_empty : bool)
    (input_opts : InputOptions pattern) : InputOptions pattern :=
  mk_InputOptions (element_comp input_opts) include_empty
    (input_element_regex input_opts) (input_separator_regex input_opts)
    (output_separator input_opts) (trim_characters input_opts).

(** The set built without empty elements ([r0]) against the one built
    with them ([r1]). *)
Definition without_empty (comp : el_comp_t) (r0 r1 : set_t) : Prop :=
  is_set comp r0 /\ is_set comp r1
  /\ forall z, In z r0 <-> In z r1 /\ z <> [].

(** A world whose file [D] holds [12,34], a new line, [5] and a new line,
    and the command line [setop -l '\d+' D]. *)
Definition digits_world : world :=
  mk_world
    (fun filename =>
       if list_eq_dec ascii_dec filename (str "D")
       then Some (str "12,34" ++ [newline] ++ str "5" ++ [newline])
       else None)
    (mk_istream [] true) [] [].

Definition digits_options : ProgramOptions :=
  mk_ProgramOptions false false false false false false []
    (backslash :: str "d+") [backslash; "n"%char] [] false false false []
    false false None None None None [str "D"].

(** * Properties *)

Unset Implicit Arguments.

(** ** [std::set] over a strict weak ordering *)

Section StdSetFacts.
Context (comp : el_comp_t) {SWO : StrictWeakOrder comp}.

Local Abbreviation lt a b := (comp a b = true).

Lemma comp_asym a b : lt a b -> comp b a = false.
Proof.
  intros Hab. destruct (comp b a) eqn:Hba; [|reflexivity].
  pose proof (comp_trans _ _ _ Hab Hba) as Haa.
  rewrite comp_irrefl in Haa. discriminate.
Qed.

Lemma equiv_refl a : equiv comp a a = true.
Proof. unfold equiv. now rewrite comp_irrefl. Qed.

Lemma equiv_sym a b : equiv comp a b = equiv comp b a.
Proof. unfold equiv. apply andb_comm. Qed.

Lemma equiv_spec a b :
  equiv comp a b = true <-> comp a b = false /\ comp b a = false.
Proof.
  unfold equiv. rewrite andb_true_iff, !negb_true_iff. tauto.
Qed.

Lemma comp_equiv_r a b c : lt a b -> equiv comp b c = true -> lt a c.
Proof.
  intros Hab [Hbc Hcb]%equiv_spec.
  destruct (comp_negtrans a c b Hab) as [H|H]; [exact H | congruence].
Qed.

Lemma comp_equiv_l a b c : lt a b -> equiv comp a c = true -> lt c b.
Proof.
  intros Hab [Hac Hca]%equiv_spec.
  destruct (comp_negtrans a c b Hab) as [H|H]; [congruence | exact H].
Qed.

Lemma equiv_trans a b c :
  equiv comp a b = true -> equiv comp b c = true -> equiv comp a c = true.
Proof.
  intros Hab Hbc. apply equiv_spec. split.
  - destruct (comp a c) eqn:Hac; [|reflexivity].
    rewrite equiv_sym in Hbc.
    pose proof (comp_equiv_r _ _ _ Hac Hbc) as H.
    apply equiv_spec in Hab. destruct Hab; congruence.
  - destruct (comp c a) eqn:Hca; [|reflexivity].
    pose proof (comp_equiv_r _ _ _ Hca Hab) as H.
    apply equiv_spec in Hbc. destruct Hbc; congruence.
Qed.

Lemma is_set_inv y s :
  is_set comp (y :: s) -> is_set comp s /\ forall z, In z s -> lt y z.
Proof.
  intros H. inversion H as [|? ? Hs Hall]; subst. split; [exact Hs|].
  now apply Forall_forall.
Qed.

Lemma is_set_cons y s :
  is_set comp s -> (forall z, In z s -> lt y z) -> is_set comp (y :: s).
Proof.
  intros Hs Hall. constructor; [exact Hs|]. now apply Forall_forall.
Qed.

Lemma is_set_nil : is_set comp [].
Proof. constructor. Qed.

(** *** find *)

Lemma set_find_Some x s i :
  set_find comp x s = Some i ->
  exists y, nth_error s i = Some y /\ equiv comp x y = true.
Proof.
  revert i. induction s as [|y s IH]; intros i; simpl; [discriminate|].
  destruct (comp y x) eqn:Hyx.
  - destruct (set_find comp x s) as [j|] eqn:Hf; simpl; [|discriminate].
    intros [= <-]. simpl. now apply IH.
  - destruct (comp x y) eqn:Hxy; [discriminate|].
    intros [= <-]. exists y. split; [reflexivity|].
    apply equiv_spec. now split.
Qed.

Lemma set_find_None x s :
  is_set comp s -> set_find comp x s = None ->
  forall y, In y s -> equiv comp x y = false.
Proof.
  induction s as [|y s IH]; intros Hs Hf z Hz; [contradiction|].
  apply is_set_inv in Hs. destruct Hs as [Hs Hall].
  simpl in Hf. destruct (comp y x) eqn:Hyx.
  - destruct (set_find comp x s) eqn:Hf'; [discriminate|].
    destruct Hz as [<-|Hz].
    + unfold equiv. now rewrite Hyx, andb_false_r.
    + now apply IH.
  - destruct (comp x y) eqn:Hxy; [|discriminate].
    unfold equiv. destruct Hz as [<-|Hz].
    + now rewrite Hxy.
    + now rewrite (comp_trans _ _ _ Hxy (Hall _ Hz)).
Qed.

Lemma set_contains_iff x s :
  is_set comp s -> (set_contains comp x s = true <-> set_In comp x s).
Proof.
  intros Hs. unfold set_contains. split.
  - destruct (set_find comp x s) as [i|] eqn:Hf; [|discriminate]. intros _.
    destruct (set_find_Some _ _ _ Hf) as (y & Hy & He).
    exists y. split; [|exact He]. eapply nth_error_In; eauto.
  - intros (y & Hy & He).
    destruct (set_find comp x s) as [i|] eqn:Hf; [reflexivity|].
    rewrite (set_find_None _ _ Hs Hf _ Hy) in He. discriminate.
Qed.

Lemma set_contains_false_iff x s :
  is_set comp s -> (set_contains comp x s = false <-> ~ set_In comp x s).
Proof.
  intros Hs. rewrite <- (set_contains_iff x s Hs).
  destruct (set_contains comp x s); split; congruence.
Qed.

Lemma set_In_equiv x x' s :
  equiv comp x x' = true -> set_In comp x s -> set_In comp x' s.
Proof.
  intros He (y & Hy & Hxy). exists y. split; [exact Hy|].
  rewrite equiv_sym in He. eapply equiv_trans; eauto.
Qed.

Lemma set_contains_equiv x x' s :
  is_set comp s -> equiv comp x x' = true ->
  set_contains comp x s = set_contains comp x' s.
Proof.
  intros Hs He.
  destruct (set_contains comp x s) eqn:H1, (set_contains comp x' s) eqn:H2;
    try reflexivity.
  - apply (set_contains_iff _ _ Hs) in H1.
    apply (set_contains_false_iff _ _ Hs) in H2.
    exfalso. apply H2. eapply set_In_equiv; eauto.
  - apply (set_contains_iff _ _ Hs) in H2.
    apply (set_contains_false_iff _ _ Hs) in H1.
    exfalso. apply H1. rewrite equiv_sym in He. eapply set_In_equiv; eauto.
Qed.

(** *** insert *)

Lemma set_insert_In x s z :
  In z (set_insert comp x s) -> z = x \/ In z s.
Proof.
  induction s as [|y s IH]; simpl.
  - intros [<-|[]]. now left.
  - destruct (comp y x).
    + intros [<-|H]; [right; now left|].
      destruct (IH H); [now left | right; now right].
    + destruct (comp x y); [|now right].
      intros [<-|H]; [now left | now right].
Qed.

Lemma set_insert_is_set x s : is_set comp s -> is_set comp (set_insert comp x s).
Proof.
  induction s as [|y s IH]; intros Hs; simpl.
  - apply is_set_cons; [constructor | intros ? []].
  - pose proof Hs as Hs0.
    apply is_set_inv in Hs. destruct Hs as [Hs Hall].
    destruct (comp y x) eqn:Hyx.
    + apply is_set_cons; [now apply IH|].
      intros z Hz. apply set_insert_In in Hz. destruct Hz as [->|Hz]; auto.
    + destruct (comp x y) eqn:Hxy; [|exact Hs0].
      apply is_set_cons; [exact Hs0|].
      intros z [<-|Hz]; [exact Hxy|].
      eapply comp_trans; eauto.
Qed.

Lemma set_insert_set_In x s z :
  set_In comp z (set_insert comp x s) <-> equiv comp z x = true \/ set_In comp z s.
Proof.
  induction s as [|y s IH]; simpl.
  - split.
    + intros (w & [<-|[]] & He). now left.
    + intros [He|(w & [] & _)]. exists x. split; [now left | exact He].
  - destruct (comp y x) eqn:Hyx; [|destruct (comp x y) eqn:Hxy].
    + split.
      * intros (w & [<-|Hw] & He).
        -- right. exists y. split; [now left | exact He].
        -- destruct (proj1 IH) as [H|(w' & Hw' & He')];
             [exists w; now split | now left |].
           right. exists w'. split; [now right | exact He'].
      * intros [He|(w & [<-|Hw] & He)].
        -- destruct (proj2 IH (or_introl He)) as (w & Hw & Hew).
           exists w. split; [now right | exact Hew].
        -- exists y. split; [now left | exact He].
        -- destruct (proj2 IH) as (w' & Hw' & He');
             [right; exists w; now split |].
           exists w'. split; [now right | exact He'].
    + split.
      * intros (w & [<-|Hw] & He); [now left|].
        right. exists w. now split.
      * intros [He|(w & Hw & He)].
        -- exists x. split; [now left | exact He].
        -- exists w. split; [now right | exact He].
    + split.
      * intros H. now right.
      * intros [He|H]; [|exact H].
        exists y. split; [now left|].
        eapply equiv_trans; [exact He|]. apply equiv_spec. now split.
Qed.

Lemma set_insert_contains x s z :
  is_set comp s ->
  set_contains comp z (set_insert comp x s)
  = equiv comp z x || set_contains comp z s.
Proof.
  intros Hs. apply eq_true_iff_eq.
  rewrite (set_contains_iff _ _ (set_insert_is_set x s Hs)), set_insert_set_In.
  rewrite orb_true_iff, (set_contains_iff _ _ Hs). tauto.
Qed.
End StdSetFacts.

Section StdSetAlgebra.
Context (comp : el_comp_t) {SWO : StrictWeakOrder comp}.

Local Abbreviation lt a b := (comp a b = true).
Local Abbreviation eqv a b := (equiv comp a b).

Lemma mem_iff z s : mem comp z s = true <-> set_In comp z s.
Proof.
  unfold mem, set_In. rewrite existsb_exists. reflexivity.
Qed.

Lemma set_contains_mem z s :
  is_set comp s -> set_contains comp z s = mem comp z s.
Proof.
  intros Hs. apply eq_true_iff_eq.
  now rewrite (set_contains_iff comp z s Hs), mem_iff.
Qed.

Lemma mem_cons z y s : mem comp z (y :: s) = eqv z y || mem comp z s.
Proof. reflexivity. Qed.

Lemma mem_equiv z z' s : eqv z z' = true -> mem comp z s = mem comp z' s.
Proof.
  intros He. apply eq_true_iff_eq. rewrite !mem_iff. split.
  - apply set_In_equiv; assumption.
  - apply set_In_equiv; try assumption. now rewrite equiv_sym.
Qed.

Lemma equiv_congr_l z a b : eqv a b = true -> eqv z a = eqv z b.
Proof.
  intros He. destruct (eqv z a) eqn:Ha, (eqv z b) eqn:Hb; try reflexivity.
  - rewrite (equiv_trans comp _ _ _ Ha He) in Hb. discriminate.
  - rewrite equiv_sym in He. rewrite (equiv_trans comp _ _ _ Hb He) in Ha.
    discriminate.
Qed.

Lemma mem_insert z x s :
  mem comp z (set_insert comp x s) = eqv z x || mem comp z s.
Proof.
  apply eq_true_iff_eq. rewrite orb_true_iff, !mem_iff.
  apply set_insert_set_In; assumption.
Qed.

(** In a set, an element below [x] or above [x] is not equivalent to it. *)
Lemma lt_not_equiv a b : lt a b -> eqv a b = false.
Proof. intros H. unfold equiv. now rewrite H. Qed.

Lemma gt_not_equiv a b : lt a b -> eqv b a = false.
Proof. intros H. unfold equiv. now rewrite H, andb_false_r. Qed.

Lemma mem_above x s z :
  (forall w, In w s -> lt x w) -> eqv z x = true -> mem comp z s = false.
Proof.
  intros Hall He. destruct (mem comp z s) eqn:Hm; [|reflexivity].
  apply mem_iff in Hm. destruct Hm as (w & Hw & Hzw).
  rewrite equiv_sym in He.
  pose proof (equiv_trans comp _ _ _ He Hzw) as Hxw.
  rewrite (lt_not_equiv _ _ (Hall _ Hw)) in Hxw. discriminate.
Qed.

(** *** erase *)

Lemma set_erase_In x s z : In z (set_erase comp x s) -> In z s.
Proof.
  induction s as [|y s IH]; simpl; [tauto|].
  destruct (comp y x).
  - intros [<-|H]; [now left | right; now apply IH].
  - destruct (comp x y); [tauto | now right].
Qed.

Lemma set_erase_is_set x s : is_set comp s -> is_set comp (set_erase comp x s).
Proof.
  induction s as [|y s IH]; intros Hs; simpl; [exact Hs|].
  pose proof Hs as Hs0.
  apply is_set_inv in Hs. destruct Hs as [Hs Hall].
  destruct (comp y x).
  - apply is_set_cons; [now apply IH|].
    intros z Hz. apply Hall. eapply set_erase_In; eauto.
  - destruct (comp x y); assumption.
Qed.

Lemma mem_erase z x s :
  is_set comp s ->
  mem comp z (set_erase comp x s) = negb (eqv z x) && mem comp z s.
Proof.
  induction s as [|y s IH]; intros Hs; simpl.
  - now rewrite andb_false_r.
  - apply is_set_inv in Hs. destruct Hs as [Hs Hall].
    fold (mem comp z s).
    destruct (comp y x) eqn:Hyx; [|destruct (comp x y) eqn:Hxy].
    + simpl. fold (mem comp z (set_erase comp x s)). rewrite (IH Hs).
      destruct (eqv z y) eqn:Hzy; simpl; [|reflexivity].
      destruct (eqv z x) eqn:Hzx; simpl; [|reflexivity].
      exfalso. rewrite equiv_sym in Hzy.
      pose proof (equiv_trans comp _ _ _ Hzy Hzx) as H.
      rewrite (lt_not_equiv _ _ Hyx) in H. discriminate.
    + simpl. fold (mem comp z s).
      destruct (eqv z x) eqn:Hzx; simpl; [|reflexivity].
      change (eqv z y || mem comp z s) with (mem comp z (y :: s)).
      apply (mem_above x); [|exact Hzx].
      intros w [<-|Hw]; [exact Hxy|].
      eapply comp_trans; eauto.
    + assert (Hxy' : eqv x y = true) by (apply equiv_spec; now split).
      rewrite (equiv_congr_l z x y Hxy').
      destruct (eqv z y) eqn:Hzy; simpl; [|reflexivity].
      apply (mem_above y); assumption.
Qed.

(** [erase(it)] after [it = find(x)] is [erase(x)]. *)
Lemma set_erase_at_find x s it :
  set_find comp x s = Some it -> set_erase_at it s = set_erase comp x s.
Proof.
  revert it. induction s as [|y s IH]; intros it; simpl; [discriminate|].
  destruct (comp y x).
  - destruct (set_find comp x s) as [j|] eqn:Hf; simpl; [|discriminate].
    intros [= <-]. simpl. now rewrite (IH j).
  - destruct (comp x y); [discriminate|]. now intros [= <-].
Qed.

(** *** The steps of the set algebra *)

Lemma set_insert_range_is_set els s :
  is_set comp s -> is_set comp (set_insert_range comp els s).
Proof.
  revert s. induction els as [|e els IH]; intros s Hs; simpl; [exact Hs|].
  apply IH. now apply set_insert_is_set.
Qed.

Lemma mem_insert_range z els s :
  mem comp z (set_insert_range comp els s) = mem comp z s || mem comp z els.
Proof.
  unfold set_insert_range.
  revert s. induction els as [|e els IH]; intros s; cbn [fold_left].
  - cbn. now rewrite orb_false_r.
  - rewrite IH, mem_insert, mem_cons.
    destruct (eqv z e), (mem comp z s), (mem comp z els); reflexivity.
Qed.

Lemma toggle_is_set s el : is_set comp s -> is_set comp (toggle comp s el).
Proof.
  intros Hs. unfold toggle. destruct (set_find comp el s) as [it|] eqn:Hf.
  - rewrite (set_erase_at_find _ _ _ Hf). now apply set_erase_is_set.
  - now apply set_insert_is_set.
Qed.

Lemma mem_toggle z s el :
  is_set comp s -> mem comp z (toggle comp s el) = xorb (eqv z el) (mem comp z s).
Proof.
  intros Hs. unfold toggle.
  destruct (set_find comp el s) as [it|] eqn:Hf.
  - rewrite (set_erase_at_find _ _ _ Hf), (mem_erase _ _ _ Hs).
    destruct (eqv z el) eqn:Hz; simpl; [|reflexivity].
    assert (Hm : set_contains comp el s = true)
      by (unfold set_contains; now rewrite Hf).
    rewrite (set_contains_mem _ _ Hs) in Hm.
    rewrite (mem_equiv z el s Hz), Hm. reflexivity.
  - rewrite mem_insert.
    destruct (eqv z el) eqn:Hz; simpl; [|reflexivity].
    assert (Hm : set_contains comp el s = false)
      by (unfold set_contains; now rewrite Hf).
    rewrite (set_contains_mem _ _ Hs) in Hm.
    rewrite (mem_equiv z el s Hz), Hm. reflexivity.
Qed.

Lemma fold_toggle_is_set els s :
  is_set comp s -> is_set comp (fold_left (toggle comp) els s).
Proof.
  revert s. induction els as [|e els IH]; intros s Hs; cbn [fold_left]; [exact Hs|].
  apply IH. now apply toggle_is_set.
Qed.

Lemma mem_fold_toggle z els s :
  is_set comp s -> is_set comp els ->
  mem comp z (fold_left (toggle comp) els s) = xorb (mem comp z s) (mem comp z els).
Proof.
  revert s. induction els as [|e els IH]; intros s Hs Hels; cbn [fold_left].
  - cbn. now rewrite xorb_false_r.
  - apply is_set_inv in Hels. destruct Hels as [Hels Hall].
    rewrite (IH _ (toggle_is_set _ _ Hs) Hels), (mem_toggle _ _ _ Hs), mem_cons.
    destruct (eqv z e) eqn:Hze.
    + rewrite (mem_above e els z Hall Hze).
      destruct (mem comp z s); reflexivity.
    + destruct (mem comp z s), (mem comp z els); reflexivity.
Qed.

Lemma fold_keep_is_set curr els acc :
  is_set comp acc -> is_set comp (fold_left (keep_if_found comp curr) els acc).
Proof.
  revert acc. induction els as [|e els IH]; intros acc Hacc; cbn [fold_left];
    [exact Hacc|].
  apply IH. unfold keep_if_found.
  destruct (set_find comp e curr); [now apply set_insert_is_set | exact Hacc].
Qed.

Lemma mem_fold_keep z curr els acc :
  is_set comp curr ->
  mem comp z (fold_left (keep_if_found comp curr) els acc)
  = mem comp z acc || (mem comp z els && mem comp z curr).
Proof.
  intros Hcurr. revert acc.
  induction els as [|e els IH]; intros acc; cbn [fold_left].
  - cbn. now rewrite orb_false_r.
  - rewrite IH, mem_cons. unfold keep_if_found.
    pose proof (set_contains_mem e curr Hcurr) as Hc. unfold set_contains in Hc.
    destruct (eqv z e) eqn:Hze.
    + rewrite (mem_equiv z e curr Hze).
      destruct (set_find comp e curr).
      * rewrite mem_insert, Hze, <- Hc. cbn. now rewrite !orb_true_r.
      * rewrite <- Hc. cbn. now rewrite !andb_false_r.
    + destruct (set_find comp e curr).
      * rewrite mem_insert, Hze. reflexivity.
      * reflexivity.
Qed.

Lemma fold_erase_is_set els s :
  is_set comp s ->
  is_set comp (fold_left (fun out el => set_erase comp el out) els s).
Proof.
  revert s. induction els as [|e els IH]; intros s Hs; cbn [fold_left]; [exact Hs|].
  apply IH. now apply set_erase_is_set.
Qed.

Lemma mem_fold_erase z els s :
  is_set comp s ->
  mem comp z (fold_left (fun out el => set_erase comp el out) els s)
  = mem comp z s && negb (mem comp z els).
Proof.
  revert s. induction els as [|e els IH]; intros s Hs; cbn [fold_left].
  - cbn. now rewrite andb_true_r.
  - rewrite (IH _ (set_erase_is_set e s Hs)), (mem_erase _ _ _ Hs), mem_cons.
    destruct (eqv z e), (mem comp z s), (mem comp z els); reflexivity.
Qed.

(** What one step of the primary operation leaves in [output_set]. *)
Lemma concat_step_is_set op out curr :
  is_set comp out -> is_set comp (concat_step comp op out curr).
Proof.
  intros Hout. destruct op; cbn [concat_step].
  - now apply set_insert_range_is_set.
  - apply fold_keep_is_set. apply is_set_nil.
  - now apply fold_toggle_is_set.
Qed.

Lemma mem_concat_step z op out curr :
  is_set comp out -> is_set comp curr ->
  mem comp z (concat_step comp op out curr)
  = match op with
    | UNION => mem comp z out || mem comp z curr
    | INTERSECTION => mem comp z out && mem comp z curr
    | SYM_DIFFERENCE => xorb (mem comp z out) (mem comp z curr)
    end.
Proof.
  intros Hout Hcurr. destruct op; cbn [concat_step].
  - apply mem_insert_range.
  - rewrite (mem_fold_keep _ _ _ _ Hcurr). reflexivity.
  - now apply mem_fold_toggle.
Qed.

Lemma concat_sets_is_set op sets :
  Forall (is_set comp) sets -> is_set comp (concat_sets comp op sets).
Proof.
  destruct sets as [|s0 others]; intros H; cbn [concat_sets]; [apply is_set_nil|].
  inversion H as [|? ? Hs0 Hothers]; subst. clear H.
  revert s0 Hs0. induction others as [|c others IH]; intros s0 Hs0;
    cbn [fold_left]; [exact Hs0|].
  inversion Hothers; subst. apply IH; [assumption|].
  now apply concat_step_is_set.
Qed.

Lemma difference_step_is_set out diff :
  is_set comp out -> is_set comp (difference_step comp out diff).
Proof. apply fold_erase_is_set. Qed.

Lemma subtract_sets_is_set out diffs :
  is_set comp out -> is_set comp (subtract_sets comp out diffs).
Proof.
  unfold subtract_sets. revert out.
  induction diffs as [|d diffs IH]; intros out Hout; cbn [fold_left]; [exact Hout|].
  apply IH. now apply difference_step_is_set.
Qed.

Lemma mem_subtract_sets z out diffs :
  is_set comp out ->
  mem comp z (subtract_sets comp out diffs)
  = mem comp z out && negb (existsb (mem comp z) diffs).
Proof.
  unfold subtract_sets. revert out.
  induction diffs as [|d diffs IH]; intros out Hout; cbn [fold_left existsb].
  - now rewrite andb_true_r.
  - rewrite (IH _ (difference_step_is_set _ d Hout)).
    unfold difference_step. rewrite (mem_fold_erase _ _ _ Hout).
    destruct (mem comp z out), (mem comp z d), (existsb (mem comp z) diffs);
      reflexivity.
Qed.

(** Inserting a stored element, or a sequence of stored elements, changes
    nothing. *)
Lemma set_insert_stored x s : is_set comp s -> In x s -> set_insert comp x s = s.
Proof.
  induction s as [|y s IH]; intros Hs Hx; [contradiction|].
  apply is_set_inv in Hs. destruct Hs as [Hs Hall]. cbn [set_insert].
  destruct Hx as [->|Hx].
  - now rewrite comp_irrefl.
  - rewrite (Hall _ Hx). now rewrite (IH Hs Hx).
Qed.

Lemma set_insert_range_stored els s :
  is_set comp s -> incl els s -> set_insert_range comp els s = s.
Proof.
  unfold set_insert_range. intros Hs.
  induction els as [|e els IH]; intros Hincl; cbn [fold_left]; [reflexivity|].
  rewrite (set_insert_stored e s Hs) by (apply Hincl; now left).
  apply IH. intros x Hx. apply Hincl. now right.
Qed.

Lemma fold_toggle_self s : fold_left (toggle comp) s s = [].
Proof.
  induction s as [|x s IH]; cbn [fold_left]; [reflexivity|].
  unfold toggle at 2. cbn [set_find]. rewrite comp_irrefl. cbn [set_erase_at].
  exact IH.
Qed.

(** Strictly ascending means pairwise inequivalent. *)
Lemma is_set_unique s : is_set comp s -> unique_elements comp s.
Proof.
  induction s as [|y s IH]; intros Hs i j a b Hi Hj Hij.
  - destruct i; discriminate.
  - apply is_set_inv in Hs. destruct Hs as [Hs Hall].
    destruct i as [|i], j as [|j]; cbn [nth_error] in Hi, Hj.
    + congruence.
    + injection Hi as <-. apply lt_not_equiv, Hall. eapply nth_error_In; eauto.
    + injection Hj as <-. apply gt_not_equiv, Hall. eapply nth_error_In; eauto.
    + apply (IH Hs i j); auto.
Qed.
End StdSetAlgebra.

(** ** The two comparators are strict weak orderings *)

Section Lexicographic.
Variable key : ascii -> Z.

Local Abbreviation pred := (fun a b : ascii => (key a <? key b)%Z).

Lemma lexicographical_compare_irrefl a :
  lexicographical_compare pred a a = false.
Proof.
  induction a as [|x a IH]; cbn; [reflexivity|].
  rewrite Z.ltb_irrefl. exact IH.
Qed.

Lemma lexicographical_compare_trans a :
  forall b c,
    lexicographical_compare pred a b = true ->
    lexicographical_compare pred b c = true ->
    lexicographical_compare pred a c = true.
Proof.
  induction a as [|x a IH]; intros [|y b] [|z c]; cbn; try congruence.
  destruct (Z.ltb_spec (key x) (key y)), (Z.ltb_spec (key y) (key x)),
    (Z.ltb_spec (key y) (key z)), (Z.ltb_spec (key z) (key y)),
    (Z.ltb_spec (key x) (key z)), (Z.ltb_spec (key z) (key x));
    try congruence; try lia.
  apply IH.
Qed.

Lemma lexicographical_compare_negtrans a :
  forall b c,
    lexicographical_compare pred a c = true ->
    lexicographical_compare pred a b = true
    \/ lexicographical_compare pred b c = true.
Proof.
  induction a as [|x a IH]; intros [|y b] [|z c]; cbn; try congruence; auto.
  destruct (Z.ltb_spec (key x) (key y)), (Z.ltb_spec (key y) (key x)),
    (Z.ltb_spec (key y) (key z)), (Z.ltb_spec (key z) (key y)),
    (Z.ltb_spec (key x) (key z)), (Z.ltb_spec (key z) (key x));
    try congruence; try lia; auto.
Qed.

Lemma lexicographical_compare_swo :
  StrictWeakOrder (lexicographical_compare pred).
Proof.
  constructor.
  - apply lexicographical_compare_irrefl.
  - intros a b c. apply lexicographical_compare_trans.
  - intros a b c. apply lexicographical_compare_negtrans.
Qed.
End Lexicographic.

#[export] Instance element_comp_of_swo sg ignore_case :
  StrictWeakOrder (element_comp_of sg ignore_case).
Proof.
  destruct ignore_case; cbn [element_comp_of].
  - exact (lexicographical_compare_swo (fun c => char_value sg (toupper c))).
  - exact (lexicographical_compare_swo (char_value sg)).
Qed.

(** ** The tokenizer keeps its result a set *)

Section TokenizerInvariant.
Context {pattern : Type} {engine : RegexEngine pattern}.
Variable input_opts : InputOptions pattern.
Context {SWO : StrictWeakOrder (element_comp input_opts)}.

Local Abbreviation comp := (element_comp input_opts).

Lemma adjust_and_insert_element_is_set r el check :
  is_set comp r -> is_set comp (adjust_and_insert_element input_opts r el check).
Proof.
  intros Hr. unfold adjust_and_insert_element.
  destruct (_ || _ || _); [|exact Hr].
  destruct (_ || _); [|exact Hr].
  now apply set_insert_is_set.
Qed.

Lemma match_loop_is_set sep re failed region ms handled r :
  is_set comp r ->
  is_set comp (fst (fst (match_loop input_opts sep re failed region ms handled r))).
Proof.
  revert handled r. induction ms as [|m ms IH]; intros handled r Hr;
    cbn [match_loop]; [exact Hr|].
  destruct (match_is_final re failed region m); [|exact Hr].
  destruct sep; apply IH; now apply adjust_and_insert_element_is_set.
Qed.

Lemma round_scan_is_set sep re failed buffer1 buffer_end r :
  is_set comp r ->
  is_set comp (fst (round_scan input_opts sep re failed buffer1 buffer_end r)).
Proof.
  intros Hr. unfold round_scan.
  pose proof (match_loop_is_set sep re failed (firstn buffer_end buffer1)
                (cregex_iterator re (firstn buffer_end buffer1)) 0 r Hr) as H.
  destruct (match_loop _ _ _ _ _ _ _ _) as [[r1 h] cm]. exact H.
Qed.

Lemma tokenizer_round_result sep re t :
  result (tokenizer_round input_opts sep re t)
  = fst (round_scan input_opts sep re
           (negb (is_good (snd (round_read t))))
           (fst (fst (round_read t))) (snd (fst (round_read t))) (result t)).
Proof.
  unfold tokenizer_round.
  destruct (round_read t) as [[buffer1 buffer_end] stream]. cbn [fst snd].
  destruct (round_scan _ _ _ _ _ _ _) as [r1 h].
  destruct (round_keep _ _ _ _) as [[size used] buffer2]. reflexivity.
Qed.

Lemma tokenizer_round_is_set sep re t :
  is_set comp (result t) ->
  is_set comp (result (tokenizer_round input_opts sep re t)).
Proof.
  intros Hr. rewrite tokenizer_round_result. now apply round_scan_is_set.
Qed.

Lemma tokenizer_loop_is_set sep re fuel t t' :
  is_set comp (result t) ->
  tokenizer_loop input_opts sep re fuel t = Some t' ->
  is_set comp (result t').
Proof.
  revert t. induction fuel as [|fuel IH]; intros t Hr; cbn [tokenizer_loop];
    [discriminate|].
  pose proof (tokenizer_round_is_set sep re t Hr) as Hr'.
  destruct (is_good (inputstream (tokenizer_round input_opts sep re t))).
  - now apply IH.
  - now intros [= <-].
Qed.

Lemma tokenizer_finish_is_set sep t :
  is_set comp (result t) -> is_set comp (tokenizer_finish input_opts sep t).
Proof.
  intros Hr. unfold tokenizer_finish.
  destruct (sep && _); [|exact Hr].
  now apply adjust_and_insert_element_is_set.
Qed.

Lemma tokenize_is_set sep re n stream s stream' :
  tokenize input_opts sep re n stream = Some (s, stream') -> is_set comp s.
Proof.
  unfold tokenize.
  destruct (tokenizer_loop _ _ _ _ _) as [t|] eqn:Hloop; [|discriminate].
  intros [= <- _]. apply tokenizer_finish_is_set.
  eapply tokenizer_loop_is_set; [|exact Hloop]. apply is_set_nil.
Qed.

Lemma file_to_set_with_is_set n filename w s w' :
  file_to_set_with input_opts n filename w = Some (inr s, w') -> is_set comp s.
Proof.
  unfold file_to_set_with.
  destruct (if if list_eq_dec ascii_dec filename (str "-") then true else false
            then Some (std_cin w) else _) as [stream|]; [|discriminate].
  destruct (if regex_empty (input_element_regex input_opts)
            then input_separator_regex input_opts
            else input_element_regex input_opts) as [re|]; [|discriminate].
  destruct (tokenize _ _ _ _ _) as [[s0 stream']|] eqn:Ht; [|discriminate].
  intros [= <- _]. eapply tokenize_is_set; eauto.
Qed.

Lemma step1_is_set cl fns : forall is_first acc w s w',
  is_set comp acc ->
  step1 input_opts cl is_first fns acc w = Some (inr s, w') ->
  is_set comp s.
Proof.
  induction fns as [|fn fns IH]; intros is_first acc w s w' Hacc; cbn [step1].
  - unfold ret. now intros [= <- _].
  - unfold bind, load, file_to_set.
    destruct (file_to_set_with input_opts INITIAL_BUFFERSIZE fn w)
      as [[[e|curr] w1]|] eqn:Hf; try discriminate.
    apply IH. pose proof (file_to_set_with_is_set _ _ _ _ _ Hf) as Hcurr.
    destruct is_first; [exact Hcurr|]. now apply concat_step_is_set.
Qed.

Lemma step2_is_set fns : forall acc w s w',
  is_set comp acc ->
  step2 input_opts fns acc w = Some (inr s, w') ->
  is_set comp s.
Proof.
  induction fns as [|fn fns IH]; intros acc w s w' Hacc; cbn [step2].
  - unfold ret. now intros [= <- _].
  - unfold bind, load, file_to_set.
    destruct (file_to_set_with input_opts INITIAL_BUFFERSIZE fn w)
      as [[[e|curr] w1]|] eqn:Hf; try discriminate.
    apply IH. now apply difference_step_is_set.
Qed.
End TokenizerInvariant.

(** ** The monad *)

Lemma bind_inr {A B : Type} (c : M A) (k : A -> M B) w a w1 :
  c w = Some (inr a, w1) -> bind c k w = k a w1.
Proof. unfold bind. now intros ->. Qed.

Lemma bind_inv {A B : Type} (c : M A) (k : A -> M B) w b w2 :
  bind c k w = Some (inr b, w2) ->
  exists a w1, c w = Some (inr a, w1) /\ k a w1 = Some (inr b, w2).
Proof.
  unfold bind. destruct (c w) as [[[e|a] w1]|]; try discriminate.
  intros H. now exists a, w1.
Qed.

(** ** Steps 1 and 2 against sets that are already built *)

Section StepsOnSets.
Context {pattern : Type} {engine : RegexEngine pattern}.
Variable input_opts : InputOptions pattern.
Context {SWO : StrictWeakOrder (element_comp input_opts)}.

Local Abbreviation comp := (element_comp input_opts).

Lemma load_all_is_set fns : forall w sets w1,
  load_all input_opts fns w = Some (inr sets, w1) -> Forall (is_set comp) sets.
Proof.
  induction fns as [|fn fns IH]; intros w sets w1; cbn [load_all].
  - unfold ret. intros [= <- _]. constructor.
  - intros H. apply bind_inv in H. destruct H as (s & w' & Hs & H).
    apply bind_inv in H. destruct H as (others & w'' & Ho & H).
    unfold ret in H. injection H as <- _.
    constructor; [|eapply IH; eauto].
    unfold load, file_to_set in Hs. eapply file_to_set_with_is_set; eauto.
Qed.

Lemma step1_on_sets cl fns : forall w sets w1 acc,
  load_all input_opts fns w = Some (inr sets, w1) ->
  step1 input_opts cl false fns acc w
  = Some (inr (fold_left (concat_step comp (set_concat_type cl)) sets acc), w1).
Proof.
  induction fns as [|fn fns IH]; intros w sets w1 acc; cbn [load_all step1].
  - unfold ret. now intros [= <- <-].
  - intros H. apply bind_inv in H. destruct H as (s & w' & Hs & H).
    apply bind_inv in H. destruct H as (others & w'' & Ho & H).
    unfold ret in H. injection H as <- <-.
    rewrite (bind_inr _ _ _ _ _ Hs). cbn [fold_left]. now apply IH.
Qed.

Lemma step1_first_on_sets cl fns w sets w1 :
  load_all input_opts fns w = Some (inr sets, w1) ->
  step1 input_opts cl true fns [] w
  = Some (inr (concat_sets comp (set_concat_type cl) sets), w1).
Proof.
  destruct fns as [|fn fns]; cbn [load_all step1].
  - unfold ret. now intros [= <- <-].
  - intros H. apply bind_inv in H. destruct H as (s & w' & Hs & H).
    apply bind_inv in H. destruct H as (others & w'' & Ho & H).
    unfold ret in H. injection H as <- <-.
    rewrite (bind_inr _ _ _ _ _ Hs). cbn [concat_sets].
    now apply step1_on_sets.
Qed.

Lemma step2_on_sets fns : forall w diffs w1 acc,
  load_all input_opts fns w = Some (inr diffs, w1) ->
  step2 input_opts fns acc w = Some (inr (subtract_sets comp acc diffs), w1).
Proof.
  induction fns as [|fn fns IH]; intros w diffs w1 acc; cbn [load_all step2].
  - unfold ret. now intros [= <- <-].
  - intros H. apply bind_inv in H. destruct H as (s & w' & Hs & H).
    apply bind_inv in H. destruct H as (others & w'' & Ho & H).
    unfold ret in H. injection H as <- <-.
    rewrite (bind_inr _ _ _ _ _ Hs). unfold subtract_sets. cbn [fold_left].
    now apply IH.
Qed.

Lemma output_set_of_is_set cl w s w' :
  output_set_of input_opts cl w = Some (inr s, w') -> is_set comp s.
Proof.
  unfold output_set_of. intros H.
  apply bind_inv in H. destruct H as (s1 & w1 & H1 & H2).
  assert (Hs1 : is_set comp s1).
  { exact (step1_is_set input_opts cl _ true [] w s1 w1 (is_set_nil _) H1). }
  exact (step2_is_set input_opts _ s1 w1 s w' Hs1 H2).
Qed.

Lemma produced_is_set s : produced input_opts s -> is_set comp s.
Proof.
  induction 1 as [fn w s w' H | op out curr _ IHout _ IHcurr
                 | out diff _ IHout _ IHdiff | cl w s w' H].
  - unfold file_to_set in H. eapply file_to_set_with_is_set; eauto.
  - now apply concat_step_is_set.
  - now apply difference_step_is_set.
  - eapply output_set_of_is_set; eauto.
Qed.
End StepsOnSets.

(** ** The sets of a run *)

(** C4.  Whatever the input and whichever of the two comparators the run
    uses, every set produced in the run (by [file_to_set], by a step of
    the set algebra, or as the set handed to the query) is strictly
    ascending under the comparator: its iteration order is the sort order
    and no two of its elements are equivalent. *)
Theorem produced_sets_sorted_and_unique
    {pattern : Type} {engine : RegexEngine pattern}
    (input_opts : InputOptions pattern) (sg ignore_case : bool) (s : set_t) :
  element_comp input_opts = element_comp_of sg ignore_case ->
  produced input_opts s ->
  is_set (element_comp input_opts) s
  /\ unique_elements (element_comp input_opts) s.
Proof.
  intros Hcomp Hs.
  assert (SWO : StrictWeakOrder (element_comp input_opts))
    by (rewrite Hcomp; apply element_comp_of_swo).
  pose proof (produced_is_set input_opts s Hs) as H.
  split; [exact H | now apply is_set_unique].
Qed.

Lemma produced_sets_sorted_and_unique_witness :
  let opts := options_of true true false None None [] in
  element_comp opts = element_comp_of true true
  /\ produced opts [str "bar"; str "Foo"]
  /\ is_set (element_comp opts) [str "bar"; str "Foo"]
  /\ unique_elements (element_comp opts) [str "bar"; str "Foo"].
Proof.
  cbv zeta.
  assert (Hp : produced (options_of true true false None None [])
                 [str "bar"; str "Foo"]).
  { apply (@produced_by_file_to_set _ _ _ (str "F") example_world _ example_world).
    vm_compute. reflexivity. }
  split; [reflexivity|]. split; [exact Hp|].
  exact (produced_sets_sorted_and_unique
           (options_of true true false None None []) true true _ eq_refl Hp).
Defined.

(** ** Set algebra *)

Section AlgebraProperties.
Context (comp : el_comp_t) {SWO : StrictWeakOrder comp}.

Lemma count_containing_cons z c sets :
  count_containing comp z (c :: sets)
  = (if set_contains comp z c then 1 else 0) + count_containing comp z sets.
Proof.
  unfold count_containing. cbn [filter].
  destruct (set_contains comp z c); reflexivity.
Qed.

Lemma mem_fold_sym_difference z others : forall acc,
  is_set comp acc -> Forall (is_set comp) others ->
  mem comp z (fold_left (concat_step comp SYM_DIFFERENCE) others acc)
  = xorb (mem comp z acc) (Nat.odd (count_containing comp z others)).
Proof.
  induction others as [|c others IH]; intros acc Hacc Hall; cbn [fold_left].
  - cbn. now rewrite xorb_false_r.
  - inversion Hall as [|? ? Hc Hothers]; subst.
    rewrite (IH _ (concat_step_is_set comp SYM_DIFFERENCE acc c Hacc) Hothers).
    rewrite (mem_concat_step comp z SYM_DIFFERENCE acc c Hacc Hc).
    rewrite count_containing_cons, (set_contains_mem comp z c Hc).
    destruct (mem comp z c); cbn [Nat.add].
    + rewrite Nat.odd_succ, <- Nat.negb_odd.
      destruct (mem comp z acc), (Nat.odd _); reflexivity.
    + destruct (mem comp z acc), (Nat.odd _); reflexivity.
Qed.

Lemma sym_difference_parity (sets : list set_t) (z : element_t) :
  Forall (is_set comp) sets ->
  set_contains comp z (concat_sets comp SYM_DIFFERENCE sets)
  = Nat.odd (count_containing comp z sets).
Proof.
  intros Hall.
  rewrite (set_contains_mem comp z _ (concat_sets_is_set comp _ sets Hall)).
  destruct sets as [|s0 others]; [reflexivity|].
  inversion Hall as [|? ? Hs0 Hothers]; subst. cbn [concat_sets].
  rewrite (mem_fold_sym_difference z others s0 Hs0 Hothers).
  rewrite count_containing_cons, (set_contains_mem comp z s0 Hs0).
  destruct (mem comp z s0); cbn [Nat.add xorb].
  - now rewrite Nat.odd_succ, <- Nat.negb_odd.
  - reflexivity.
Qed.


(** C9.  For a set [S] built under the comparator, [S] united with itself
    is [S], and the symmetric difference of [S] with itself is empty. *)
Theorem union_and_sym_difference_with_itself (S : set_t) :
  is_set comp S ->
  concat_sets comp UNION [S; S] = S
  /\ concat_sets comp SYM_DIFFERENCE [S; S] = [].
Proof.
  intros HS. cbn [concat_sets fold_left concat_step]. split.
  - exact (set_insert_range_stored comp S S HS (incl_refl S)).
  - exact (fold_toggle_self comp S).
Qed.
End AlgebraProperties.


Lemma union_and_sym_difference_with_itself_witness :
  let comp := element_comp_of true true in
  let S := [str "bar"; str "Foo"] in
  is_set comp S
  /\ concat_sets comp UNION [S; S] = S
  /\ concat_sets comp SYM_DIFFERENCE [S; S] = [].
Proof.
  cbv zeta.
  assert (H : is_set (element_comp_of true true) [str "bar"; str "Foo"]).
  { repeat constructor. }
  split; [exact H|].
  exact (union_and_sym_difference_with_itself (element_comp_of true true) _ H).
Defined.

(** ** The subtraction pass *)

Section SubtractionPass.
Context {pattern : Type} {engine : RegexEngine pattern}.
Variable input_opts : InputOptions pattern.
Context {SWO : StrictWeakOrder (element_comp input_opts)}.

Local Abbreviation comp := (element_comp input_opts).

Lemma existsb_contains_mem z sets :
  Forall (is_set comp) sets ->
  existsb (set_contains comp z) sets = existsb (mem comp z) sets.
Proof.
  induction 1 as [|s sets Hs _ IH]; cbn [existsb]; [reflexivity|].
  now rewrite IH, (set_contains_mem comp z s Hs).
Qed.

(** C7.  Whatever the primary operation and whatever the list of
    subtrahend sources, [execute_setop] first runs the primary operation
    over the inputs (step 1), then runs the subtraction pass on the result
    of step 1, in the world step 1 has left (step 2), and hands the set
    step 2 returns to the query (step 3).  That set is the result of the
    primary operation from which the subtrahend sets have been taken away
    one after the other, from left to right: it holds exactly the elements
    of the primary result that no subtrahend set holds, and it is the
    primary result itself when there is no subtrahend source. *)
Theorem subtraction_pass_follows_primary_operation
    (cl : CommandLine) (w w1 w2 : world) (sets diffs : list set_t) :
  load_all input_opts (input_filenames_or_cin cl) w = Some (inr sets, w1) ->
  load_all input_opts (setdifference_filenames cl) w1 = Some (inr diffs, w2) ->
  let primary := concat_sets comp (set_concat_type cl) sets in
  let final := fold_left (difference_step comp) diffs primary in
  output_set_of input_opts cl w = Some (inr final, w2)
  /\ (forall z, set_contains comp z final
                = set_contains comp z primary
                  && negb (existsb (set_contains comp z) diffs))
  /\ (setdifference_filenames cl = [] -> final = primary)
  /\ step1 input_opts cl true (input_filenames_or_cin cl) [] w
     = Some (inr primary, w1)
  /\ step2 input_opts (setdifference_filenames cl) primary w1
     = Some (inr final, w2)
  /\ execute_setop input_opts cl w = step3 input_opts cl final w2.
Proof.
  intros Hsets Hdiffs primary final.
  pose proof (load_all_is_set input_opts _ _ _ _ Hsets) as Hall.
  pose proof (load_all_is_set input_opts _ _ _ _ Hdiffs) as Hdall.
  assert (Hprim : is_set comp primary) by now apply concat_sets_is_set.
  pose proof (step1_first_on_sets input_opts cl _ _ _ _ Hsets) as Hstep1.
  pose proof (step2_on_sets input_opts _ _ _ _ primary Hdiffs) as Hstep2.
  split; [|split; [|split; [|split; [|split]]]].
  - unfold output_set_of.
    rewrite (bind_inr _ _ _ _ _ Hstep1). exact Hstep2.
  - intros z. fold (subtract_sets comp primary diffs) in final.
    rewrite (set_contains_mem comp z final
               (subtract_sets_is_set comp primary diffs Hprim)).
    rewrite (set_contains_mem comp z primary Hprim).
    rewrite (existsb_contains_mem z diffs Hdall).
    now apply mem_subtract_sets.
  - intros Hnil. rewrite Hnil in Hdiffs. cbn in Hdiffs.
    unfold ret in Hdiffs. injection Hdiffs as <- _. reflexivity.
  - exact Hstep1.
  - exact Hstep2.
  - unfold execute_setop.
    rewrite (bind_inr _ _ _ _ _ Hstep1), (bind_inr _ _ _ _ _ Hstep2).
    reflexivity.
Qed.
End SubtractionPass.

(** The union of [A = {a, b}] and [B = {b, c}] from which [B] is taken
    away: the primary result is [{a, b, c}], the subtraction leaves [{a}]
    (taking [B] away first and uniting afterwards would leave
    [{a, b, c}]), and the program writes [a]. *)
Lemma subtraction_pass_follows_primary_operation_witness :
  let opts := default_options in
  let cl := example_command_line UNION RETURN_SET
              ["A"; "B"]%string ["B"]%string ""%string in
  let sets := [[str "a"; str "b"]; [str "b"; str "c"]] in
  let diffs := [[str "b"; str "c"]] in
  let primary := concat_sets (element_comp opts) (set_concat_type cl) sets in
  let final := fold_left (difference_step (element_comp opts)) diffs primary in
  (load_all opts (input_filenames_or_cin cl) example_world
   = Some (inr sets, example_world)
   /\ load_all opts (setdifference_filenames cl) example_world
      = Some (inr diffs, example_world))
  /\ (primary = [str "a"; str "b"; str "c"] /\ final = [str "a"])
  /\ (output_set_of opts cl example_world = Some (inr final, example_world)
      /\ (forall z, set_contains (element_comp opts) z final
                    = set_contains (element_comp opts) z primary
                      && negb (existsb (set_contains (element_comp opts) z) diffs))
      /\ (setdifference_filenames cl = [] -> final = primary)
      /\ step1 opts cl true (input_filenames_or_cin cl) [] example_world
         = Some (inr primary, example_world)
      /\ step2 opts (setdifference_filenames cl) primary example_world
         = Some (inr final, example_world)
      /\ execute_setop opts cl example_world
         = step3 opts cl final example_world)
  /\ execute_setop opts cl example_world
     = Some (inr EXIT_SUCCESS,
             mk_world example_files (mk_istream [] true)
               (str "a" ++ [newline]) []).
Proof.
  cbv zeta.
  assert (H1 : load_all default_options
                 (input_filenames_or_cin
                    (example_command_line UNION RETURN_SET
                       ["A"; "B"]%string ["B"]%string ""%string))
                 example_world
               = Some (inr [[str "a"; str "b"]; [str "b"; str "c"]],
                       example_world))
    by (vm_compute; reflexivity).
  assert (H2 : load_all default_options
                 (setdifference_filenames
                    (example_command_line UNION RETURN_SET
                       ["A"; "B"]%string ["B"]%string ""%string))
                 example_world
               = Some (inr [[str "b"; str "c"]], example_world))
    by (vm_compute; reflexivity).
  pose proof (subtraction_pass_follows_primary_operation default_options
                _ _ _ _ _ _ H1 H2) as H.
  cbv zeta in H.
  split; [split; [exact H1 | exact H2]|].
  split; [split; vm_compute; reflexivity|].
  split; [exact H|].
  destruct H as (_ & _ & _ & _ & _ & Hexec). rewrite Hexec.
  vm_compute. reflexivity.
Defined.

(** ** Queries *)

Section QueryProperties.
Context {pattern : Type} {engine : RegexEngine pattern}.
Variable input_opts : InputOptions pattern.

Local Abbreviation comp := (element_comp input_opts).

Lemma answer_query_code cl success msg1 msg2 w :
  exists w', answer_query cl success msg1 msg2 w
             = Some (inr (exit_code_of (Some success)), w').
Proof.
  unfold answer_query, bind, ret, cout.
  destruct success; [destruct (verbose cl) | destruct (quiet cl)];
    eexists; reflexivity.
Qed.

(** C8.  A query whose truth value can be computed ends in one of three
    outcomes: the two queries that print the set or its size return
    [EXIT_SUCCESS]; a boolean query that holds returns [EXIT_SUCCESS]; a
    boolean query that does not hold returns [EXIT_QUERY_NEGATIVE], which
    differs from both [EXIT_SUCCESS] and [EXIT_FAILURE] (the preprocessor
    guard of the source does not fire), as these two differ from each
    other. *)
Theorem query_outcomes_and_exit_codes
    (cl : CommandLine) (output_set : set_t) (w w1 : world)
    (truth : option bool) :
  query_truth input_opts cl output_set w = Some (inr truth, w1) ->
  (exists w2, step3 input_opts cl output_set w
              = Some (inr (exit_code_of truth), w2))
  /\ (truth = None <->
      set_query_type cl = RETURN_SET \/ set_query_type cl = CARDINALITY)
  /\ exit_code_of None = EXIT_SUCCESS
  /\ exit_code_of (Some true) = EXIT_SUCCESS
  /\ exit_code_of (Some false) = EXIT_QUERY_NEGATIVE
  /\ EXIT_QUERY_NEGATIVE <> EXIT_SUCCESS
  /\ EXIT_QUERY_NEGATIVE <> EXIT_FAILURE
  /\ EXIT_SUCCESS <> EXIT_FAILURE
  /\ exit_code_guard_fails = false.
Proof.
  intros Ht.
  split; [|split; [|repeat split; discriminate]].
  - unfold query_truth in Ht. unfold step3.
    destruct (set_query_type cl).
    + unfold ret in Ht. injection Ht as <- _.
      unfold bind, cout, ret. eexists. reflexivity.
    + unfold ret in Ht. injection Ht as <- _.
      unfold bind, cout, ret. eexists. reflexivity.
    + unfold ret in Ht. injection Ht as <- _. apply answer_query_code.
    + apply bind_inv in Ht. destruct Ht as (c & w' & Hl & Hr).
      unfold ret in Hr. injection Hr as <- _.
      rewrite (bind_inr _ _ _ _ _ Hl). apply answer_query_code.
    + apply bind_inv in Ht. destruct Ht as (c & w' & Hl & Hr).
      unfold ret in Hr. injection Hr as <- _.
      rewrite (bind_inr _ _ _ _ _ Hl). apply answer_query_code.
    + unfold ret in Ht. injection Ht as <- _. apply answer_query_code.
    + apply bind_inv in Ht. destruct Ht as (c & w' & Hl & Hr).
      unfold ret in Hr. injection Hr as <- _.
      rewrite (bind_inr _ _ _ _ _ Hl). apply answer_query_code.
  - unfold query_truth in Ht.
    destruct (set_query_type cl); unfold ret in Ht;
      try (injection Ht as <- _);
      try (apply bind_inv in Ht; destruct Ht as (c & w' & _ & Hr);
           unfold ret in Hr; injection Hr as <- _);
      split; intros H; try discriminate; auto;
      destruct H; discriminate.
Qed.

Context {SWO : StrictWeakOrder comp}.

Lemma forallb_found_iff (xs s : set_t) :
  is_set comp s ->
  forallb (fun x => match set_find comp x s with Some _ => true | None => false end) xs
  = true
  <-> (forall x, In x xs -> set_In comp x s).
Proof.
  intros Hs. rewrite forallb_forall. split; intros H x Hx.
  - apply (set_contains_iff comp x s Hs). exact (H x Hx).
  - apply (set_contains_iff comp x s Hs). exact (H x Hx).
Qed.

(** C5.  With [R] the result set and [C] the set loaded from the named
    comparison source: the SUBSET query succeeds exactly when every
    element of [C] is found in [R], and the SUPERSET query succeeds exactly
    when every element of [R] is found in [C].  For [R = {x, y}] and
    [C = {x}] the subset test holds; for [R = {x}] and [C = {x, y}] it
    fails while the superset test holds. *)
Theorem subset_and_superset_queries
    (cl : CommandLine) (R C : set_t) (w w1 : world) (filename : list ascii) :
  is_set comp R ->
  set_query_type cl = SUBSET \/ set_query_type cl = SUPERSET ->
  comparison_filename cl = Some filename ->
  load input_opts filename w = Some (inr C, w1) ->
  (exists code w2,
      step3 input_opts cl R w = Some (inr code, w2)
      /\ (code = EXIT_SUCCESS \/ code = EXIT_QUERY_NEGATIVE)
      /\ (code = EXIT_SUCCESS <->
          match set_query_type cl with
          | SUBSET => forall x, In x C -> set_In comp x R
          | _ => forall x, In x R -> set_In comp x C
          end))
  /\ subset_test default_options [str "x"; str "y"] [str "x"] = true
  /\ subset_test default_options [str "x"] [str "x"; str "y"] = false
  /\ superset_test default_options [str "x"] [str "x"; str "y"] = true.
Proof.
  intros HR Hq Hfn Hload.
  assert (HC : is_set comp C).
  { unfold load, file_to_set in Hload.
    eapply file_to_set_with_is_set; eauto. }
  split; [|repeat split; reflexivity].
  unfold comparison_filename in Hfn. unfold step3.
  destruct Hq as [Hq|Hq]; rewrite Hq in *; injection Hfn as <-;
    rewrite (bind_inr _ _ _ _ _ Hload).
  - destruct (answer_query_code cl (subset_test input_opts R C)
                ([dquote] ++ subset_filename cl ++ [dquote]
                   ++ str " is a subset." ++ [newline])
                ([dquote] ++ subset_filename cl ++ [dquote]
                   ++ str " is not a subset." ++ [newline]) w1) as [w2 Hw2].
    eexists _, w2. split; [exact Hw2|].
    pose proof (forallb_found_iff C R HR) as Hiff.
    fold (subset_test input_opts R C) in Hiff. rewrite <- Hiff.
    destruct (subset_test input_opts R C); cbn [exit_code_of].
    + split; [now left | tauto].
    + split; [now right|]. split; discriminate.
  - destruct (answer_query_code cl (superset_test input_opts R C)
                ([dquote] ++ superset_filename cl ++ [dquote]
                   ++ str " is a superset." ++ [newline])
                ([dquote] ++ superset_filename cl ++ [dquote]
                   ++ str " is not a superset." ++ [newline]) w1) as [w2 Hw2].
    eexists _, w2. split; [exact Hw2|].
    pose proof (forallb_found_iff R C HC) as Hiff.
    fold (superset_test input_opts R C) in Hiff. rewrite <- Hiff.
    destruct (superset_test input_opts R C); cbn [exit_code_of].
    + split; [now left | tauto].
    + split; [now right|]. split; discriminate.
Qed.
End QueryProperties.

Lemma query_outcomes_and_exit_codes_witness :
  let cl := example_command_line UNION SUBSET ["X"]%string []%string "XY"%string in
  query_truth default_options cl [str "x"] example_world
  = Some (inr (Some false), example_world)
  /\ exists w2, step3 default_options cl [str "x"] example_world
                = Some (inr EXIT_QUERY_NEGATIVE, w2).
Proof.
  cbv zeta.
  assert (H : query_truth default_options
                (example_command_line UNION SUBSET ["X"]%string []%string "XY"%string)
                [str "x"] example_world
              = Some (inr (Some false), example_world))
    by (vm_compute; reflexivity).
  split; [exact H|].
  exact (proj1 (query_outcomes_and_exit_codes default_options _ _ _ _ _ H)).
Defined.

Lemma subset_and_superset_queries_witness :
  let cl := example_command_line UNION SUBSET ["XY"]%string []%string "X"%string in
  is_set (element_comp default_options) [str "x"; str "y"]
  /\ comparison_filename cl = Some (str "X")
  /\ load default_options (str "X") example_world
     = Some (inr [str "x"], example_world)
  /\ exists code w2,
       step3 default_options cl [str "x"; str "y"] example_world
       = Some (inr code, w2)
       /\ (code = EXIT_SUCCESS \/ code = EXIT_QUERY_NEGATIVE)
       /\ (code = EXIT_SUCCESS <->
           forall x, In x [str "x"] ->
                     set_In (element_comp default_options) x [str "x"; str "y"]).
Proof.
  cbv zeta.
  assert (HR : is_set (element_comp default_options) [str "x"; str "y"])
    by (repeat constructor).
  assert (HL : load default_options (str "X") example_world
               = Some (inr [str "x"], example_world))
    by (vm_compute; reflexivity).
  split; [exact HR|]. split; [reflexivity|]. split; [exact HL|].
  exact (proj1 (subset_and_superset_queries default_options
                  (example_command_line UNION SUBSET ["XY"]%string []%string
                     "X"%string)
                  _ _ _ _ (str "X") HR (or_introl eq_refl) eq_refl HL)).
Defined.

(** ** One round of the tokenizer *)

Section Arrays.

Lemma array_write_length dst off src :
  off + List.length src <= List.length dst ->
  List.length (array_write dst off src) = List.length dst.
Proof.
  intros H. unfold array_write.
  rewrite !length_app, length_firstn, length_skipn. lia.
Qed.

Lemma array_write_firstn dst off src :
  off <= List.length dst ->
  firstn (off + List.length src) (array_write dst off src) = firstn off dst ++ src.
Proof.
  intros H. unfold array_write.
  rewrite app_assoc, firstn_app.
  rewrite length_app, length_firstn, Nat.min_l by exact H.
  rewrite Nat.sub_diag, firstn_O, app_nil_r.
  apply firstn_all2. rewrite length_app, length_firstn. lia.
Qed.

Lemma memmove_length dst src from n :
  n <= List.length dst ->
  List.length (memmove dst src from n) = List.length dst.
Proof.
  intros H. unfold memmove. apply array_write_length.
  rewrite length_firstn. lia.
Qed.

Lemma memmove_firstn dst src from n :
  from + n <= List.length src ->
  firstn n (memmove dst src from n) = firstn n (skipn from src).
Proof.
  intros H. unfold memmove.
  assert (Hl : List.length (firstn n (skipn from src)) = n)
    by (rewrite length_firstn, length_skipn; lia).
  pose proof (array_write_firstn dst 0 (firstn n (skipn from src))
                (Nat.le_0_l _)) as Hw.
  rewrite Hl in Hw. cbn [Nat.add firstn app] in Hw. exact Hw.
Qed.

Lemma skipn_firstn_sub (l : list ascii) h e :
  skipn h (firstn e l) = firstn (e - h) (skipn h l).
Proof.
  revert h e. induction l as [|a l IH]; intros h e.
  - now rewrite firstn_nil, !skipn_nil, firstn_nil.
  - destruct e as [|e]; [now rewrite firstn_O, skipn_nil|].
    destruct h as [|h]; [reflexivity|].
    cbn [firstn skipn Nat.sub]. apply IH.
Qed.

Lemma new_char_array_length n : List.length (new_char_array n) = n.
Proof. apply repeat_length. Qed.
End Arrays.

Section RoundFacts.
Context {pattern : Type} {engine : RegexEngine pattern}.
Variable input_opts : InputOptions pattern.
Variable use_separator_regex : bool.
Variable regex : pattern.

Local Abbreviation round := (tokenizer_round input_opts use_separator_regex regex).

Lemma istream_read_length s n :
  List.length (fst (istream_read s n)) <= n
  /\ (is_good (snd (istream_read s n)) = true ->
      List.length (fst (istream_read s n)) = n).
Proof.
  unfold istream_read. destruct (is_good s) eqn:Hg; cbn [fst snd].
  - rewrite length_firstn. split; [lia|].
    intros H%Nat.leb_le. lia.
  - rewrite Hg. split; [cbn; lia | discriminate].
Qed.

(** Reading fills the array behind the pending characters and leaves its
    length alone. *)
Lemma round_read_spec t :
  tokenizer_ok t ->
  let '(buffer1, buffer_end, stream) := round_read t in
  List.length buffer1 = buffersize t
  /\ buffer_end <= buffersize t
  /\ used_buffer t <= buffer_end
  /\ firstn (used_buffer t) buffer1 = pending t
  /\ (is_good stream = true -> buffer_end = buffersize t).
Proof.
  intros [Hused Hlen]. unfold round_read.
  pose proof (istream_read_length (inputstream t) (buffersize t - used_buffer t))
    as [Hgot Hgood].
  destruct (istream_read _ _) as [got stream]. cbn [fst snd] in Hgot, Hgood.
  split; [|split; [|split; [|split]]].
  - rewrite array_write_length; lia.
  - lia.
  - lia.
  - unfold array_write, pending.
    rewrite firstn_app, length_firstn, Nat.min_l by lia.
    rewrite Nat.sub_diag, firstn_O, app_nil_r, firstn_firstn, Nat.min_id. reflexivity.
  - intros Hg. rewrite (Hgood Hg). lia.
Qed.

Lemma match_loop_handled_le failed region ms : forall handled r n,
  matches_within n ms -> handled <= n ->
  let '(_, handled', rest) :=
    match_loop input_opts use_separator_regex regex failed region ms handled r in
  handled' <= n /\ matches_within n rest.
Proof.
  induction ms as [|m ms IH]; intros handled r n Hms Hh; cbn [match_loop].
  - split; [exact Hh | constructor].
  - inversion Hms as [|? ? [Hf Hs] Hms']; subst.
    destruct (match_is_final regex failed region m).
    + destruct use_separator_regex; now apply IH.
    + split; [exact Hh | exact Hms].
Qed.

Lemma round_scan_handled_le failed buffer1 buffer_end r :
  matches_within buffer_end
    (cregex_iterator regex (firstn buffer_end buffer1)) ->
  snd (round_scan input_opts use_separator_regex regex failed buffer1 buffer_end r)
  <= buffer_end.
Proof.
  intros Hms. unfold round_scan.
  pose proof (match_loop_handled_le failed (firstn buffer_end buffer1) _ 0 r
                buffer_end Hms (Nat.le_0_l _)) as H.
  destruct (match_loop _ _ _ _ _ _ _ _) as [[r1 h] rest]. cbn [snd].
  destruct H as [Hh Hrest]. destruct use_separator_regex; [exact Hh|].
  destruct rest as [|m rest]; [lia|].
  inversion Hrest as [|? ? [Hf _] _]; subst. exact Hf.
Qed.

(** Keeping the pending characters. *)
Lemma round_keep_spec bs buffer1 buffer_end handled :
  0 < bs -> List.length buffer1 = bs -> buffer_end <= bs ->
  handled <= buffer_end ->
  let '(size, used, buffer2) := round_keep bs buffer1 buffer_end handled in
  used = buffer_end - handled
  /\ firstn used buffer2 = skipn handled (firstn buffer_end buffer1)
  /\ List.length buffer2 = size
  /\ size = (if handled =? 0 then 2 * bs else bs)
  /\ used < size.
Proof.
  intros Hbs Hlen He Hh. unfold round_keep.
  destruct (handled =? 0) eqn:H0.
  - apply Nat.eqb_eq in H0. subst handled.
    split; [reflexivity|]. split; [|split; [|split]].
    + rewrite memmove_firstn by lia. now rewrite skipn_firstn_sub.
    + rewrite memmove_length; rewrite new_char_array_length; lia.
    + lia.
    + lia.
  - apply Nat.eqb_neq in H0.
    split; [reflexivity|]. split; [|split; [|split]].
    + rewrite memmove_firstn by lia. now rewrite skipn_firstn_sub.
    + rewrite memmove_length; lia.
    + reflexivity.
    + lia.
Qed.
End RoundFacts.

Section RoundProperties.
Context {pattern : Type} {engine : RegexEngine pattern}.
Variable input_opts : InputOptions pattern.
Variable use_separator_regex : bool.
Variable regex : pattern.

Local Abbreviation round := (tokenizer_round input_opts use_separator_regex regex).
Local Abbreviation region := (round_region).
Local Abbreviation handled :=
  (round_handled input_opts use_separator_regex regex).

Lemma skipn_eq_self_iff (l : list ascii) h :
  h <= List.length l -> (skipn h l = l <-> h = 0).
Proof.
  intros Hh. split.
  - intros H. apply (f_equal (@List.length ascii)) in H.
    rewrite length_skipn in H. lia.
  - intros ->. reflexivity.
Qed.

(** C3.  In a round of the tokenizer (on an array of [buffersize]
    characters that is not full, the matches lying inside the filled
    part): the pending characters are the filled part from
    [buffer_handled_until] on, and they are the first characters of the
    array after the round; the capacity is doubled exactly when they are
    the whole filled part, and unchanged exactly when they are not; when
    a further read follows, the filled part was the whole array. *)
Theorem round_doubles_or_compacts (t : tokenizer) :
  tokenizer_ok t ->
  matches_within (List.length (region t)) (cregex_iterator regex (region t)) ->
  pending (round t) = skipn (handled t) (region t)
  /\ (buffersize (round t) = 2 * buffersize t <-> pending (round t) = region t)
  /\ (buffersize (round t) = buffersize t <-> pending (round t) <> region t)
  /\ (is_good (inputstream (round t)) = true ->
      List.length (region t) = buffersize t)
  /\ tokenizer_ok (round t).
Proof.
  intros Hok Hms.
  pose proof (round_read_spec t Hok) as Hread.
  unfold round_region, round_handled, tokenizer_round in *.
  destruct (round_read t) as [[buffer1 buffer_end] stream].
  destruct Hread as (Hlen & He & Hu & _ & Hgood).
  assert (Hreg : List.length (firstn buffer_end buffer1) = buffer_end)
    by (rewrite length_firstn; lia).
  rewrite Hreg in Hms.
  pose proof (round_scan_handled_le input_opts use_separator_regex regex
                (negb (is_good stream)) buffer1 buffer_end (result t) Hms) as Hh.
  destruct (round_scan _ _ _ _ _ _ _) as [r1 h]. cbn [snd] in Hh |- *.
  assert (Hbs : 0 < buffersize t) by (destruct Hok; lia).
  pose proof (round_keep_spec (buffersize t) buffer1 buffer_end h
                Hbs Hlen He Hh) as Hkeep.
  destruct (round_keep _ _ _ _) as [[size used] buffer2].
  destruct Hkeep as (Hused & Hpend & Hlen2 & Hsize & Hlt).
  unfold pending. cbn [used_buffer buffer buffersize inputstream].
  assert (Hself : skipn h (firstn buffer_end buffer1) = firstn buffer_end buffer1
                  <-> h = 0)
    by (apply skipn_eq_self_iff; lia).
  rewrite Hpend, Hself.
  split; [reflexivity|]. split; [|split; [|split]].
  - rewrite Hsize. destruct (Nat.eqb_spec h 0); split; intros; lia.
  - rewrite Hsize. destruct (Nat.eqb_spec h 0); split; intros; lia.
  - intros Hg. rewrite Hreg. now apply Hgood.
  - split; [exact Hlt | exact Hlen2].
Qed.
End RoundProperties.

Lemma round_doubles_or_compacts_witness :
  let t := example_tokenizer in
  let round := tokenizer_round default_options true re_newline in
  tokenizer_ok t
  /\ matches_within (List.length (round_region t))
       (cregex_iterator re_newline (round_region t))
  /\ pending (round t) = repeat "c"%char (INITIAL_BUFFERSIZE - 3)
  /\ (buffersize (round t) = buffersize t <-> pending (round t) <> round_region t).
Proof.
  cbv zeta.
  assert (Hok : tokenizer_ok example_tokenizer)
    by (split; [apply Nat.ltb_lt; vm_compute; reflexivity
               | vm_compute; reflexivity]).
  assert (Hms : matches_within (List.length (round_region example_tokenizer))
                  (cregex_iterator re_newline (round_region example_tokenizer)))
    by (vm_compute;
        constructor; [split; apply Nat.leb_le; vm_compute; reflexivity
                     | constructor]).
  split; [exact Hok|]. split; [exact Hms|].
  pose proof (round_doubles_or_compacts default_options true re_newline
                example_tokenizer Hok Hms) as (Hp & _ & Hsame & _).
  split; [|exact Hsame].
  rewrite Hp. vm_compute. reflexivity.
Defined.

(** ** The inner loop *)

Section MatchLoopProperties.
Context {pattern : Type} {engine : RegexEngine pattern}.
Variable input_opts : InputOptions pattern.
Variable use_separator_regex : bool.
Variable regex : pattern.

(** C2, as the code has it.  In a round, the inner loop finalizes the
    longest prefix of the matches of the iterator in which every match is
    a full match and, unless the stream is exhausted, the text from the
    START of the match to the end of the buffer is neither a full nor a
    partial match of the pattern; it stops at the first match that fails
    this, or when the matches are exhausted; and the set it leaves is the
    set it found with the elements of the finalized matches inserted. *)
Theorem match_loop_finalizes_final_prefix
    (stream_exhausted : bool) (region : list ascii)
    (curr_match : list sub_match) (buffer_handled_until : nat) (result : set_t) :
  exists done rest result1 handled,
    match_loop input_opts use_separator_regex regex stream_exhausted region
      curr_match buffer_handled_until result
    = (result1, handled, rest)
    /\ curr_match = done ++ rest
    /\ Forall (fun m =>
                 matched m = true
                 /\ (stream_exhausted = true
                     \/ regex_match_partial regex (skipn (first m) region) = false))
              done
    /\ match rest with
       | [] => True
       | m :: _ =>
           ~ (matched m = true
              /\ (stream_exhausted = true
                  \/ regex_match_partial regex (skipn (first m) region) = false))
       end
    /\ result1
       = insert_elements input_opts use_separator_regex
           (finalized_elements use_separator_regex region buffer_handled_until done)
           result.
Proof.
  revert buffer_handled_until result.
  induction curr_match as [|m ms IH]; intros h r; cbn [match_loop].
  - exists [], [], r, h. repeat split; constructor.
  - destruct (match_is_final regex stream_exhausted region m) eqn:Hfin.
    + assert (Hm : matched m = true
                   /\ (stream_exhausted = true
                       \/ regex_match_partial regex (skipn (first m) region) = false)).
      { unfold match_is_final in Hfin.
        apply andb_true_iff in Hfin. destruct Hfin as [Hmat Hor].
        split; [exact Hmat|]. apply orb_true_iff in Hor.
        destruct Hor as [Hor|Hor]; [now left | right].
        now apply negb_true_iff in Hor. }
      destruct use_separator_regex eqn:Hsep.
      * destruct (IH (second m)
                    (adjust_and_insert_element input_opts r
                       (substring region h (first m)) true))
          as (done & rest & r1 & h1 & Heq & Happ & Hall & Hrest & Hr1).
        exists (m :: done), rest, r1, h1. rewrite Heq, Happ.
        repeat split; try assumption. now constructor.
      * destruct (IH h
                    (adjust_and_insert_element input_opts r
                       (substring region (first m) (second m)) false))
          as (done & rest & r1 & h1 & Heq & Happ & Hall & Hrest & Hr1).
        exists (m :: done), rest, r1, h1. rewrite Heq, Happ.
        repeat split; try assumption. now constructor.
    + exists [], (m :: ms), r, h. repeat split; try constructor.
      intros [Hmat Hor]. unfold match_is_final in Hfin.
      rewrite Hmat in Hfin. cbn [andb] in Hfin.
      destruct Hor as [Hor|Hor]; rewrite Hor in Hfin; [discriminate|].
      cbn [negb] in Hfin. rewrite orb_true_r in Hfin. discriminate.
Qed.
End MatchLoopProperties.

(** C2, as the specification words it, fails.  It makes the loop of a
    round stop only at a match that is partial, or whose end touches the
    end of the buffer before the stream is exhausted.  With the separator
    [a|ab] and an input whose first 4096 characters end in [ab], the first
    round finds one match, the full match [a] at offsets 4094 to 4095: its
    end does not touch the end of the buffer, the stream is not
    exhausted, and the loop stops at it. *)
Lemma match_not_touching_the_end_is_not_final :
  ~ (forall (re : perl_pattern) (content : list ascii)
            (r : set_t) (h : nat) (m : sub_match) (rest : list sub_match),
        let t := initial_tokenizer INITIAL_BUFFERSIZE (mk_istream content true) in
        let stream_exhausted :=
          negb (is_good (inputstream (tokenizer_round default_options true re t))) in
        match_loop default_options true re stream_exhausted (round_region t)
          (cregex_iterator re (round_region t)) 0 (result t) = (r, h, m :: rest) ->
        spec_match_is_safe stream_exhausted (round_region t) m = false).
Proof.
  intros H.
  specialize (H re_a_or_ab ab_at_buffer_end [] 0
                (mk_sub_match 4094 4095 true) []).
  vm_compute in H. discriminate (H eq_refl).
Qed.

(** ** The end of the stream *)

Section FinishProperties.
Context {pattern : Type} {engine : RegexEngine pattern}.
Variable input_opts : InputOptions pattern.
Variable regex : pattern.

Local Abbreviation round := (tokenizer_round input_opts true regex).


End FinishProperties.


(** ** Buffer boundaries *)

(** C1 fails on the code.  With the element expression [^a] and the 4097
    characters [b...ba] on the standard input, there is no [a] at the
    start of a line, and tokenizing in one pass gives the empty set.
    [file_to_set], with its buffer of 4096 characters, finds nothing in the
    first round, keeps nothing, and reads the last [a] to the start of the
    buffer, where [^] matches: it returns the set of [a]. *)
Theorem buffer_boundary_acts_as_line_start :
  let opts := options_of true false false (Some re_line_a) None [] in
  option_map fst (file_to_set opts (str "-") (world_with_cin long_line))
  = Some (inr [str "a"])
  /\ option_map fst (tokenize_in_one_pass opts false re_line_a long_line)
     = Some [].
Proof. vm_compute. split; reflexivity. Qed.

(** ** The do-while loop ends *)

Section Termination.
Context {pattern : Type} {engine : RegexEngine pattern}.
Variable input_opts : InputOptions pattern.
Variable use_separator_regex : bool.
Variable regex : pattern.

Local Abbreviation round := (tokenizer_round input_opts use_separator_regex regex).

(** Whatever the engine answers, a round leaves the array as long as
    [buffersize] says and not full. *)
Lemma tokenizer_round_ok t : tokenizer_ok t -> tokenizer_ok (round t).
Proof.
  intros Hok. pose proof (round_read_spec t Hok) as Hread.
  unfold tokenizer_round.
  destruct (round_read t) as [[buffer1 buffer_end] stream].
  destruct Hread as (Hlen & He & _).
  destruct (round_scan _ _ _ _ _ _ _) as [r1 h].
  assert (Hbs : 0 < buffersize t) by (destruct Hok; lia).
  unfold round_keep. destruct (Nat.eqb_spec h 0) as [->|Hh];
    unfold tokenizer_ok; cbn [used_buffer buffersize buffer].
  - split; [lia|].
    rewrite memmove_length; rewrite new_char_array_length; lia.
  - split; [lia|]. rewrite memmove_length; lia.
Qed.

(** A round after which the stream is still good has extracted at least
    one character. *)
Lemma tokenizer_round_progress t :
  tokenizer_ok t ->
  is_good (inputstream (round t)) = true ->
  List.length (is_content (inputstream (round t)))
  < List.length (is_content (inputstream t)).
Proof.
  intros [Hused Hlen]. unfold tokenizer_round, round_read, istream_read.
  destruct (is_good (inputstream t)) eqn:Hg.
  - destruct (round_scan _ _ _ _ _ _ _) as [r1 h].
    destruct (round_keep _ _ _ _) as [[size used] buffer2].
    cbn [inputstream is_good is_content].
    intros H%Nat.leb_le. rewrite length_skipn. lia.
  - destruct (round_scan _ _ _ _ _ _ _) as [r1 h].
    destruct (round_keep _ _ _ _) as [[size used] buffer2].
    cbn [inputstream]. congruence.
Qed.

Lemma tokenizer_loop_returns fuel : forall t,
  tokenizer_ok t ->
  List.length (is_content (inputstream t)) < fuel ->
  exists t', tokenizer_loop input_opts use_separator_regex regex fuel t = Some t'.
Proof.
  induction fuel as [|fuel IH]; intros t Hok Hfuel; [lia|].
  cbn [tokenizer_loop].
  destruct (is_good (inputstream (round t))) eqn:Hg.
  - apply IH; [now apply tokenizer_round_ok|].
    pose proof (tokenizer_round_progress t Hok Hg). lia.
  - eexists. reflexivity.
Qed.

(** With a capacity of at least one character to start with, the loop of
    [file_to_set] ends on every finite stream, whatever the engine
    answers, as long as it answers. *)
Lemma tokenize_returns n stream :
  0 < n ->
  exists s stream',
    tokenize input_opts use_separator_regex regex n stream = Some (s, stream').
Proof.
  intros Hn. unfold tokenize.
  destruct (tokenizer_loop_returns (2 + List.length (is_content stream))
              (initial_tokenizer n stream)) as [t' Ht'].
  - split; [exact Hn | apply new_char_array_length].
  - unfold initial_tokenizer. cbn [inputstream]. lia.
  - rewrite Ht'. eexists _, _. reflexivity.
Qed.
End Termination.

(** ** Separators of one character: the modelled engine *)

Section PerlCharSeparator.
Variable f : ascii -> bool.

Lemma perl_regex_match_partial_char text :
  perl_regex_match_partial (p_char f) text
  = match text with
    | [c] => f c
    | _ => false
    end.
Proof.
  unfold perl_regex_match_partial, perl_regex_match_outcome.
  destruct text as [|c [|d text]]; cbn; try reflexivity.
  - destruct (f c); reflexivity.
  - destruct (f c); reflexivity.
Qed.

(** The first separator character at or after offset [pos]. *)
Lemma find_restart_any_char rest : forall search_base pos prev,
  find_restart_any (p_char f) false search_base pos prev rest
  = match separator_matches f pos rest with
    | [] => None
    | m :: _ => Some m
    end.
Proof.
  induction rest as [|c rest IH]; intros sb pos prev; cbn; [reflexivity|].
  destruct (f c); cbn; [reflexivity|]. apply IH.
Qed.

Lemma separator_matches_bounds text : forall pos m,
  In m (separator_matches f pos text) ->
  pos <= first m /\ second m = S (first m) /\ matched m = true
  /\ second m <= pos + List.length text.
Proof.
  induction text as [|c text IH]; intros pos m; cbn; [contradiction|].
  destruct (f c).
  - intros [<-|H]; cbn; [lia|].
    destruct (IH _ _ H) as (? & ? & ? & ?). repeat split; auto; lia.
  - intros H. destruct (IH _ _ H) as (? & ? & ? & ?). repeat split; auto; lia.
Qed.

(** Skipping to behind the first match. *)
Lemma separator_matches_skip text : forall pos m ms,
  separator_matches f pos text = m :: ms ->
  ms = separator_matches f (second m) (skipn (second m - pos) text).
Proof.
  induction text as [|c text IH]; intros pos m ms; cbn [separator_matches];
    [discriminate|].
  destruct (f c).
  - intros [= <- <-]. cbn [second].
    replace (S pos - pos) with 1 by lia. reflexivity.
  - intros H. pose proof (separator_matches_bounds text (S pos) m) as Hb.
    rewrite H in Hb. destruct (Hb (or_introl eq_refl)) as (Hle & Hs & _).
    rewrite (IH _ _ _ H).
    replace (second m - pos) with (S (second m - S pos)) by lia.
    reflexivity.
Qed.

Lemma perl_iterate_char fuel : forall text from,
  from <= List.length text ->
  List.length text - from < fuel ->
  perl_iterate fuel (p_char f) text from false
  = separator_matches f from (skipn from text).
Proof.
  induction fuel as [|fuel IH]; intros text from Hfrom Hfuel; [lia|].
  cbn [perl_iterate]. unfold perl_regex_search.
  rewrite find_restart_any_char.
  destruct (separator_matches f from (skipn from text)) as [|m ms] eqn:Hms;
    [reflexivity|].
  pose proof (separator_matches_bounds (skipn from text) from m) as Hb.
  rewrite Hms in Hb. destruct (Hb (or_introl eq_refl)) as (Hle & Hs & Hm & Hend).
  rewrite length_skipn in Hend.
  rewrite Hm. f_equal.
  replace (second m =? first m) with false
    by (symmetry; apply Nat.eqb_neq; lia).
  rewrite IH by lia.
  rewrite (separator_matches_skip _ _ _ _ Hms), skipn_skipn.
  f_equal. f_equal. lia.
Qed.

Lemma perl_cregex_iterator_char text :
  perl_cregex_iterator (p_char f) text = separator_matches f 0 text.
Proof.
  unfold perl_cregex_iterator. rewrite perl_iterate_char by lia. reflexivity.
Qed.
End PerlCharSeparator.

(** ** Separators of one character: the tokenizer *)

Section SplitFields.
Variable f : ascii -> bool.

Lemma split_fields_acc at_end cur : forall acc text,
  forallb (fun c => negb (f c)) cur = true ->
  split_fields f at_end acc (cur ++ text) = split_fields f at_end (acc ++ cur) text.
Proof.
  induction cur as [|c cur IH]; intros acc text Hcur; cbn [app].
  - now rewrite app_nil_r.
  - cbn [forallb] in Hcur. apply andb_true_iff in Hcur. destruct Hcur as [Hc Hcur].
    apply negb_true_iff in Hc. cbn [split_fields]. rewrite Hc.
    rewrite (IH _ _ Hcur), <- app_assoc. reflexivity.
Qed.

(** The pending characters are the end of the text. *)
Lemma split_fields_suffix at_end text : forall cur,
  exists pre, cur ++ text = pre ++ snd (split_fields f at_end cur text).
Proof.
  induction text as [|c text IH]; intros cur; cbn [split_fields].
  - exists []. cbn. now rewrite app_nil_r.
  - destruct (f c).
    + assert (Hfin : forall b, b = true ->
                exists pre,
                  cur ++ c :: text
                  = pre ++ snd (if b
                                then let '(fields, rest) :=
                                       split_fields f at_end [] text in
                                     (cur :: fields, rest)
                                else ([], cur ++ [c]))).
      { intros b ->. destruct (IH []) as [pre Hpre].
        destruct (split_fields f at_end [] text) as [fs rest]. cbn [snd] in *.
        exists (cur ++ c :: pre). rewrite <- app_assoc. cbn [app] in *.
        now rewrite Hpre. }
      destruct at_end; [now apply Hfin|].
      destruct text as [|d text]; [|now apply Hfin].
      exists []. reflexivity.
    + destruct (IH (cur ++ [c])) as [pre Hpre]. exists pre.
      rewrite <- Hpre, <- app_assoc. reflexivity.
Qed.

Lemma split_fields_skipn at_end text :
  let rest := snd (split_fields f at_end [] text) in
  List.length rest <= List.length text
  /\ skipn (List.length text - List.length rest) text = rest.
Proof.
  cbv zeta. destruct (split_fields_suffix at_end text []) as [pre Hpre].
  cbn [app] in Hpre.
  remember (snd (split_fields f at_end [] text)) as rest eqn:Hrest.
  clear Hrest. subst text.
  rewrite length_app. split; [lia|].
  replace (List.length pre + _ - _) with (List.length pre) by lia.
  rewrite skipn_app, skipn_all, Nat.sub_diag. reflexivity.
Qed.

(** At the end of the stream no separator stays pending. *)
Lemma split_fields_at_end_rest text : forall cur,
  forallb (fun c => negb (f c)) cur = true ->
  forallb (fun c => negb (f c)) (snd (split_fields f true cur text)) = true.
Proof.
  induction text as [|c text IH]; intros cur Hcur; cbn [split_fields].
  - exact Hcur.
  - destruct (f c) eqn:Hc; cbn [orb].
    + specialize (IH [] eq_refl).
      destruct (split_fields f true [] text) as [fs rest]. exact IH.
    + apply IH. rewrite forallb_app, Hcur. cbn. now rewrite Hc.
Qed.

Lemma split_fields_no_separator at_end text : forall cur,
  forallb (fun c => negb (f c)) text = true ->
  split_fields f at_end cur text = ([], cur ++ text).
Proof.
  induction text as [|c text IH]; intros cur Ht; cbn [split_fields].
  - now rewrite app_nil_r.
  - cbn [forallb] in Ht. apply andb_true_iff in Ht. destruct Ht as [Hc Ht].
    apply negb_true_iff in Hc. rewrite Hc, (IH _ Ht), <- app_assoc. reflexivity.
Qed.

(** What a round leaves pending is split again with what follows. *)
Lemma split_fields_resume text : forall cur more,
  forallb (fun c => negb (f c)) cur = true ->
  split_fields f true cur (text ++ more)
  = let '(fields, rest) := split_fields f false cur text in
    let '(fields', rest') := split_fields f true [] (rest ++ more) in
    (fields ++ fields', rest').
Proof.
  induction text as [|c text IH]; intros cur more Hcur.
  - cbn [app split_fields].
    rewrite (split_fields_acc true cur [] more Hcur). cbn [app].
    destruct (split_fields f true cur more). reflexivity.
  - cbn [app split_fields]. destruct (f c) eqn:Hc; cbn [orb].
    + destruct text as [|d text].
      * cbn [app split_fields].
        rewrite <- app_assoc. cbn [app].
        rewrite (split_fields_acc true cur [] (c :: more) Hcur). cbn [app].
        cbn [split_fields]. rewrite Hc. cbn [orb].
        destruct (split_fields f true [] more). reflexivity.
      * rewrite (IH [] more eq_refl).
        destruct (split_fields f false [] (d :: text)) as [fs rest].
        destruct (split_fields f true [] (rest ++ more)). reflexivity.
    + apply IH. rewrite forallb_app, Hcur. cbn. now rewrite Hc.
Qed.
End SplitFields.

Section CharSeparatorTokenizer.
Context {pattern : Type} {engine : RegexEngine pattern}.
Variable input_opts : InputOptions pattern.
Variable regex : pattern.
Variable f : ascii -> bool.

(** What the section asks of the engine for [regex]: it finds the
    characters [f] accepts, and only a text of one such character is a
    full or partial match as a whole. *)
Hypothesis iterator_finds_separators :
  forall text, cregex_iterator regex text = separator_matches f 0 text.
Hypothesis only_one_separator_matches :
  forall text, regex_match_partial regex text
               = match text with [c] => f c | _ => false end.

Local Abbreviation round := (tokenizer_round input_opts true regex).
Local Abbreviation insert := (insert_elements input_opts true).

Lemma insert_elements_app check els1 els2 r :
  insert_elements input_opts check (els1 ++ els2) r
  = insert_elements input_opts check els2 (insert_elements input_opts check els1 r).
Proof. unfold insert_elements. apply fold_left_app. Qed.

Lemma substring_prefix_end (pre suf : list ascii) h :
  h <= List.length pre ->
  substring (pre ++ suf) h (List.length pre) = skipn h pre.
Proof.
  intros Hh. unfold substring.
  rewrite skipn_app.
  replace (h - List.length pre) with 0 by lia. cbn [skipn].
  rewrite firstn_app, length_skipn.
  replace (List.length pre - h - (List.length pre - h)) with 0 by lia.
  rewrite firstn_O, app_nil_r. apply firstn_all2. rewrite length_skipn. lia.
Qed.

(** The inner loop against [split_fields]. *)
Lemma match_loop_split_fields failed suf : forall pre h r,
  h <= List.length pre ->
  exists rest,
    match_loop input_opts true regex failed (pre ++ suf)
      (separator_matches f (List.length pre) suf) h r
    = (insert (fst (split_fields f failed (skipn h pre) suf)) r,
       List.length (pre ++ suf)
       - List.length (snd (split_fields f failed (skipn h pre) suf)),
       rest).
Proof.
  induction suf as [|c suf IH]; intros pre h r Hh.
  - exists []. cbn [separator_matches match_loop split_fields fst snd].
    rewrite app_nil_r, length_skipn.
    replace (List.length pre - (List.length pre - h)) with h by lia.
    reflexivity.
  - cbn [separator_matches split_fields].
    assert (Hnext : (pre ++ [c]) ++ suf = pre ++ c :: suf)
      by (now rewrite <- app_assoc).
    assert (Hlen : List.length (pre ++ [c]) = S (List.length pre))
      by (rewrite length_app; cbn; lia).
    destruct (f c) eqn:Hc.
    + cbn [match_loop]. unfold match_is_final. cbn [matched first second andb].
      rewrite only_one_separator_matches.
      rewrite skipn_app, skipn_all, Nat.sub_diag. cbn [app skipn].
      rewrite (substring_prefix_end pre (c :: suf) h Hh).
      assert (Hfinal : failed || negb match suf with [] => f c | _ :: _ => false end
                       = failed || match suf with [] => false | _ :: _ => true end).
      { destruct suf; [now rewrite Hc | reflexivity]. }
      rewrite Hfinal.
      destruct (failed || match suf with [] => false | _ :: _ => true end) eqn:Hf.
      * destruct (IH (pre ++ [c]) (S (List.length pre))
                    (adjust_and_insert_element input_opts r (skipn h pre) true))
          as [rest Hrest]; [lia|].
        rewrite Hnext, Hlen in Hrest. rewrite Hrest.
        rewrite <- Hlen, skipn_all.
        destruct (split_fields f failed [] suf) as [fs p]. cbn [fst snd].
        exists rest. reflexivity.
      * eexists. cbn [fst snd]. rewrite !length_app, length_skipn.
        cbn [List.length].
        assert (Hsuf : suf = []).
        { destruct failed; [discriminate|]. destruct suf; [reflexivity|discriminate]. }
        subst suf. cbn [List.length].
        replace (List.length pre + 1 - (List.length pre - h + 1)) with h by lia.
        reflexivity.
    + destruct (IH (pre ++ [c]) h r) as [rest Hrest]; [lia|].
      rewrite Hnext, Hlen in Hrest. rewrite Hrest.
      rewrite skipn_app. replace (h - List.length pre) with 0 by lia.
      cbn [skipn]. exists rest. reflexivity.
Qed.

(** One round, for a stream that was good before it. *)
Lemma round_char_separator t :
  tokenizer_ok t ->
  is_good (inputstream t) = true ->
  let n := buffersize t - used_buffer t in
  let content := is_content (inputstream t) in
  let good := n <=? List.length content in
  let region := pending t ++ firstn n content in
  let fields_rest := split_fields f (negb good) [] region in
  result (round t) = insert (fst fields_rest) (result t)
  /\ pending (round t) = snd fields_rest
  /\ used_buffer (round t) = List.length (snd fields_rest)
  /\ inputstream (round t) = mk_istream (skipn n content) good
  /\ tokenizer_ok (round t).
Proof.
  intros Hok Hgood. cbv zeta.
  pose proof (tokenizer_round_ok input_opts true regex t Hok) as Hok'.
  pose proof (round_read_spec t Hok) as Hread.
  destruct Hok as [Hused Hlen].
  unfold tokenizer_round in *. unfold round_read, istream_read in *.
  rewrite Hgood in *.
  set (n := buffersize t - used_buffer t) in *.
  set (content := is_content (inputstream t)) in *.
  set (got := firstn n content) in *.
  destruct Hread as (Hlen1 & He & Hu & Hpend & _).
  assert (Hgot : List.length got <= n) by (unfold got; rewrite length_firstn; lia).
  assert (Hregion : firstn (used_buffer t + List.length got)
                      (array_write (buffer t) (used_buffer t) got)
                    = pending t ++ got).
  { rewrite array_write_firstn by lia. reflexivity. }
  unfold round_scan in *. rewrite Hregion in *.
  rewrite iterator_finds_separators in *.
  destruct (match_loop_split_fields (negb (n <=? List.length content))
              (pending t ++ got) [] 0 (result t) (Nat.le_0_l _)) as [rest Hloop].
  change ([] ++ pending t ++ got) with (pending t ++ got) in Hloop.
  change (List.length (@nil ascii)) with 0 in Hloop.
  change (skipn 0 (@nil ascii)) with (@nil ascii) in Hloop.
  cbn [is_good] in *. rewrite Hloop in *. clear Hloop.
  pose proof (split_fields_skipn f (negb (n <=? List.length content))
                (pending t ++ got)) as [Hle Hskip].
  set (fr := split_fields f (negb (n <=? List.length content)) [] (pending t ++ got))
    in *.
  assert (Hreglen : List.length (pending t ++ got) = used_buffer t + List.length got).
  { rewrite <- Hregion, length_firstn. lia. }
  pose proof (round_keep_spec (buffersize t)
                (array_write (buffer t) (used_buffer t) got)
                (used_buffer t + List.length got)
                (List.length (pending t ++ got) - List.length (snd fr))
                ltac:(lia) Hlen1 He ltac:(lia)) as Hkeep.
  destruct (round_keep _ _ _ _) as [[size used] buffer2].
  destruct Hkeep as (Hused' & Hpend' & _).
  unfold pending at 1. cbn [result used_buffer buffer inputstream].
  rewrite Hpend', Hregion, Hskip.
  split; [reflexivity|]. split; [reflexivity|]. split; [lia|].
  split; [reflexivity | exact Hok'].
Qed.

(** The set [file_to_set] is going to return, seen from between two
    rounds: the elements of what is pending and not yet read, inserted
    into the set built so far. *)
Lemma tokenizer_loop_char_separator fuel : forall t t',
  tokenizer_ok t ->
  is_good (inputstream t) = true ->
  tokenizer_loop input_opts true regex fuel t = Some t' ->
  tokenizer_finish input_opts true t'
  = insert (all_fields f (pending t ++ is_content (inputstream t))) (result t)
  /\ inputstream t' = mk_istream [] false.
Proof.
  induction fuel as [|fuel IH]; intros t t' Hok Hgood; cbn [tokenizer_loop];
    [discriminate|].
  pose proof (round_char_separator t Hok Hgood) as Hround. cbv zeta in Hround.
  destruct Hround as (Hres & Hpend & Hused & Hstream & Hok').
  set (n := buffersize t - used_buffer t) in *.
  set (content := is_content (inputstream t)) in *.
  rewrite Hstream. cbn [is_good].
  destruct (n <=? List.length content) eqn:Hn; cbn [negb] in *.
  - (* the stream is still good: another round *)
    intros Hloop.
    destruct (IH _ _ Hok' ltac:(now rewrite Hstream) Hloop) as [Hfin Hend].
    split; [|exact Hend].
    rewrite Hfin, Hres, Hpend, Hstream. cbn [is_content].
    rewrite <- insert_elements_app. f_equal.
    unfold all_fields.
    replace (pending t ++ content)
      with ((pending t ++ firstn n content) ++ skipn n content)
      by (now rewrite <- app_assoc, firstn_skipn).
    rewrite (split_fields_resume f (pending t ++ firstn n content) []
               (skipn n content) eq_refl).
    destruct (split_fields f false [] (pending t ++ firstn n content)) as [fs p].
    cbn [snd]. destruct (split_fields f true [] (p ++ skipn n content)) as [fs' p'].
    now rewrite app_assoc.
  - (* the end of the stream *)
    intros [= <-]. apply Nat.leb_gt in Hn.
    assert (Hall : firstn n content = content) by (apply firstn_all2; lia).
    assert (Hnone : skipn n content = []) by (apply skipn_all2; lia).
    rewrite Hstream, Hnone. split; [|reflexivity].
    unfold tokenizer_finish. cbn [andb].
    fold (pending (round t)). rewrite Hres, Hused, Hpend, Hall.
    unfold all_fields.
    destruct (split_fields f true [] (pending t ++ content)) as [fs p].
    cbn [fst snd]. rewrite insert_elements_app.
    destruct p as [|c p]; reflexivity.
Qed.

(** With a separator of one character and whatever the capacity the
    buffer starts with, [file_to_set] returns the set of the elements of
    the input. *)
Lemma tokenize_char_separator n content :
  0 < n ->
  tokenize input_opts true regex n (mk_istream content true)
  = Some (insert (all_fields f content) [], mk_istream [] false).
Proof.
  intros Hn.
  destruct (tokenize_returns input_opts true regex n (mk_istream content true) Hn)
    as (s & stream' & Ht).
  rewrite Ht. unfold tokenize in Ht.
  destruct (tokenizer_loop _ _ _ _ _) as [t'|] eqn:Hloop; [|discriminate].
  injection Ht as <- <-.
  assert (Hok : tokenizer_ok (initial_tokenizer n (mk_istream content true)))
    by (split; [exact Hn | apply new_char_array_length]).
  destruct (tokenizer_loop_char_separator _ _ _ Hok eq_refl Hloop)
    as [Hfin Hend].
  rewrite Hfin, Hend. reflexivity.
Qed.
End CharSeparatorTokenizer.

(** ** Separators of one character: buffer boundaries do not matter *)

(** X26.  With a separator that is a single character or a class of single
    characters, such as the default [\n], the set [file_to_set] returns
    is the set of the elements of the input, for every input and every
    capacity the buffer may start with: the refill boundaries play no
    part, and tokenizing in one pass gives the same set. *)
Theorem char_separator_buffer_independence
    (input_opts : InputOptions perl_pattern) (f : ascii -> bool)
    (n : nat) (content : list ascii) :
  0 < n ->
  tokenize input_opts true (p_char f) n (mk_istream content true)
  = Some (insert_elements input_opts true (all_fields f content) [],
          mk_istream [] false)
  /\ tokenize input_opts true (p_char f) n (mk_istream content true)
     = tokenize_in_one_pass input_opts true (p_char f) content.
Proof.
  intros Hn.
  pose proof (tokenize_char_separator input_opts (p_char f) f
                (perl_cregex_iterator_char f) (perl_regex_match_partial_char f))
    as H.
  split; [now apply H|].
  unfold tokenize_in_one_pass. rewrite !H by lia. reflexivity.
Qed.

Lemma char_separator_buffer_independence_witness :
  0 < INITIAL_BUFFERSIZE
  /\ tokenize default_options true re_newline INITIAL_BUFFERSIZE
       (mk_istream (lines ["a"; "b"; "a"]%string) true)
     = Some ([str "a"; str "b"], mk_istream [] false).
Proof.
  assert (H : 0 < INITIAL_BUFFERSIZE) by (apply Nat.ltb_lt; vm_compute; reflexivity).
  split; [exact H|]. unfold re_newline, p_lit.
  rewrite (proj1 (char_separator_buffer_independence default_options
                    (Ascii.eqb newline) INITIAL_BUFFERSIZE
                    (lines ["a"; "b"; "a"]%string) H)).
  vm_compute. reflexivity.
Defined.

(** An input that ends with a separator: the elements are the pieces in
    front of the separators, the last of them in front of the final
    separator, and there is no element behind it. *)
Lemma split_fields_final_separator (f : ascii -> bool) content c : forall cur,
  f c = true ->
  split_fields f true cur (content ++ [c])
  = (fst (split_fields f true cur content)
       ++ [snd (split_fields f true cur content)], []).
Proof.
  intros cur Hc. revert cur.
  induction content as [|d content IH]; intros cur; cbn [app split_fields].
  - rewrite Hc. reflexivity.
  - destruct (f d); cbn [orb].
    + rewrite (IH []). destruct (split_fields f true [] content). reflexivity.
    + apply IH.
Qed.

Lemma char_separator_at_end_of_input
    (input_opts : InputOptions perl_pattern) (f : ascii -> bool)
    (n : nat) (content : list ascii) (c : ascii) :
  0 < n -> f c = true ->
  tokenize input_opts true (p_char f) n (mk_istream (content ++ [c]) true)
  = Some (insert_elements input_opts true
            (fst (split_fields f true [] content)
               ++ [snd (split_fields f true [] content)]) [],
          mk_istream [] false).
Proof.
  intros Hn Hc.
  pose proof (tokenize_char_separator input_opts (p_char f) f
                (perl_cregex_iterator_char f) (perl_regex_match_partial_char f))
    as H.
  rewrite (H n _ Hn). unfold all_fields. rewrite (split_fields_final_separator f content c [] Hc).
  now rewrite app_nil_r.
Qed.

(** ** The case-sensitive comparator: equivalent means equal *)

Lemma char_value_inj sg a b : char_value sg a = char_value sg b -> a = b.
Proof.
  unfold char_value. intros H.
  pose proof (N_ascii_bounded a) as Ha. pose proof (N_ascii_bounded b) as Hb.
  assert (HN : N_of_ascii a = N_of_ascii b).
  { destruct sg; cbn [andb] in H.
    - destruct (Z.leb_spec 128 (Z.of_N (N_of_ascii a))),
               (Z.leb_spec 128 (Z.of_N (N_of_ascii b))); lia.
    - lia. }
  rewrite <- (ascii_N_embedding a), <- (ascii_N_embedding b). now rewrite HN.
Qed.

Lemma is_less_equiv_eq sg a : forall b,
  equiv (element_comp_of sg false) a b = true <-> a = b.
Proof.
  cbn [element_comp_of]. split.
  - revert b. induction a as [|x a IH]; intros [|y b]; unfold equiv; cbn;
      try discriminate; try reflexivity.
    unfold is_less.
    destruct (Z.ltb_spec (char_value sg x) (char_value sg y)) as [|H1];
      [discriminate|].
    destruct (Z.ltb_spec (char_value sg y) (char_value sg x)) as [|H2];
      [discriminate|].
    intros He. assert (Hxy : x = y) by (apply (char_value_inj sg); lia).
    subst y. f_equal. apply IH. exact He.
  - intros <-.
    apply (@equiv_refl _ (element_comp_of_swo sg false)).
Qed.

(** Under the case-sensitive comparator the symmetric difference holds
    exactly the strings that an odd number of the sources hold. *)
Lemma sym_difference_case_sensitive sg (sets : list set_t) (z : element_t) :
  let comp := element_comp_of sg false in
  Forall (is_set comp) sets ->
  (In z (concat_sets comp SYM_DIFFERENCE sets)
   <-> Nat.odd (List.length (filter (fun s => if in_dec (list_eq_dec ascii_dec) z s
                                              then true else false) sets))
       = true).
Proof.
  cbv zeta. intros Hall.
  pose proof (element_comp_of_swo sg false) as SWO.
  assert (Hin : forall s, is_set (element_comp_of sg false) s ->
                  set_contains (element_comp_of sg false) z s
                  = if in_dec (list_eq_dec ascii_dec) z s then true else false).
  { intros s Hs. apply eq_true_iff_eq.
    rewrite (set_contains_iff _ z s Hs). unfold set_In.
    destruct (in_dec (list_eq_dec ascii_dec) z s) as [Hi|Hn].
    - split; [reflexivity|]. intros _. exists z. split; [exact Hi|].
      now apply is_less_equiv_eq.
    - split; [|discriminate]. intros (y & Hy & He).
      apply is_less_equiv_eq in He. subst y. contradiction. }
  pose proof (sym_difference_parity _ sets z Hall) as Hodd.
  rewrite (Hin _ (concat_sets_is_set _ SYM_DIFFERENCE sets Hall)) in Hodd.
  assert (Hcount : count_containing (element_comp_of sg false) z sets
                   = List.length (filter (fun s => if in_dec (list_eq_dec ascii_dec) z s
                                                   then true else false) sets)).
  { unfold count_containing. clear Hodd.
    induction Hall as [|s sets Hs _ IH]; [reflexivity|].
    cbn [filter]. rewrite (Hin s Hs).
    destruct (in_dec (list_eq_dec ascii_dec) z s); cbn [List.length]; now rewrite IH. }
  rewrite <- Hcount, <- Hodd.
  destruct (in_dec (list_eq_dec ascii_dec) z
              (concat_sets (element_comp_of sg false) SYM_DIFFERENCE sets));
    split; intros; try assumption; try reflexivity; try contradiction;
    discriminate.
Qed.

(** ** The scenarios of the specification, evaluated *)

Example scenario_lines :
  option_map fst (file_to_set default_options (str "A") example_world)
  = Some (inr [str "a"; str "b"])
  /\ List.length [str "a"; str "b"] = 2.
Proof. vm_compute. split; reflexivity. Qed.

Example scenario_intersection_and_symmetric_difference :
  let comp := element_comp default_options in
  concat_sets comp INTERSECTION [[str "a"; str "b"]; [str "b"; str "c"]] = [str "b"]
  /\ concat_sets comp SYM_DIFFERENCE [[str "a"; str "b"]; [str "b"; str "c"]]
     = [str "a"; str "c"].
Proof. vm_compute. split; reflexivity. Qed.

Example scenario_element_pattern :
  option_map fst
    (tokenize (options_of true false false (Some re_digits) None []) false
       re_digits INITIAL_BUFFERSIZE (mk_istream (str "foo12bar34") true))
  = Some [str "12"; str "34"].
Proof. vm_compute. reflexivity. Qed.

Example scenario_trimming :
  trim_if (is_any_of (str ":-")) (str ":-:foo:-:") = str "foo".
Proof. vm_compute. reflexivity. Qed.

Example scenario_ignore_case :
  option_map fst
    (file_to_set (options_of true true false None None []) (str "F") example_world)
  = Some (inr [str "bar"; str "Foo"]).
Proof. vm_compute. reflexivity. Qed.

Example scenario_empty_elements :
  let input := mk_istream (str "a" ++ [newline; newline; newline] ++ str "b") true in
  option_map fst (tokenize default_options true re_newline INITIAL_BUFFERSIZE input)
  = Some [str "a"; str "b"]
  /\ option_map fst
       (tokenize include_empty_options true re_newline INITIAL_BUFFERSIZE input)
     = Some [[]; str "a"; str "b"].
Proof. vm_compute. split; reflexivity. Qed.

(** ** The modelled engine: a final match does not touch the end *)

Lemma orelse_NoMatch a b : orelse a b = NoMatch -> a = NoMatch /\ b = NoMatch.
Proof. destruct a, b; cbn; intros H; try discriminate; auto. Qed.

Lemma orelse_Full a b e : orelse a b = Full e -> a = Full e \/ b = Full e.
Proof. destruct a, b; cbn; intros H; try discriminate; auto. Qed.

Section PerlSimulation.
(** A search that started at [search_base] finds a full match ending at
    [e]; [L] is the length of the text, [s] the offset of the match.  The
    same states are run by [regex_match] on the text from [s] on. *)
Variables (search_base e L s : nat).

Local Abbreviation continuation_related := (continuation_related e L s).

Lemma at_start_line_related prev2 prev rest :
  prev_related prev2 prev ->
  at_start_line prev rest = true -> at_start_line prev2 rest = true.
Proof. intros [->| ->]; auto. Qed.

Lemma continuation_related_later pos pos' k k2 :
  pos <= pos' -> continuation_related pos k k2 -> continuation_related pos' k k2.
Proof.
  intros Hle Hk p prev rest prev2 Hp. apply Hk. lia.
Qed.

Lemma match_all_states_related p : forall pos prev rest k prev2 k2,
  pos + List.length rest = L -> s <= pos -> prev_related prev2 prev ->
  continuation_related pos k k2 ->
  match_all_states search_base p pos prev rest k = Full e ->
  match_all_states 0 p (pos - s) prev2 rest k2 <> NoMatch.
Proof.
  induction p as [|f| |a IHa b IHb|a IHa b IHb|a IHa];
    intros pos prev rest k prev2 k2 HL Hs Hprev Hk; cbn [match_all_states].
  - (* the empty expression *)
    intros H. exact (Hk pos prev rest prev2 (Nat.le_refl _) HL Hprev H).
  - (* one character *)
    destruct rest as [|c rest].
    + unfold state_fails. destruct (pos =? search_base); discriminate.
    + destruct (f c); [|discriminate]. intros H.
      replace (S (pos - s)) with (S pos - s) by lia.
      apply (Hk (S pos) (Some c) rest (Some c)); auto.
      * cbn [List.length] in HL. lia.
      * now right.
  - (* the start of a line *)
    destruct (at_start_line prev rest) eqn:Hline.
    + rewrite (at_start_line_related prev2 prev rest Hprev Hline). intros H.
      exact (Hk pos prev rest prev2 (Nat.le_refl _) HL Hprev H).
    + unfold state_fails. destruct rest; [destruct (pos =? search_base)|];
        discriminate.
  - (* concatenation *)
    apply IHa; auto.
    intros pos' prev' rest' prev2' Hle HL' Hprev' H.
    apply (IHb pos' prev' rest' k prev2' k2); auto; try lia.
    now apply (continuation_related_later pos).
  - (* alternation *)
    intros H Hno. apply orelse_NoMatch in Hno. destruct Hno as [Hno1 Hno2].
    apply orelse_Full in H. destruct H as [H|H].
    + exact (IHa pos prev rest k prev2 k2 HL Hs Hprev Hk H Hno1).
    + exact (IHb pos prev rest k prev2 k2 HL Hs Hprev Hk H Hno2).
  - (* the star *)
    generalize (S (List.length rest)) as count.
    intros count. revert pos prev rest prev2 HL Hs Hprev Hk.
    induction count as [|count IHcount];
      intros pos prev rest prev2 HL Hs Hprev Hk; cbn [repeat_star].
    + intros H. exact (Hk pos prev rest prev2 (Nat.le_refl _) HL Hprev H).
    + intros H Hno. apply orelse_NoMatch in Hno. destruct Hno as [Hno1 Hno2].
      apply orelse_Full in H. destruct H as [H|H].
      * revert Hno1.
        eapply IHa; [exact HL | exact Hs | exact Hprev | | exact H].
        intros pos' prev' rest' prev2' Hle HL' Hprev'.
        replace (pos' - s =? pos - s) with (pos' =? pos)
          by (destruct (Nat.eqb_spec pos' pos), (Nat.eqb_spec (pos' - s) (pos - s));
              try reflexivity; lia).
        destruct (pos' =? pos).
        -- intros H'. exact (Hk pos' prev' rest' prev2' Hle HL' Hprev' H').
        -- apply IHcount; auto; try lia.
           now apply (continuation_related_later pos).
      * exact (Hk pos prev rest prev2 (Nat.le_refl _) HL Hprev H Hno2).
Qed.
End PerlSimulation.

Section PerlBounds.
Variables (search_base L : nat).

(** A full match is what some call of the continuation gave, at a
    position that is not before the start and inside the text. *)
Lemma match_all_states_Full p : forall pos prev rest k e,
  pos + List.length rest = L ->
  match_all_states search_base p pos prev rest k = Full e ->
  exists pos' prev' rest',
    pos <= pos' /\ pos' + List.length rest' = L /\ k pos' prev' rest' = Full e.
Proof.
  induction p as [|f| |a IHa b IHb|a IHa b IHb|a IHa];
    intros pos prev rest k e HL; cbn [match_all_states].
  - intros H. exists pos, prev, rest. auto.
  - destruct rest as [|c rest].
    + unfold state_fails. destruct (pos =? search_base); discriminate.
    + destruct (f c); [|discriminate]. intros H.
      exists (S pos), (Some c), rest. cbn [List.length] in HL.
      repeat split; auto; lia.
  - destruct (at_start_line prev rest).
    + intros H. exists pos, prev, rest. auto.
    + unfold state_fails. destruct rest; [destruct (pos =? search_base)|];
        discriminate.
  - intros H. apply IHa in H; [|exact HL].
    destruct H as (pos1 & prev1 & rest1 & Hle1 & HL1 & H).
    apply IHb in H; [|exact HL1].
    destruct H as (pos2 & prev2 & rest2 & Hle2 & HL2 & H).
    exists pos2, prev2, rest2. repeat split; auto; lia.
  - intros H. apply orelse_Full in H. destruct H as [H|H].
    + exact (IHa pos prev rest k e HL H).
    + exact (IHb pos prev rest k e HL H).
  - generalize (S (List.length rest)) as count. intros count.
    revert pos prev rest HL.
    induction count as [|count IHcount]; intros pos prev rest HL;
      cbn [repeat_star].
    + intros H. exists pos, prev, rest. auto.
    + intros H. apply orelse_Full in H. destruct H as [H|H].
      * apply IHa in H; [|exact HL].
        destruct H as (pos1 & prev1 & rest1 & Hle1 & HL1 & H).
        destruct (pos1 =? pos).
        -- exists pos1, prev1, rest1. auto.
        -- apply IHcount in H; [|exact HL1].
           destruct H as (pos2 & prev2 & rest2 & Hle2 & HL2 & H).
           exists pos2, prev2, rest2. repeat split; auto; lia.
      * exists pos, prev, rest. auto.
Qed.

(** What a search returns: a match inside the text and, for a full
    match, the run of the states that gave it. *)
Lemma find_restart_any_spec p nin rest : forall pos prev m,
  pos + List.length rest = L ->
  find_restart_any p nin search_base pos prev rest = Some m ->
  pos <= first m /\ first m <= second m /\ second m <= L
  /\ (matched m = true ->
      exists prev',
        match_all_states search_base p (first m) prev'
          (skipn (first m - pos) rest) (search_accept nin search_base)
        = Full (second m)).
Proof.
  assert (Hfull : forall pos prev rest e,
             pos + List.length rest = L ->
             match_all_states search_base p pos prev rest
               (search_accept nin search_base) = Full e ->
             pos <= e /\ e <= L).
  { intros pos prev rest0 e HL H.
    apply match_all_states_Full in H; [|exact HL].
    destruct H as (pos' & prev' & rest' & Hle & HL' & H).
    unfold search_accept in H. destruct (nin && _); [discriminate|].
    injection H as <-. lia. }
  induction rest as [|c rest IH]; intros pos prev m HL; cbn [find_restart_any].
  - destruct (can_be_null p); [|discriminate].
    destruct (match_all_states _ _ _ _ _ _) as [e| |] eqn:Hm; try discriminate.
    + intros [= <-]. cbn [first second matched].
      destruct (Hfull _ _ _ _ HL Hm). repeat split; auto.
      intros _. exists prev. now rewrite Nat.sub_diag.
    + intros [= <-]. cbn [first second matched List.length] in *.
      repeat split; try lia; try discriminate.
  - destruct (match_all_states _ _ _ _ _ _) as [e| |] eqn:Hm.
    + intros [= <-]. cbn [first second matched].
      destruct (Hfull _ _ _ _ HL Hm). repeat split; auto.
      intros _. exists prev. now rewrite Nat.sub_diag.
    + intros [= <-]. cbn [first second matched List.length] in *.
      repeat split; try lia; try discriminate.
    + intros H. cbn [List.length] in HL.
      apply IH in H; [|lia].
      destruct H as (Hle & Hfs & HsL & Hex). repeat split; auto; try lia.
      intros Hmat. destruct (Hex Hmat) as [prev' Hp]. exists prev'.
      replace (first m - pos) with (S (first m - S pos)) by lia. exact Hp.
Qed.
End PerlBounds.

(** The matches of the modelled iterator lie inside the text, and a full
    one is what the states gave from its start. *)
Lemma perl_iterate_spec p text fuel : forall from nin m,
  from <= List.length text ->
  In m (perl_iterate fuel p text from nin) ->
  first m <= second m /\ second m <= List.length text
  /\ (matched m = true ->
      exists search_base nin' prev',
        match_all_states search_base p (first m) prev' (skipn (first m) text)
          (search_accept nin' search_base)
        = Full (second m)).
Proof.
  induction fuel as [|fuel IH]; intros from nin m Hfrom; cbn [perl_iterate];
    [contradiction|].
  unfold perl_regex_search.
  destruct (find_restart_any _ _ _ _ _ _) as [m0|] eqn:Hfind; [|contradiction].
  apply (find_restart_any_spec from (List.length text)) in Hfind;
    [|rewrite length_skipn; lia].
  destruct Hfind as (Hle & Hfs & HsL & Hex).
  intros [<-|Hin].
  - repeat split; auto. intros Hmat. destruct (Hex Hmat) as [prev' Hp].
    exists from, nin, prev'. rewrite skipn_skipn in Hp.
    replace (first m0 - from + from) with (first m0) in Hp by lia. exact Hp.
  - destruct (matched m0); [|contradiction].
    exact (IH _ _ _ HsL Hin).
Qed.

Lemma perl_matches_within p text :
  matches_within (List.length text) (perl_cregex_iterator p text).
Proof.
  apply Forall_forall. intros m Hm. unfold perl_cregex_iterator in Hm.
  apply perl_iterate_spec in Hm; [|lia]. lia.
Qed.

(** For the modelled engine, a match the loop finalizes before the
    stream is exhausted never ends where the buffer ends: the test of
    the code is at least as strict as the one the specification words. *)
Lemma perl_final_match_is_safe p region m :
  In m (perl_cregex_iterator p region) ->
  match_is_final p false region m = true ->
  spec_match_is_safe false region m = true.
Proof.
  intros Hin Hfinal. unfold match_is_final in Hfinal.
  apply andb_true_iff in Hfinal. destruct Hfinal as [Hmat Hno].
  cbn [orb] in Hno. apply negb_true_iff in Hno.
  unfold spec_match_is_safe. rewrite Hmat. cbn [andb orb].
  apply negb_true_iff, Nat.eqb_neq. intros Hend.
  unfold perl_cregex_iterator in Hin.
  apply perl_iterate_spec in Hin; [|lia].
  destruct Hin as (Hfs & HsL & Hex).
  destruct (Hex Hmat) as (sb & nin & prev & Hrun).
  cbn [regex_match_partial perl_engine] in Hno.
  unfold perl_regex_match_partial, perl_regex_match_outcome in Hno.
  assert (Hsim : match_all_states 0 p (first m - first m) None
                   (skipn (first m) region) match_accept <> NoMatch).
  { apply (match_all_states_related sb (second m) (List.length region) (first m)
             p (first m) prev (skipn (first m) region)
             (search_accept nin sb) None match_accept).
    - rewrite length_skipn. lia.
    - lia.
    - now left.
    - intros pos' prev' rest' prev2' Hle HL _ Hk.
      unfold search_accept in Hk. destruct (nin && _); [discriminate|].
      injection Hk as Hk. destruct rest' as [|c rest']; [discriminate|].
      cbn [List.length] in HL. lia.
    - exact Hrun. }
  rewrite Nat.sub_diag in Hsim.
  destruct (match_all_states 0 p 0 None (skipn (first m) region) match_accept);
    try discriminate. now apply Hsim.
Qed.

(** * Properties of the rest of the program *)

(** ** [unescape_sequence] *)

(** The escape sequences of a string are read back one character at a
    time. *)
Lemma unescape_loop_escape_string s : forall whole rest acc,
  unescape_loop whole (escape_string s ++ rest) acc
  = unescape_loop whole rest (acc ++ s).
Proof.
  induction s as [|c s IH]; intros whole rest acc.
  - cbn. now rewrite app_nil_r.
  - unfold escape_string. cbn [map List.concat].
    fold (escape_string s). rewrite <- app_assoc.
    replace (acc ++ c :: s) with ((acc ++ [c]) ++ s)
      by (now rewrite <- app_assoc).
    rewrite <- IH. unfold escape_char.
    destruct (Ascii.eqb c backslash) eqn:E1;
      [apply Ascii.eqb_eq in E1; subst c; reflexivity|].
    destruct (Ascii.eqb c (ascii_of_nat 12)) eqn:E2;
      [apply Ascii.eqb_eq in E2; subst c; reflexivity|].
    destruct (Ascii.eqb c (ascii_of_nat 10)) eqn:E3;
      [apply Ascii.eqb_eq in E3; subst c; reflexivity|].
    destruct (Ascii.eqb c (ascii_of_nat 13)) eqn:E4;
      [apply Ascii.eqb_eq in E4; subst c; reflexivity|].
    destruct (Ascii.eqb c (ascii_of_nat 9)) eqn:E5;
      [apply Ascii.eqb_eq in E5; subst c; reflexivity|].
    destruct (Ascii.eqb c (ascii_of_nat 11)) eqn:E6;
      [apply Ascii.eqb_eq in E6; subst c; reflexivity|].
    cbn [app unescape_loop]. now rewrite E1.
Qed.

(** X1.  Every string can be handed to the program through escape
    sequences: writing the backslash and the characters form feed, new
    line, carriage return, tab and vertical tab of a string as their
    sequences and unescaping gives the string back, without an error. *)
Theorem unescape_escape_string (s : list ascii) :
  unescape_sequence (escape_string s) = inr s.
Proof.
  unfold unescape_sequence.
  pose proof (unescape_loop_escape_string s (escape_string s) [] []) as H.
  rewrite app_nil_r in H. exact H.
Qed.

(** What has been built before the loop goes on is a prefix of the
    result; an error does not depend on it. *)
Lemma unescape_loop_acc n : forall q, List.length q <= n ->
  forall w acc,
    unescape_loop w q acc
    = match unescape_loop w q [] with
      | inr b => inr (acc ++ b)
      | inl e => inl e
      end.
Proof.
  induction n as [|n IH]; intros q Hq w acc.
  - destruct q as [|c q]; [|cbn in Hq; lia].
    cbn [unescape_loop]. now rewrite app_nil_r.
  - destruct q as [|c q]; [cbn [unescape_loop]; now rewrite app_nil_r|].
    cbn [List.length] in Hq. cbn [unescape_loop].
    destruct (Ascii.eqb c backslash).
    + destruct q as [|d q]; [reflexivity|].
      cbn [List.length] in Hq.
      destruct (escape_find d escape_characters) as [r|]; [|reflexivity].
      rewrite (IH q ltac:(lia) w (acc ++ [r])), (IH q ltac:(lia) w ([] ++ [r])).
      destruct (unescape_loop w q []); [reflexivity|].
      now rewrite <- app_assoc.
    + rewrite (IH q ltac:(lia) w (acc ++ [c])), (IH q ltac:(lia) w ([] ++ [c])).
      destruct (unescape_loop w q []); [reflexivity|].
      now rewrite <- app_assoc.
Qed.

(** A result does not depend on the string the messages would name, and
    is not longer than what was read. *)
Lemma unescape_loop_result n : forall q, List.length q <= n ->
  forall w w' b,
    unescape_loop w q [] = inr b ->
    unescape_loop w' q [] = inr b /\ List.length b <= List.length q.
Proof.
  induction n as [|n IH]; intros q Hq w w' b.
  - destruct q as [|c q]; [|cbn in Hq; lia].
    cbn [unescape_loop]. intros [= <-]. split; [reflexivity | cbn; lia].
  - destruct q as [|c q];
      [cbn [unescape_loop]; intros [= <-]; split; [reflexivity | cbn; lia]|].
    cbn [List.length] in Hq. cbn [unescape_loop].
    destruct (Ascii.eqb c backslash).
    + destruct q as [|d q]; [discriminate|].
      cbn [List.length] in Hq.
      destruct (escape_find d escape_characters) as [r|]; [|discriminate].
      rewrite (unescape_loop_acc n q ltac:(lia) w ([] ++ [r])),
              (unescape_loop_acc n q ltac:(lia) w' ([] ++ [r])).
      destruct (unescape_loop w q []) as [e|b0] eqn:Hb0; [discriminate|].
      intros [= <-].
      destruct (IH q ltac:(lia) w w' b0 Hb0) as [H1 Hl]. rewrite H1.
      split; [reflexivity|]. cbn [List.length app]. lia.
    + rewrite (unescape_loop_acc n q ltac:(lia) w ([] ++ [c])),
              (unescape_loop_acc n q ltac:(lia) w' ([] ++ [c])).
      destruct (unescape_loop w q []) as [e|b0] eqn:Hb0; [discriminate|].
      intros [= <-].
      destruct (IH q ltac:(lia) w w' b0 Hb0) as [H1 Hl]. rewrite H1.
      split; [reflexivity|]. cbn [List.length app]. lia.
Qed.

(** Reading on behind a part that has been read without an error. *)
Lemma unescape_loop_app n : forall p, List.length p <= n ->
  forall w w' q a,
    unescape_loop w p [] = inr a ->
    unescape_loop w' (p ++ q) [] = unescape_loop w' q a.
Proof.
  assert (Hstep : forall (p q b0 : list ascii) (w' : list ascii) (r : ascii),
             unescape_loop w' (p ++ q) [] = unescape_loop w' q b0 ->
             unescape_loop w' (p ++ q) [r] = unescape_loop w' q (r :: b0)).
  { intros p q b0 w' r H.
    rewrite (unescape_loop_acc (List.length (p ++ q)) (p ++ q) (Nat.le_refl _)
               w' [r]), H.
    rewrite (unescape_loop_acc (List.length q) q (Nat.le_refl _) w' b0).
    rewrite (unescape_loop_acc (List.length q) q (Nat.le_refl _) w' (r :: b0)).
    destruct (unescape_loop w' q []); reflexivity. }
  induction n as [|n IH]; intros p Hp w w' q a.
  - destruct p as [|c p]; [|cbn in Hp; lia].
    cbn [unescape_loop app]. now intros [= <-].
  - destruct p as [|c p]; [cbn [unescape_loop app]; now intros [= <-]|].
    cbn [List.length] in Hp. cbn [unescape_loop app].
    destruct (Ascii.eqb c backslash).
    + destruct p as [|d p]; [discriminate|].
      cbn [List.length] in Hp. cbn [app].
      destruct (escape_find d escape_characters) as [r|]; [|discriminate].
      rewrite (unescape_loop_acc n p ltac:(lia) w [r]).
      destruct (unescape_loop w p []) as [e|b0] eqn:Hb0; [discriminate|].
      intros [= <-]. apply Hstep. exact (IH p ltac:(lia) w w' q b0 Hb0).
    + rewrite (unescape_loop_acc n p ltac:(lia) w [c]).
      destruct (unescape_loop w p []) as [e|b0] eqn:Hb0; [discriminate|].
      intros [= <-]. apply Hstep. exact (IH p ltac:(lia) w w' q b0 Hb0).
Qed.

(** X2.  Unescaping goes from left to right: when [p] unescapes to [a]
    and [q] to [b], then [p ++ q] unescapes to [a ++ b]; the result is
    never longer than the argument. *)
Theorem unescape_sequence_app (p q a b : list ascii) :
  unescape_sequence p = inr a ->
  unescape_sequence q = inr b ->
  unescape_sequence (p ++ q) = inr (a ++ b)
  /\ List.length (a ++ b) <= List.length (p ++ q).
Proof.
  unfold unescape_sequence. intros Hp Hq.
  assert (H : unescape_loop (p ++ q) (p ++ q) [] = inr (a ++ b)).
  { rewrite (unescape_loop_app (List.length p) p (Nat.le_refl _) p (p ++ q) q a Hp).
    rewrite (unescape_loop_acc (List.length q) q (Nat.le_refl _) (p ++ q) a).
    destruct (unescape_loop_result (List.length q) q (Nat.le_refl _) q (p ++ q) b Hq)
      as [H _].
    now rewrite H. }
  split; [exact H|].
  exact (proj2 (unescape_loop_result _ (p ++ q) (Nat.le_refl _) _ (p ++ q) _ H)).
Qed.

Lemma unescape_sequence_app_witness :
  unescape_sequence (str ":-" ++ [backslash; "t"%char]) = inr (str ":-" ++ [ascii_of_nat 9])
  /\ unescape_sequence [backslash; backslash] = inr [backslash]
  /\ unescape_sequence ((str ":-" ++ [backslash; "t"%char]) ++ [backslash; backslash])
     = inr ((str ":-" ++ [ascii_of_nat 9]) ++ [backslash]).
Proof.
  split; [reflexivity|]. split; [reflexivity|].
  exact (proj1 (unescape_sequence_app (str ":-" ++ [backslash; "t"%char])
                  [backslash; backslash] (str ":-" ++ [ascii_of_nat 9])
                  [backslash] eq_refl eq_refl)).
Defined.

(** X3.  Behind a part that unescapes without an error, a backslash that
    is the last character, and a backslash followed by a character other
    than the nine supported ones, make [unescape_sequence] throw
    [std::invalid_argument]; the message names the whole argument. *)
Theorem unescape_sequence_errors (p a : list ascii) :
  unescape_sequence p = inr a ->
  unescape_sequence (p ++ [backslash])
  = inl (invalid_argument
           (str "Parsing failed: Backslash at end of " ++ [dquote]
              ++ (p ++ [backslash]) ++ [dquote] ++ str " is invalid."))
  /\ forall c rest,
       escape_find c escape_characters = None ->
       unescape_sequence (p ++ backslash :: c :: rest)
       = inl (invalid_argument
                (str "Parsing failed: " ++ str "Escape sequence "
                   ++ [dquote; backslash; c; dquote]
                   ++ str " in argument " ++ [dquote]
                   ++ (p ++ backslash :: c :: rest)
                   ++ [dquote] ++ str " is not supported.")).
Proof.
  unfold unescape_sequence. intros Hp. split.
  - rewrite (unescape_loop_app (List.length p) p (Nat.le_refl _) p _ _ a Hp).
    reflexivity.
  - intros c rest Hc.
    rewrite (unescape_loop_app (List.length p) p (Nat.le_refl _) p _ _ a Hp).
    cbn [unescape_loop]. change (Ascii.eqb backslash backslash) with true.
    cbv iota. now rewrite Hc.
Qed.

Lemma unescape_sequence_errors_witness :
  unescape_sequence (str "ab") = inr (str "ab")
  /\ unescape_sequence (str "ab" ++ [backslash])
     = inl (invalid_argument
              (str "Parsing failed: Backslash at end of " ++ [dquote]
                 ++ (str "ab" ++ [backslash]) ++ [dquote] ++ str " is invalid.")).
Proof.
  split; [reflexivity|].
  exact (proj1 (unescape_sequence_errors (str "ab") (str "ab") eq_refl)).
Defined.

(** ** Trimming *)

Section Trimming.
Variable p : ascii -> bool.

Lemma trim_left_if_head s c :
  hd_error (trim_left_if p s) = Some c -> p c = false.
Proof.
  induction s as [|d s IH]; cbn [trim_left_if]; [discriminate|].
  destruct (p d) eqn:Hd; [exact IH|]. cbn. now intros [= <-].
Qed.

Lemma trim_left_if_fixed s :
  (forall c, hd_error s = Some c -> p c = false) -> trim_left_if p s = s.
Proof.
  destruct s as [|d s]; [reflexivity|]. intros H. cbn [trim_left_if].
  now rewrite (H d eq_refl).
Qed.

Lemma trim_left_if_suffix s :
  exists l, s = l ++ trim_left_if p s /\ forallb p l = true.
Proof.
  induction s as [|d s IH]; cbn [trim_left_if].
  - exists []. split; reflexivity.
  - destruct (p d) eqn:Hd.
    + destruct IH as (l & Hl & Hp). exists (d :: l). split.
      * cbn [app]. now rewrite <- Hl.
      * cbn [forallb]. now rewrite Hd.
    + exists []. split; reflexivity.
Qed.

Lemma trim_right_if_last s c :
  hd_error (rev (trim_right_if p s)) = Some c -> p c = false.
Proof.
  unfold trim_right_if. rewrite rev_involutive. apply trim_left_if_head.
Qed.

Lemma trim_right_if_fixed s :
  (forall c, hd_error (rev s) = Some c -> p c = false) -> trim_right_if p s = s.
Proof.
  intros H. unfold trim_right_if. rewrite (trim_left_if_fixed _ H).
  apply rev_involutive.
Qed.

Lemma trim_right_if_prefix s :
  exists r, s = trim_right_if p s ++ r /\ forallb p r = true.
Proof.
  destruct (trim_left_if_suffix (rev s)) as (l & Hl & Hp).
  exists (rev l). split.
  - unfold trim_right_if. rewrite <- rev_app_distr, <- Hl.
    now rewrite rev_involutive.
  - rewrite forallb_forall in *. intros c Hc. apply Hp. now apply in_rev.
Qed.

(** The last character of a part at the end is the last character of the
    whole. *)
Lemma hd_error_rev_suffix (l t : list ascii) c :
  hd_error (rev t) = Some c -> hd_error (rev (l ++ t)) = Some c.
Proof.
  rewrite rev_app_distr. destruct (rev t) as [|d u]; [discriminate|].
  cbn. auto.
Qed.

Lemma trim_if_ends s :
  (forall c, hd_error (trim_if p s) = Some c -> p c = false)
  /\ (forall c, hd_error (rev (trim_if p s)) = Some c -> p c = false).
Proof.
  unfold trim_if. split.
  - intros c. apply trim_left_if_head.
  - intros c Hc.
    destruct (trim_left_if_suffix (trim_right_if p s)) as (l & Hl & _).
    apply (trim_right_if_last s). rewrite Hl.
    now apply hd_error_rev_suffix.
Qed.

Lemma trim_if_fixed s :
  (forall c, hd_error s = Some c -> p c = false) ->
  (forall c, hd_error (rev s) = Some c -> p c = false) ->
  trim_if p s = s.
Proof.
  intros Hh Hl. unfold trim_if.
  rewrite (trim_right_if_fixed _ Hl). now apply trim_left_if_fixed.
Qed.

Lemma trim_if_idempotent s : trim_if p (trim_if p s) = trim_if p s.
Proof.
  destruct (trim_if_ends s) as [Hh Hl]. now apply trim_if_fixed.
Qed.

(** What is trimmed away are characters of the set, at both ends. *)
Lemma trim_if_decomposition s :
  exists l r, s = l ++ trim_if p s ++ r
              /\ forallb p l = true /\ forallb p r = true.
Proof.
  destruct (trim_right_if_prefix s) as (r & Hr & Hpr).
  destruct (trim_left_if_suffix (trim_right_if p s)) as (l & Hl & Hpl).
  exists l, r. unfold trim_if. repeat split; auto.
  rewrite app_assoc, <- Hl. exact Hr.
Qed.
End Trimming.

(** ** What the tokenizer stores *)

Section StoredElements.
Context {pattern : Type} {engine : RegexEngine pattern}.
Variable input_opts : InputOptions pattern.

(** A property of the set that [adjust_and_insert_element] keeps is a
    property of every set the tokenizer returns. *)
Variable Q : set_t -> Prop.
Hypothesis Q_empty : Q [].
Hypothesis Q_insert :
  forall r el check, Q r -> Q (adjust_and_insert_element input_opts r el check).

Lemma match_loop_keeps sep re failed region ms : forall handled r,
  Q r -> Q (fst (fst (match_loop input_opts sep re failed region ms handled r))).
Proof.
  induction ms as [|m ms IH]; intros handled r Hr; cbn [match_loop]; [exact Hr|].
  destruct (match_is_final re failed region m); [|exact Hr].
  destruct sep; apply IH; now apply Q_insert.
Qed.

Lemma tokenizer_round_keeps sep re t :
  Q (result t) -> Q (result (tokenizer_round input_opts sep re t)).
Proof.
  intros Hr. rewrite tokenizer_round_result. unfold round_scan.
  pose proof (match_loop_keeps sep re
                (negb (is_good (snd (round_read t))))
                (firstn (snd (fst (round_read t))) (fst (fst (round_read t))))
                (cregex_iterator re
                   (firstn (snd (fst (round_read t))) (fst (fst (round_read t)))))
                0 (result t) Hr) as H.
  destruct (match_loop _ _ _ _ _ _ _ _) as [[r1 h] cm]. exact H.
Qed.

Lemma tokenizer_loop_keeps sep re fuel : forall t t',
  Q (result t) ->
  tokenizer_loop input_opts sep re fuel t = Some t' -> Q (result t').
Proof.
  induction fuel as [|fuel IH]; intros t t' Hr; cbn [tokenizer_loop];
    [discriminate|].
  pose proof (tokenizer_round_keeps sep re t Hr) as Hr'.
  destruct (is_good (inputstream (tokenizer_round input_opts sep re t))).
  - now apply IH.
  - now intros [= <-].
Qed.

Lemma tokenize_keeps sep re n stream s stream' :
  tokenize input_opts sep re n stream = Some (s, stream') -> Q s.
Proof.
  unfold tokenize.
  destruct (tokenizer_loop _ _ _ _ _) as [t|] eqn:Hloop; [|discriminate].
  intros [= <- _]. unfold tokenizer_finish.
  assert (Hr : Q (result t)).
  { eapply tokenizer_loop_keeps; [|exact Hloop]. exact Q_empty. }
  destruct (sep && _); [now apply Q_insert | exact Hr].
Qed.

Lemma file_to_set_with_keeps n filename w s w' :
  file_to_set_with input_opts n filename w = Some (inr s, w') -> Q s.
Proof.
  unfold file_to_set_with.
  destruct (if if list_eq_dec ascii_dec filename (str "-") then true else false
            then Some (std_cin w) else _) as [stream|]; [|discriminate].
  destruct (if regex_empty (input_element_regex input_opts)
            then input_separator_regex input_opts
            else input_element_regex input_opts) as [re|]; [|discriminate].
  destruct (tokenize _ _ _ _ _) as [[s0 stream']|] eqn:Ht; [|discriminate].
  intros [= <- _]. eapply tokenize_keeps; eauto.
Qed.
End StoredElements.

Lemma set_insert_In_inv comp x s z :
  In z (set_insert comp x s) -> z = x \/ In z s.
Proof.
  induction s as [|y s IH]; cbn [set_insert].
  - intros [<-|[]]. now left.
  - destruct (comp y x).
    + intros [<-|H]; [right; now left|].
      destruct (IH H); [now left | right; now right].
    + destruct (comp x y); [|now right].
      intros [<-|H]; [now left | now right].
Qed.

(** X4.  Whatever the patterns and whatever the engine answers, every
    element of a set [file_to_set] returns is trimmed (trimming it again
    changes nothing: it neither starts nor ends with a character of the
    trim set), and it is empty only when empty elements are included. *)
Theorem file_to_set_elements_are_normalized
    {pattern : Type} {engine : RegexEngine pattern}
    (input_opts : InputOptions pattern)
    (filename : list ascii) (w w' : world) (s : set_t) (x : element_t) :
  file_to_set input_opts filename w = Some (inr s, w') ->
  In x s ->
  trim_if (is_any_of (trim_characters input_opts)) x = x
  /\ (x = [] -> include_empty_elements input_opts = true).
Proof.
  intros Hf Hx.
  pose (Q := fun r : set_t =>
               forall z, In z r ->
                 trim_if (is_any_of (trim_characters input_opts)) z = z
                 /\ (z = [] -> include_empty_elements input_opts = true)).
  assert (HQ : Q s).
  { apply (file_to_set_with_keeps input_opts Q) with
      (n := INITIAL_BUFFERSIZE) (filename := filename) (w := w) (w' := w').
    - intros z [].
    - intros r el check Hr z. unfold adjust_and_insert_element.
      destruct (_ || _ || _); [|apply Hr].
      destruct (negb _ || _) eqn:Hkeep; [|apply Hr].
      intros Hz. apply set_insert_In_inv in Hz. destruct Hz as [->|Hz]; [|now apply Hr].
      split; [apply trim_if_idempotent|].
      intros Hnil. rewrite Hnil in Hkeep. exact Hkeep.
    - exact Hf. }
  exact (HQ x Hx).
Qed.

Lemma file_to_set_elements_are_normalized_witness :
  let opts := options_of true false false None None (str ":-") in
  let w := mk_world (fun _ => Some (lines [":-:foo:-:"; "::"; "bar-"]%string))
             (mk_istream [] true) [] [] in
  file_to_set opts (str "f") w = Some (inr [str "bar"; str "foo"], w)
  /\ In (str "foo") [str "bar"; str "foo"]
  /\ trim_if (is_any_of (trim_characters opts)) (str "foo") = str "foo".
Proof.
  cbv zeta.
  assert (H : file_to_set (options_of true false false None None (str ":-"))
                (str "f")
                (mk_world (fun _ => Some (lines [":-:foo:-:"; "::"; "bar-"]%string))
                   (mk_istream [] true) [] [])
              = Some (inr [str "bar"; str "foo"],
                      mk_world (fun _ => Some (lines [":-:foo:-:"; "::"; "bar-"]%string))
                        (mk_istream [] true) [] []))
    by (vm_compute; reflexivity).
  assert (Hin : In (str "foo") [str "bar"; str "foo"]) by (right; left; reflexivity).
  split; [exact H|]. split; [exact Hin|].
  exact (proj1 (file_to_set_elements_are_normalized _ _ _ _ _ _ H Hin)).
Defined.

(** * Properties of the program as a whole *)

(** ** What [file_to_set] does to the world *)

Lemma istream_read_good s n :
  is_good (snd (istream_read s n)) = true -> is_good s = true.
Proof.
  unfold istream_read. destruct (is_good s) eqn:Hg; [reflexivity|].
  cbn [snd]. congruence.
Qed.

Lemma istream_read_end s n :
  is_good (snd (istream_read s n)) = false ->
  snd (istream_read s n) = if is_good s then mk_istream [] false else s.
Proof.
  unfold istream_read. destruct (is_good s) eqn:Hg; cbn [snd is_good];
    [|reflexivity].
  intros H. rewrite H. apply Nat.leb_gt in H.
  rewrite skipn_all2 by lia. reflexivity.
Qed.

Section StreamConsumed.
Context {pattern : Type} {engine : RegexEngine pattern}.
Variable input_opts : InputOptions pattern.
Variable use_separator_regex : bool.
Variable regex : pattern.

Lemma tokenizer_round_stream t :
  inputstream (tokenizer_round input_opts use_separator_regex regex t)
  = snd (istream_read (inputstream t) (buffersize t - used_buffer t)).
Proof.
  unfold tokenizer_round, round_read.
  destruct (istream_read _ _) as [got stream].
  destruct (round_scan _ _ _ _ _ _ _) as [r1 h].
  destruct (round_keep _ _ _ _) as [[size used] buffer2]. reflexivity.
Qed.

(** The loop ends on a stream that is read to its end. *)
Lemma tokenizer_loop_stream fuel : forall t t',
  tokenizer_loop input_opts use_separator_regex regex fuel t = Some t' ->
  inputstream t'
  = if is_good (inputstream t) then mk_istream [] false else inputstream t.
Proof.
  induction fuel as [|fuel IH]; intros t t'; cbn [tokenizer_loop];
    [discriminate|].
  destruct (is_good (inputstream
              (tokenizer_round input_opts use_separator_regex regex t))) eqn:Hg.
  - intros H. apply IH in H. rewrite Hg in H.
    rewrite tokenizer_round_stream in Hg. apply istream_read_good in Hg.
    now rewrite Hg.
  - intros [= <-]. rewrite tokenizer_round_stream in *.
    now apply istream_read_end.
Qed.

Lemma tokenize_stream n stream s stream' :
  tokenize input_opts use_separator_regex regex n stream = Some (s, stream') ->
  stream' = if is_good stream then mk_istream [] false else stream.
Proof.
  unfold tokenize.
  destruct (tokenizer_loop _ _ _ _ _) as [t|] eqn:Hloop; [|discriminate].
  intros [= _ <-]. now apply tokenizer_loop_stream in Hloop.
Qed.
End StreamConsumed.

Lemma can_be_opened_dec fs filename :
  {can_be_opened fs filename} + {~ can_be_opened fs filename}.
Proof.
  unfold can_be_opened.
  destruct (list_eq_dec ascii_dec filename (str "-")) as [E|E]; [left; now left|].
  destruct (fs filename) as [c|]; [left; right; discriminate|].
  right. intros [H|H]; [contradiction | now apply H].
Qed.

Lemma reads_refl w : reads w w.
Proof. now left. Qed.

Lemma cin_read_idempotent w : cin_read (cin_read w) = cin_read w.
Proof.
  unfold cin_read. cbn [files std_cin std_cout std_cerr].
  destruct (is_good (std_cin w)) eqn:Hg; cbn [is_good]; [reflexivity|].
  now rewrite Hg.
Qed.

Lemma reads_trans a b c : reads a b -> reads b c -> reads a c.
Proof.
  intros [->| ->] [->| ->]; try (now left); try (now right).
  right. apply cin_read_idempotent.
Qed.

Lemma reads_same w w' :
  reads w w' ->
  files w' = files w /\ std_cout w' = std_cout w /\ std_cerr w' = std_cerr w.
Proof. intros [->| ->]; repeat split. Qed.

Section FileToSetOutcome.
Context {pattern : Type} {engine : RegexEngine pattern}.
Variable input_opts : InputOptions pattern.

Lemma file_to_set_outcome filename w :
  (~ can_be_opened (files w) filename
   /\ file_to_set input_opts filename w
      = Some (inl (runtime_error
                     (str "Input file " ++ filename ++ str " could not be opened.")),
              w))
  \/ (can_be_opened (files w) filename
      /\ ((regex_in_use input_opts = None
           /\ file_to_set input_opts filename w
              = Some (inl (invalid_argument (str "Invalid regular expression object")),
                      w))
          \/ (regex_in_use input_opts <> None
              /\ exists s,
                   file_to_set input_opts filename w
                   = Some (inr s,
                           if list_eq_dec ascii_dec filename (str "-")
                           then cin_read w else w)))).
Proof.
  unfold file_to_set, file_to_set_with, regex_in_use, can_be_opened.
  destruct (list_eq_dec ascii_dec filename (str "-")) as [E|E].
  - right. split; [now left|].
    destruct (if regex_empty (input_element_regex input_opts)
              then input_separator_regex input_opts
              else input_element_regex input_opts) as [re|]; [right | left; now split].
    split; [discriminate|].
    destruct (tokenize_returns input_opts
                (regex_empty (input_element_regex input_opts)) re
                INITIAL_BUFFERSIZE (std_cin w)) as (s & stream' & Ht).
    { unfold INITIAL_BUFFERSIZE. lia. }
    rewrite Ht. exists s. apply tokenize_stream in Ht. subst stream'.
    reflexivity.
  - destruct (files w filename) as [content|] eqn:Hf.
    + right. split; [right; discriminate|].
      destruct (if regex_empty (input_element_regex input_opts)
                then input_separator_regex input_opts
                else input_element_regex input_opts) as [re|];
        [right | left; now split].
      split; [discriminate|].
      destruct (tokenize_returns input_opts
                  (regex_empty (input_element_regex input_opts)) re
                  INITIAL_BUFFERSIZE (mk_istream content true))
        as (s & stream' & Ht).
      { unfold INITIAL_BUFFERSIZE. lia. }
      rewrite Ht. exists s. reflexivity.
    + left. split; [|reflexivity]. intros [H|H]; [contradiction | now apply H].
Qed.
End FileToSetOutcome.


(** ** The three steps on the world *)

Section StepsOutcome.
Context {pattern : Type} {engine : RegexEngine pattern}.
Variable input_opts : InputOptions pattern.
Variable cl : CommandLine.

Local Abbreviation openable w := (can_be_opened (files w)).

Lemma load_outcome filename w :
  exists r w',
    load input_opts filename w = Some (r, w')
    /\ reads w w'
    /\ ((~ openable w filename /\ exists e, r = inl e)
        \/ (openable w filename /\ exists s, r = inr s)
        \/ (regex_in_use input_opts = None /\ exists e, r = inl e)).
Proof.
  unfold load.
  destruct (file_to_set_outcome input_opts filename w)
    as [[Hno H]|[Hyes [[Hre H]|[Hre [s H]]]]]; rewrite H; eexists _, _;
    (split; [reflexivity|]).
  - split; [apply reads_refl|]. left. split; [exact Hno|]. eexists; reflexivity.
  - split; [apply reads_refl|]. right; right. split; [exact Hre|].
    eexists; reflexivity.
  - split.
    + destruct (list_eq_dec ascii_dec filename (str "-"));
        [now right | apply reads_refl].
    + right; left. split; [exact Hyes|]. now exists s.
Qed.

Lemma openable_reads w w' filename :
  reads w w' -> openable w' filename <-> openable w filename.
Proof. intros H. apply reads_same in H. destruct H as [-> _]. tauto. Qed.

Lemma Exists_openable_reads w w' fns :
  reads w w' ->
  Exists (fun fn => ~ openable w' fn) fns -> Exists (fun fn => ~ openable w fn) fns.
Proof.
  intros H. apply Exists_impl. intros fn Hfn Ho. apply Hfn.
  now apply (openable_reads w w').
Qed.

Lemma Forall_openable_reads w w' fns :
  reads w w' ->
  Forall (openable w') fns -> Forall (openable w) fns.
Proof.
  intros H. apply Forall_impl. intros fn. now apply (openable_reads w w').
Qed.

(** A loop of [file_to_set] calls: it fails when one of the names cannot
    be opened and, the expression being set, only then. *)
Lemma step1_outcome fns : forall is_first acc w,
  exists r w',
    step1 input_opts cl is_first fns acc w = Some (r, w')
    /\ reads w w'
    /\ ((Exists (fun fn => ~ openable w fn) fns /\ exists e, r = inl e)
        \/ (Forall (openable w) fns /\ exists s, r = inr s)
        \/ (regex_in_use input_opts = None /\ exists e, r = inl e)).
Proof.
  induction fns as [|fn fns IH]; intros is_first acc w; cbn [step1].
  - exists (inr acc), w. split; [reflexivity|]. split; [apply reads_refl|].
    right; left. split; [constructor|]. now exists acc.
  - destruct (load_outcome fn w) as (r & w1 & Hl & Hr & Hc).
    unfold bind. rewrite Hl. destruct r as [e|s].
    + exists (inl e), w1. split; [reflexivity|]. split; [exact Hr|].
      destruct Hc as [[Hno _]|[[_ [s Hs]]|[Hre _]]].
      * left. split; [now left | now exists e].
      * discriminate.
      * right; right. split; [exact Hre | now exists e].
    + destruct (IH false
                  (if is_first then s
                   else concat_step (element_comp input_opts)
                          (set_concat_type cl) acc s) w1)
        as (r2 & w2 & H2 & Hr2 & Hc2).
      rewrite H2. exists r2, w2. split; [reflexivity|].
      split; [eapply reads_trans; eauto|].
      destruct Hc as [[_ [e He]]|[[Hyes _]|[_ [e He]]]]; try discriminate.
      destruct Hc2 as [[Hex He]|[[Hall Hs]|Hnone]].
      * left. split; [|exact He]. right.
        now apply (Exists_openable_reads w w1).
      * right; left. split; [|exact Hs]. constructor; [exact Hyes|].
        now apply (Forall_openable_reads w w1).
      * right; right. exact Hnone.
Qed.

Lemma step2_outcome fns : forall acc w,
  exists r w',
    step2 input_opts fns acc w = Some (r, w')
    /\ reads w w'
    /\ ((Exists (fun fn => ~ openable w fn) fns /\ exists e, r = inl e)
        \/ (Forall (openable w) fns /\ exists s, r = inr s)
        \/ (regex_in_use input_opts = None /\ exists e, r = inl e)).
Proof.
  induction fns as [|fn fns IH]; intros acc w; cbn [step2].
  - exists (inr acc), w. split; [reflexivity|]. split; [apply reads_refl|].
    right; left. split; [constructor|]. now exists acc.
  - destruct (load_outcome fn w) as (r & w1 & Hl & Hr & Hc).
    unfold bind. rewrite Hl. destruct r as [e|s].
    + exists (inl e), w1. split; [reflexivity|]. split; [exact Hr|].
      destruct Hc as [[Hno _]|[[_ [s Hs]]|[Hre _]]].
      * left. split; [now left | now exists e].
      * discriminate.
      * right; right. split; [exact Hre | now exists e].
    + destruct (IH (difference_step (element_comp input_opts) acc s) w1)
        as (r2 & w2 & H2 & Hr2 & Hc2).
      rewrite H2. exists r2, w2. split; [reflexivity|].
      split; [eapply reads_trans; eauto|].
      destruct Hc as [[_ [e He]]|[[Hyes _]|[_ [e He]]]]; try discriminate.
      destruct Hc2 as [[Hex He]|[[Hall Hs]|Hnone]].
      * left. split; [|exact He]. right.
        now apply (Exists_openable_reads w w1).
      * right; left. split; [|exact Hs]. constructor; [exact Hyes|].
        now apply (Forall_openable_reads w w1).
      * right; right. exact Hnone.
Qed.

(** What [answer_query] returns and writes. *)
Lemma answer_query_outcome success msg1 msg2 w :
  exists code w',
    answer_query cl success msg1 msg2 w = Some (inr code, w')
    /\ code = (if success then EXIT_SUCCESS else EXIT_QUERY_NEGATIVE)
    /\ files w' = files w /\ std_cin w' = std_cin w
    /\ std_cerr w' = std_cerr w
    /\ std_cout w'
       = std_cout w
         ++ (if success then if verbose cl then msg1 else []
             else if quiet cl then [] else msg2).
Proof.
  unfold answer_query, bind, ret, cout.
  destruct success; [destruct (verbose cl) | destruct (quiet cl)];
    eexists _, _; (split; [reflexivity|]);
    cbn [files std_cin std_cout std_cerr]; rewrite ?app_nil_r; repeat split.
Qed.

(** Step 3: a failure writes nothing; a result is [EXIT_SUCCESS], or
    [EXIT_QUERY_NEGATIVE] for a boolean query; standard error is left
    alone. *)
Lemma step3_outcome out w :
  exists r w',
    step3 input_opts cl out w = Some (r, w')
    /\ files w' = files w /\ std_cerr w' = std_cerr w
    /\ (forall e, r = inl e -> std_cout w' = std_cout w)
    /\ (forall code, r = inr code ->
          code = EXIT_SUCCESS
          \/ (code = EXIT_QUERY_NEGATIVE
              /\ is_boolean_query (set_query_type cl) = true))
    /\ (is_boolean_query (set_query_type cl) = true ->
        quiet cl = true -> verbose cl = false -> std_cout w' = std_cout w)
    /\ ((Exists (fun fn => ~ openable w fn) (query_files cl)
         /\ exists e, r = inl e)
        \/ (Forall (openable w) (query_files cl) /\ exists code, r = inr code)
        \/ (regex_in_use input_opts = None /\ exists e, r = inl e)).
Proof.
  assert (Hload : forall fn k,
    (forall s w1, exists code w',
        k s w1 = Some (inr code, w')
        /\ (code = EXIT_SUCCESS \/ code = EXIT_QUERY_NEGATIVE)
        /\ files w' = files w1 /\ std_cerr w' = std_cerr w1
        /\ (quiet cl = true -> verbose cl = false -> std_cout w' = std_cout w1)) ->
    exists r w',
      bind (load input_opts fn) k w = Some (r, w')
      /\ files w' = files w /\ std_cerr w' = std_cerr w
      /\ (forall e, r = inl e -> std_cout w' = std_cout w)
      /\ (forall code, r = inr code ->
            code = EXIT_SUCCESS \/ code = EXIT_QUERY_NEGATIVE)
      /\ (quiet cl = true -> verbose cl = false -> std_cout w' = std_cout w)
      /\ ((Exists (fun fn => ~ openable w fn) [fn] /\ exists e, r = inl e)
          \/ (Forall (openable w) [fn] /\ exists code, r = inr code)
          \/ (regex_in_use input_opts = None /\ exists e, r = inl e))).
  { intros fn k Hk.
    destruct (load_outcome fn w) as (r & w1 & Hl & Hr & Hc).
    destruct (reads_same _ _ Hr) as (Hf & Ho & He).
    unfold bind. rewrite Hl. destruct r as [e|s].
    - exists (inl e), w1. split; [reflexivity|]. repeat split; auto.
      + discriminate.
      + destruct Hc as [[Hno _]|[[_ [s Hs]]|[Hre _]]].
        * left. split; [now left | now exists e].
        * discriminate.
        * right; right. split; [exact Hre | now exists e].
    - destruct (Hk s w1) as (code & w2 & Hk2 & Hcode & Hf2 & He2 & Ho2).
      rewrite Hk2. exists (inr code), w2. split; [reflexivity|].
      split; [congruence|]. split; [congruence|].
      split; [discriminate|].
      split; [now intros c [= <-]|].
      split; [intros q v; rewrite (Ho2 q v); exact Ho|].
      destruct Hc as [[_ [e He']]|[[Hyes _]|[_ [e He']]]]; try discriminate.
      right; left. split; [constructor; [exact Hyes | constructor] | now exists code]. }
  assert (Hanswer : forall success msg1 msg2 w1, exists code w',
        answer_query cl success msg1 msg2 w1 = Some (inr code, w')
        /\ (code = EXIT_SUCCESS \/ code = EXIT_QUERY_NEGATIVE)
        /\ files w' = files w1 /\ std_cerr w' = std_cerr w1
        /\ (quiet cl = true -> verbose cl = false -> std_cout w' = std_cout w1)).
  { intros success msg1 msg2 w1.
    destruct (answer_query_outcome success msg1 msg2 w1)
      as (code & w' & H & Hcode & Hf & _ & He & Ho).
    exists code, w'. split; [exact H|].
    split; [destruct success; auto|]. split; [exact Hf|]. split; [exact He|].
    intros q v. rewrite Ho, q, v. destruct success; apply app_nil_r. }
  unfold step3, query_files, comparison_filename.
  destruct (set_query_type cl) eqn:Hq; cbn [is_boolean_query].
  - (* RETURN_SET *)
    eexists _, _. unfold bind, cout, ret. split; [reflexivity|].
    cbn [files std_cerr std_cout]. repeat split; try discriminate.
    + intros c [= <-]. now left.
    + right; left. split; [constructor | eexists; reflexivity].
  - (* CARDINALITY *)
    eexists _, _. unfold bind, cout, ret. split; [reflexivity|].
    cbn [files std_cerr std_cout]. repeat split; try discriminate.
    + intros c [= <-]. now left.
    + right; left. split; [constructor | eexists; reflexivity].
  - (* ISEMPTY *)
    destruct (Hanswer (match out with [] => true | _ => false end)
                (str "Resulting set is empty." ++ [newline])
                (str "Resulting set is not empty." ++ [newline]) w)
      as (code & w' & H & Hcode & Hf & He & Ho).
    rewrite H. exists (inr code), w'. split; [reflexivity|].
    repeat split; auto; try discriminate.
    + intros c [= <-]. destruct Hcode; auto.
    + right; left. split; [constructor | eexists; reflexivity].
  - (* SUBSET *)
    destruct (Hload (subset_filename cl)
                (fun set_to_check =>
                   answer_query cl (subset_test input_opts out set_to_check)
                     ([dquote] ++ subset_filename cl ++ [dquote]
                        ++ str " is a subset." ++ [newline])
                     ([dquote] ++ subset_filename cl ++ [dquote]
                        ++ str " is not a subset." ++ [newline])))
      as (r & w' & H & Hf & He & Hexc & Hcode & Ho & Hc).
    { intros s w1. apply Hanswer. }
    exists r, w'. split; [exact H|]. repeat split; auto.
    intros c Hr. destruct (Hcode c Hr); auto.
  - (* SUPERSET *)
    destruct (Hload (superset_filename cl)
                (fun set_to_check =>
                   answer_query cl (superset_test input_opts out set_to_check)
                     ([dquote] ++ superset_filename cl ++ [dquote]
                        ++ str " is a superset." ++ [newline])
                     ([dquote] ++ superset_filename cl ++ [dquote]
                        ++ str " is not a superset." ++ [newline])))
      as (r & w' & H & Hf & He & Hexc & Hcode & Ho & Hc).
    { intros s w1. apply Hanswer. }
    exists r, w'. split; [exact H|]. repeat split; auto.
    intros c Hr. destruct (Hcode c Hr); auto.
  - (* CONTAINS_ELEMENT *)
    cbv zeta.
    match goal with
    | |- context [answer_query cl ?s ?m1 ?m2 w] =>
        destruct (Hanswer s m1 m2 w) as (code & w' & H & Hcode & Hf & He & Ho)
    end.
    rewrite H. exists (inr code), w'. split; [reflexivity|].
    repeat split; auto; try discriminate.
    + intros c [= <-]. destruct Hcode; auto.
    + right; left. split; [constructor | eexists; reflexivity].
  - (* SET_EQUALITY *)
    destruct (Hload (equal_filename cl)
                (fun loaded =>
                   answer_query cl (set_eqb loaded out)
                     (str "Resulting set is equal to input " ++ [dquote]
                        ++ equal_filename cl ++ [dquote] ++ str "." ++ [newline])
                     (str "Resulting set is not equal to input " ++ [dquote]
                        ++ equal_filename cl ++ [dquote] ++ str "." ++ [newline])))
      as (r & w' & H & Hf & He & Hexc & Hcode & Ho & Hc).
    { intros s w1. apply Hanswer. }
    exists r, w'. split; [exact H|]. repeat split; auto.
    intros c Hr. destruct (Hcode c Hr); auto.
Qed.
End StepsOutcome.

Section ExecuteSetopOutcome.
Context {pattern : Type} {engine : RegexEngine pattern}.
Variable input_opts : InputOptions pattern.
Variable cl : CommandLine.

Local Abbreviation openable w := (can_be_opened (files w)).

Lemma execute_setop_outcome w :
  exists r w',
    execute_setop input_opts cl w = Some (r, w')
    /\ files w' = files w /\ std_cerr w' = std_cerr w
    /\ (forall e, r = inl e -> std_cout w' = std_cout w)
    /\ (forall code, r = inr code ->
          code = EXIT_SUCCESS
          \/ (code = EXIT_QUERY_NEGATIVE
              /\ is_boolean_query (set_query_type cl) = true))
    /\ (is_boolean_query (set_query_type cl) = true ->
        quiet cl = true -> verbose cl = false -> std_cout w' = std_cout w)
    /\ ((Exists (fun fn => ~ openable w fn) (all_files cl)
         /\ exists e, r = inl e)
        \/ (Forall (openable w) (all_files cl) /\ exists code, r = inr code)
        \/ (regex_in_use input_opts = None /\ exists e, r = inl e)).
Proof.
  unfold execute_setop, all_files.
  change (match input_filenames cl with [] => [str "-"] | _ :: _ => input_filenames cl end)
    with (input_filenames_or_cin cl).
  destruct (step1_outcome input_opts cl (input_filenames_or_cin cl) true [] w)
    as (r1 & w1 & H1 & Hr1 & Hc1).
  destruct (reads_same _ _ Hr1) as (Hf1 & Ho1 & He1).
  unfold bind at 1. rewrite H1. destruct r1 as [e|out1].
  { exists (inl e), w1. split; [reflexivity|]. repeat split; auto;
      try discriminate.
    destruct Hc1 as [[Hex _]|[[_ [s Hs]]|Hnone]]; [|discriminate|].
    - left. split; [|now exists e]. apply Exists_app. now left.
    - right; right. split; [exact (proj1 Hnone) | now exists e]. }
  destruct Hc1 as [[_ [e He]]|[[Hall1 _]|[_ [e He]]]]; try discriminate.
  destruct (step2_outcome input_opts (setdifference_filenames cl) out1 w1)
    as (r2 & w2 & H2 & Hr2 & Hc2).
  destruct (reads_same _ _ Hr2) as (Hf2 & Ho2 & He2).
  unfold bind at 1. rewrite H2. destruct r2 as [e|out2].
  { exists (inl e), w2. split; [reflexivity|].
    split; [congruence|]. split; [congruence|].
    split; [intros; congruence|]. split; [discriminate|].
    split; [intros; congruence|].
    destruct Hc2 as [[Hex _]|[[_ [s Hs]]|Hnone]]; [|discriminate|].
    - left. split; [|now exists e]. apply Exists_app. right.
      apply Exists_app. left. now apply (Exists_openable_reads w w1).
    - right; right. split; [exact (proj1 Hnone) | now exists e]. }
  destruct Hc2 as [[_ [e He]]|[[Hall2 _]|[_ [e He]]]]; try discriminate.
  destruct (step3_outcome input_opts cl out2 w2)
    as (r3 & w3 & H3 & Hf3 & He3 & Hexc & Hcode & Hq & Hc3).
  rewrite H3. exists r3, w3. split; [reflexivity|].
  split; [congruence|]. split; [congruence|].
  split; [intros e He; rewrite (Hexc e He); congruence|].
  split; [exact Hcode|].
  split; [intros b q v; rewrite (Hq b q v); congruence|].
  assert (Hr : reads w w2) by (eapply reads_trans; eauto).
  destruct Hc3 as [[Hex He]|[[Hall3 Hs]|Hnone]].
  - left. split; [|exact He]. apply Exists_app. right. apply Exists_app. right.
    now apply (Exists_openable_reads w w2).
  - right; left. split; [|exact Hs].
    apply Forall_app. split; [exact Hall1|].
    apply Forall_app. split.
    + now apply (Forall_openable_reads w w1).
    + now apply (Forall_openable_reads w w2).
  - right; right. exact Hnone.
Qed.
End ExecuteSetopOutcome.

(** ** The checks before the three steps *)

Lemma world_eta w : mk_world (files w) (std_cin w) (std_cout w) (std_cerr w) = w.
Proof. now destruct w. Qed.

Lemma all_files_command_line_of po :
  all_files (command_line_of po) = needed_files po.
Proof.
  unfold all_files, needed_files, query_files, comparison_filename,
    command_line_of.
  cbn [input_filenames setdifference_filenames set_query_type equal_filename
       subset_filename superset_filename].
  destruct (chosen_query po); reflexivity.
Qed.

Section OptionsOutcome.
Context {pattern : Type} {engine : RegexEngine pattern}.
Variable regex_compile : list ascii -> option pattern.
Variable char_is_signed : bool.
Variable help_text : list ascii.

Local Abbreviation run := (execute_setop_options regex_compile char_is_signed help_text).
Local Abbreviation openable w := (can_be_opened (files w)).

Lemma compile_regexes_cases po :
  (exists format,
      compile_regexes regex_compile (po_input_element po) (separator_format_of po)
      = inl format
      /\ ((po_input_element po <> []
           /\ regex_compile (po_input_element po) = None)
          \/ (separator_format_of po <> []
              /\ regex_compile (separator_format_of po) = None)))
  \/ (exists element_regex separator_regex,
        compile_regexes regex_compile (po_input_element po) (separator_format_of po)
        = inr (element_regex, separator_regex)
        /\ (po_input_element po <> [] ->
            regex_compile (po_input_element po) <> None)
        /\ (separator_format_of po <> [] ->
            regex_compile (separator_format_of po) <> None)
        /\ (if regex_empty element_regex then separator_regex else element_regex)
           <> None).
Proof.
  unfold compile_regexes, separator_format_of.
  destruct (po_input_element po) as [|c el] eqn:Hel.
  - destruct (po_input_separator po) as [|d sep] eqn:Hsep.
    + destruct (regex_compile [backslash; "n"%char]) as [re|] eqn:Hre;
        cbn [option_map].
      * right. exists None, (Some re). split; [reflexivity|].
        repeat split; try discriminate. intros H; now elim H.
      * left. eexists. split; [reflexivity|]. right. split; [discriminate|].
        reflexivity.
    + destruct (regex_compile (d :: sep)) as [re|] eqn:Hre; cbn [option_map].
      * right. exists None, (Some re). split; [reflexivity|].
        repeat split; try discriminate. intros H; now elim H.
      * left. eexists. split; [reflexivity|]. right. split; [discriminate|].
        reflexivity.
  - destruct (regex_compile (c :: el)) as [re|] eqn:Hre; cbn [option_map].
    + destruct (po_input_separator po) as [|d sep] eqn:Hsep.
      * right. exists (Some re), None. split; [reflexivity|].
        repeat split; try discriminate. intros H; now elim H.
      * destruct (regex_compile (d :: sep)) as [re2|] eqn:Hre2; cbn [option_map].
        -- right. exists (Some re), (Some re2). split; [reflexivity|].
           repeat split; discriminate.
        -- left. eexists. split; [reflexivity|]. right.
           split; [discriminate | reflexivity].
    + left. eexists. split; [reflexivity|]. left.
      split; [discriminate | reflexivity].
Qed.

(** Behind [--help] and [--version], [execute_setop] either ends in
    [print_error] on one of the checks, or runs its three steps with an
    expression that is set. *)
Lemma execute_setop_options_cases po w :
  po_help po = false -> po_version po = false ->
  (configuration_error regex_compile po
   /\ exists msg, run po w = print_error msg (warned po w))
  \/ (~ configuration_error regex_compile po
      /\ exists input_opts,
           regex_in_use input_opts <> None
           /\ run po w = execute_setop input_opts (command_line_of po) (warned po w)).
Proof.
  intros Hh Hv. unfold execute_setop_options. rewrite Hh, Hv.
  assert (Hw : (if po_quiet po && po_verbose po
                then cerr (str "Warning: Only one of the options quiet and verbose is allowed. Both ignored."
                             ++ [newline])
                else ret tt) w = Some (inr tt, warned po w)).
  { unfold warned, warning, cerr, ret.
    destruct (po_quiet po && po_verbose po); [reflexivity|].
    now rewrite app_nil_r, world_eta. }
  rewrite (bind_inr _ _ w tt (warned po w) Hw). clear Hw. cbv beta zeta.
  unfold configuration_error.
  destruct (1 <? count_set_operations po) eqn:Hops.
  { left. split; [left; now apply Nat.ltb_lt | eexists; reflexivity]. }
  apply Nat.ltb_ge in Hops.
  destruct (1 <? count_queries po) eqn:Hqs.
  { left. split; [right; left; now apply Nat.ltb_lt | eexists; reflexivity]. }
  apply Nat.ltb_ge in Hqs.
  destruct (unescape_sequence (po_trim po)) as [e|trim] eqn:Htrim.
  { left. split; [right; right; left; now exists e | eexists; reflexivity]. }
  destruct (unescape_sequence (po_output_separator po)) as [e|sep] eqn:Hsep.
  { left. split; [right; right; right; left; now exists e | eexists; reflexivity]. }
  change (match po_input_element po with
          | [] => match po_input_separator po with
                  | [] => [backslash; "n"%char]
                  | _ :: _ => po_input_separator po
                  end
          | _ :: _ => po_input_separator po
          end) with (separator_format_of po).
  destruct (compile_regexes_cases po)
    as [(format & Hc & Hbad)|(ere & sre & Hc & Hel & Hse & Hre)]; rewrite Hc.
  { left. split; [right; right; right; right; exact Hbad | eexists; reflexivity]. }
  right. split.
  - intros [H|[H|[[e H]|[[e H]|[[H1 H2]|[H1 H2]]]]]]; try lia; try discriminate.
    + now apply Hel.
    + now apply Hse.
  - exists (mk_InputOptions (element_comp_of char_is_signed (po_ignore_case po))
              (po_include_empty po) ere sre sep trim).
    split; [exact Hre | reflexivity].
Qed.

Lemma print_error_outcome msg w :
  print_error msg w
  = Some (inr EXIT_FAILURE,
          mk_world (files w) (std_cin w) (std_cout w)
            (std_cerr w ++ str "Error: " ++ msg ++ [newline])).
Proof. reflexivity. Qed.

Local Abbreviation main_of := (main_options regex_compile char_is_signed help_text).

Lemma main_options_outcome po w :
  po_help po = false -> po_version po = false ->
  exists code w',
    main_of po w = Some (code, w')
    /\ files w' = files w
    /\ ((configuration_error regex_compile po
         /\ code = EXIT_FAILURE /\ std_cin w' = std_cin w
         /\ std_cout w' = std_cout w
         /\ exists msg,
              std_cerr w'
              = std_cerr w ++ warning po ++ str "Error: " ++ msg ++ [newline])
        \/ (~ configuration_error regex_compile po
            /\ Exists (fun fn => ~ openable w fn) (needed_files po)
            /\ code = EXIT_FAILURE /\ std_cout w' = std_cout w
            /\ exists msg,
                 std_cerr w'
                 = std_cerr w ++ warning po ++ str "Error: " ++ msg ++ [newline])
        \/ (~ configuration_error regex_compile po
            /\ Forall (openable w) (needed_files po)
            /\ (code = EXIT_SUCCESS
                \/ (code = EXIT_QUERY_NEGATIVE
                    /\ is_boolean_query (chosen_query po) = true))
            /\ std_cerr w' = std_cerr w ++ warning po
            /\ (is_boolean_query (chosen_query po) = true ->
                po_quiet po = true -> po_verbose po = false ->
                std_cout w' = std_cout w))).
Proof.
  intros Hh Hv. unfold main_options.
  destruct (execute_setop_options_cases po w Hh Hv)
    as [[Hce [msg Hrun]]|[Hce (opts & Hre & Hrun)]]; rewrite Hrun.
  - rewrite print_error_outcome. eexists _, _. split; [reflexivity|].
    split; [reflexivity|]. left. split; [exact Hce|].
    cbn [files std_cin std_cout std_cerr warned]. repeat split.
    exists msg. now rewrite <- app_assoc.
  - destruct (execute_setop_outcome opts (command_line_of po) (warned po w))
      as (r & w' & H & Hf & He & Hexc & Hcode & Hq & Hc).
    rewrite all_files_command_line_of in Hc. rewrite H.
    cbn [files std_cerr std_cout warned] in Hf, He, Hexc, Hq, Hc.
    destruct r as [e|code].
    + rewrite print_error_outcome. eexists _, _. split; [reflexivity|].
      cbn [files std_cin std_cout std_cerr]. split; [exact Hf|].
      right; left. split; [exact Hce|].
      destruct Hc as [[Hex _]|[[_ [c Hc]]|[Hnone _]]];
        [|discriminate|contradiction].
      split; [exact Hex|]. split; [reflexivity|].
      split; [now apply (Hexc e)|].
      exists (what e). rewrite He. now rewrite <- app_assoc.
    + exists code, w'. split; [reflexivity|]. split; [exact Hf|].
      right; right. split; [exact Hce|].
      destruct Hc as [[_ [e He']]|[[Hall _]|[_ [e He']]]]; try discriminate.
      split; [exact Hall|]. split; [now apply Hcode|]. split; [exact He|].
      intros Hb Hquiet Hverbose. apply Hq; [exact Hb| |];
        unfold command_line_of; cbn [quiet verbose];
        rewrite Hquiet, Hverbose; reflexivity.
Qed.
End OptionsOutcome.

(** ** [main] *)

(** X6.  The exit codes of a run that ends.  Whatever the options, the
    files and the standard input, the exit code is [EXIT_SUCCESS],
    [EXIT_FAILURE] or [EXIT_QUERY_NEGATIVE] and nothing else;
    [EXIT_QUERY_NEGATIVE] needs one of the boolean queries and neither
    [--help] nor [--version]; a run without a boolean query that does not
    fail returns [EXIT_SUCCESS].  The files are left as they are. *)
Theorem main_options_exit_codes {pattern : Type} {engine : RegexEngine pattern}
    (regex_compile : list ascii -> option pattern) (char_is_signed : bool)
    (help_text : list ascii) (po : ProgramOptions) (w w' : world) (code : Z) :
  main_options regex_compile char_is_signed help_text po w = Some (code, w') ->
  (code = EXIT_SUCCESS \/ code = EXIT_FAILURE \/ code = EXIT_QUERY_NEGATIVE)
  /\ (code = EXIT_QUERY_NEGATIVE ->
      is_boolean_query (chosen_query po) = true
      /\ po_help po = false /\ po_version po = false)
  /\ (is_boolean_query (chosen_query po) = false ->
      code = EXIT_SUCCESS \/ code = EXIT_FAILURE)
  /\ files w' = files w.
Proof.
  intros Hmain.
  destruct (po_help po) eqn:Hh.
  { unfold main_options, execute_setop_options in Hmain. rewrite Hh in Hmain.
    injection Hmain as <- <-. repeat split; auto; discriminate. }
  destruct (po_version po) eqn:Hv.
  { unfold main_options, execute_setop_options in Hmain. rewrite Hh, Hv in Hmain.
    injection Hmain as <- <-. repeat split; auto; discriminate. }
  destruct (main_options_outcome regex_compile char_is_signed help_text po w Hh Hv)
    as (code0 & w0 & H & Hf & Hc).
  rewrite Hmain in H. injection H as <- <-.
  destruct Hc as [(_ & -> & _)|[(_ & _ & -> & _)|(_ & _ & [->|[-> Hb]] & _)]];
    repeat split; auto; try discriminate.
  intros Hn. rewrite Hn in Hb. discriminate.
Qed.

Lemma main_options_exit_codes_witness :
  main_options example_regex_compile true []
    (example_program_options false false false (Some "z"%string) None
       ["A"; "B"]%string)
    example_world
  = Some (EXIT_QUERY_NEGATIVE,
          mk_world example_files (mk_istream [] true)
            (str "Input does not contain element " ++ [dquote] ++ str "z"
               ++ [dquote] ++ str "." ++ [newline]) [])
  /\ is_boolean_query
       (chosen_query
          (example_program_options false false false (Some "z"%string) None
             ["A"; "B"]%string)) = true.
Proof.
  assert (H : main_options example_regex_compile true []
                (example_program_options false false false (Some "z"%string) None
                   ["A"; "B"]%string)
                example_world
              = Some (EXIT_QUERY_NEGATIVE,
                      mk_world example_files (mk_istream [] true)
                        (str "Input does not contain element " ++ [dquote]
                           ++ str "z" ++ [dquote] ++ str "." ++ [newline]) []))
    by (vm_compute; reflexivity).
  split; [exact H|].
  exact (proj1 (proj1 (proj2 (main_options_exit_codes example_regex_compile true []
                                _ _ _ _ H)) eq_refl)).
Defined.

(** X7.  What is enough for a failure.  Behind [--help] and [--version],
    a run that ends returns [EXIT_FAILURE] whenever one of the checks of
    the options fails (more than one set operation, more than one query, a
    bad escape sequence in the trim characters or in the output separator,
    an expression that does not compile) or one of the names it has to
    read (the inputs, or standard input when there is none, the files to
    subtract, the file of the query) cannot be opened.  So another exit
    code tells that every check has passed and that every such name could
    be opened. *)
Theorem failed_check_or_missing_file_fails
    {pattern : Type} {engine : RegexEngine pattern}
    (regex_compile : list ascii -> option pattern) (char_is_signed : bool)
    (help_text : list ascii) (po : ProgramOptions) (w w' : world) (code : Z) :
  po_help po = false -> po_version po = false ->
  main_options regex_compile char_is_signed help_text po w = Some (code, w') ->
  (configuration_error regex_compile po
   \/ Exists (fun fn => ~ can_be_opened (files w) fn) (needed_files po) ->
   code = EXIT_FAILURE)
  /\ (code <> EXIT_FAILURE ->
      ~ configuration_error regex_compile po
      /\ Forall (can_be_opened (files w)) (needed_files po)).
Proof.
  intros Hh Hv Hmain.
  destruct (main_options_outcome regex_compile char_is_signed help_text po w Hh Hv)
    as (code0 & w0 & H & Hf & Hc).
  rewrite Hmain in H. injection H as <- <-.
  destruct Hc as [(Hce & -> & _)|[(_ & Hex & -> & _)|(Hce & Hall & Hcode & _)]].
  - split; [reflexivity | intros N; now elim N].
  - split; [reflexivity | intros N; now elim N].
  - split.
    + intros [H|H]; [contradiction|].
      apply Exists_exists in H. destruct H as (fn & Hin & Hno).
      rewrite Forall_forall in Hall. elim Hno. now apply Hall.
    + intros _. now split.
Qed.

(** The union of [A] and [B] is written and the run returns
    [EXIT_SUCCESS]: every check has passed and both files could be
    opened. *)
Lemma failed_check_or_missing_file_fails_witness :
  let po := example_program_options false false false None None
              ["A"; "B"]%string in
  main_options example_regex_compile true [] po example_world
  = Some (EXIT_SUCCESS,
          mk_world example_files (mk_istream [] true)
            (lines ["a"; "b"; "c"]%string) [])
  /\ ~ configuration_error example_regex_compile po
  /\ Forall (can_be_opened (files example_world)) (needed_files po).
Proof.
  cbv zeta.
  assert (H : main_options example_regex_compile true []
                (example_program_options false false false None None
                   ["A"; "B"]%string)
                example_world
              = Some (EXIT_SUCCESS,
                      mk_world example_files (mk_istream [] true)
                        (lines ["a"; "b"; "c"]%string) []))
    by (vm_compute; reflexivity).
  split; [exact H|].
  apply (proj2 (failed_check_or_missing_file_fails example_regex_compile true []
                  (example_program_options false false false None None
                     ["A"; "B"]%string)
                  example_world
                  (mk_world example_files (mk_istream [] true)
                     (lines ["a"; "b"; "c"]%string) [])
                  EXIT_SUCCESS eq_refl eq_refl H)).
  discriminate.
Defined.

(** X8.  When the program fails it has written nothing to standard output,
    and the last line on standard error starts with [Error: ]; when it
    does not fail, it has written nothing to standard error but, at most,
    the warning about [--quiet] together with [--verbose]. *)
Theorem failure_writes_to_standard_error_only
    {pattern : Type} {engine : RegexEngine pattern}
    (regex_compile : list ascii -> option pattern) (char_is_signed : bool)
    (help_text : list ascii) (po : ProgramOptions) (w w' : world) (code : Z) :
  main_options regex_compile char_is_signed help_text po w = Some (code, w') ->
  (code = EXIT_FAILURE ->
   std_cout w' = std_cout w
   /\ exists msg,
        std_cerr w'
        = std_cerr w ++ warning po ++ str "Error: " ++ msg ++ [newline])
  /\ (code <> EXIT_FAILURE ->
      std_cerr w' = std_cerr w \/ std_cerr w' = std_cerr w ++ warning po).
Proof.
  intros Hmain.
  destruct (po_help po) eqn:Hh.
  { unfold main_options, execute_setop_options in Hmain. rewrite Hh in Hmain.
    injection Hmain as <- <-. split; [discriminate|]. intros _. now left. }
  destruct (po_version po) eqn:Hv.
  { unfold main_options, execute_setop_options in Hmain. rewrite Hh, Hv in Hmain.
    injection Hmain as <- <-. split; [discriminate|]. intros _. now left. }
  destruct (main_options_outcome regex_compile char_is_signed help_text po w Hh Hv)
    as (code0 & w0 & H & Hf & Hc).
  rewrite Hmain in H. injection H as <- <-.
  destruct Hc as [(_ & -> & _ & Ho & He)|[(_ & _ & -> & Ho & He)
                                         |(_ & _ & Hcode & He & _)]].
  - split; [now split | intros N; now elim N].
  - split; [now split | intros N; now elim N].
  - split; [|intros _; now right].
    intros ->. destruct Hcode as [Hc|[Hc _]]; discriminate.
Qed.

Lemma failure_writes_to_standard_error_only_witness :
  std_cout (mk_world example_files (mk_istream [] true) []
              (str "Error: Input file missing could not be opened." ++ [newline]))
  = std_cout example_world.
Proof.
  refine (proj1 (proj1 (failure_writes_to_standard_error_only
                          example_regex_compile true []
                          (example_program_options false false false None None
                             ["A"; "missing"]%string)
                          example_world _ EXIT_FAILURE _) eq_refl)).
  vm_compute. reflexivity.
Defined.

(** X9.  A command line that fails one of the checks of the options ends
    the program with [EXIT_FAILURE] before any input is read: standard
    input and standard output are as they were, and standard error has got
    the warning, if any, and one line that starts with [Error: ]. *)
Theorem configuration_errors_read_nothing
    {pattern : Type} {engine : RegexEngine pattern}
    (regex_compile : list ascii -> option pattern) (char_is_signed : bool)
    (help_text : list ascii) (po : ProgramOptions) (w : world) :
  po_help po = false -> po_version po = false ->
  configuration_error regex_compile po ->
  exists msg,
    main_options regex_compile char_is_signed help_text po w
    = Some (EXIT_FAILURE,
            mk_world (files w) (std_cin w) (std_cout w)
              (std_cerr w ++ warning po ++ str "Error: " ++ msg ++ [newline])).
Proof.
  intros Hh Hv Hce.
  destruct (main_options_outcome regex_compile char_is_signed help_text po w Hh Hv)
    as (code & w' & H & Hf & Hc).
  destruct Hc as [(_ & -> & Hi & Ho & [msg He])|[(N & _)|(N & _)]];
    try contradiction.
  exists msg. rewrite H. f_equal. f_equal.
  destruct w' as [f i o e]. cbn [files std_cin std_cout std_cerr] in *.
  now subst.
Qed.

Lemma configuration_errors_read_nothing_witness :
  exists msg,
    main_options example_regex_compile true []
      (example_program_options false true true None None ["A"]%string) example_world
    = Some (EXIT_FAILURE,
            mk_world (files example_world) (std_cin example_world)
              (std_cout example_world)
              (std_cerr example_world
                 ++ warning (example_program_options false true true None None ["A"]%string)
                 ++ str "Error: " ++ msg ++ [newline])).
Proof.
  apply configuration_errors_read_nothing; [reflexivity | reflexivity |].
  left. vm_compute. lia.
Defined.



(** ** [--quiet] and [--verbose] change what is written only *)







Section SameInput.
Context {pattern : Type} {engine : RegexEngine pattern}.
Variable input_opts : InputOptions pattern.


Variables cl1 cl2 : CommandLine.
Hypothesis same_operation : set_concat_type cl1 = set_concat_type cl2.




Hypothesis same_query : set_query_type cl1 = set_query_type cl2.
Hypothesis same_inputs : input_filenames cl1 = input_filenames cl2.
Hypothesis same_differences :
  setdifference_filenames cl1 = setdifference_filenames cl2.
Hypothesis same_element : element_to_check cl1 = element_to_check cl2.
Hypothesis same_equal : equal_filename cl1 = equal_filename cl2.
Hypothesis same_subset : subset_filename cl1 = subset_filename cl2.
Hypothesis same_superset : superset_filename cl1 = superset_filename cl2.


End SameInput.



(** ** An element expression makes the separator expression idle *)

Section SeparatorIdle.
Context {pattern : Type} {engine : RegexEngine pattern}.
Variable comp : el_comp_t.
Variable include_empty : bool.
Variable element_regex : pattern.
Variables separator1 separator2 : option pattern.
Variables out_separator trim : list ascii.

Local Abbreviation opts1 :=
  (mk_InputOptions comp include_empty (Some element_regex) separator1
     out_separator trim).
Local Abbreviation opts2 :=
  (mk_InputOptions comp include_empty (Some element_regex) separator2
     out_separator trim).

Lemma match_loop_separator_idle sep re failed region ms : forall handled r,
  match_loop opts1 sep re failed region ms handled r
  = match_loop opts2 sep re failed region ms handled r.
Proof.
  induction ms as [|m ms IH]; intros handled r; cbn [match_loop]; [reflexivity|].
  destruct (match_is_final re failed region m); [|reflexivity].
  destruct sep; apply IH.
Qed.

Lemma tokenizer_round_separator_idle sep re t :
  tokenizer_round opts1 sep re t = tokenizer_round opts2 sep re t.
Proof.
  unfold tokenizer_round, round_scan.
  destruct (round_read t) as [[buffer1 buffer_end] stream].
  now rewrite match_loop_separator_idle.
Qed.

Lemma tokenizer_loop_separator_idle sep re fuel : forall t,
  tokenizer_loop opts1 sep re fuel t = tokenizer_loop opts2 sep re fuel t.
Proof.
  induction fuel as [|fuel IH]; intros t; cbn [tokenizer_loop]; [reflexivity|].
  rewrite tokenizer_round_separator_idle.
  destruct (is_good _); [apply IH | reflexivity].
Qed.

Lemma file_to_set_separator_idle filename w :
  file_to_set opts1 filename w = file_to_set opts2 filename w.
Proof.
  unfold file_to_set, file_to_set_with.
  cbn [input_element_regex regex_empty input_separator_regex].
  destruct (if if list_eq_dec ascii_dec filename (str "-") then true else false
            then Some (std_cin w) else _) as [stream|]; [|reflexivity].
  unfold tokenize. rewrite tokenizer_loop_separator_idle. reflexivity.
Qed.

Variable cl : CommandLine.

Lemma step1_separator_idle fns : forall is_first acc w,
  step1 opts1 cl is_first fns acc w = step1 opts2 cl is_first fns acc w.
Proof.
  induction fns as [|fn fns IH]; intros is_first acc w; cbn [step1];
    [reflexivity|].
  unfold bind, load. rewrite file_to_set_separator_idle.
  destruct (file_to_set opts2 fn w) as [[[e|s] w1]|]; try reflexivity;
    apply IH.
Qed.

Lemma step2_separator_idle fns : forall acc w,
  step2 opts1 fns acc w = step2 opts2 fns acc w.
Proof.
  induction fns as [|fn fns IH]; intros acc w; cbn [step2]; [reflexivity|].
  unfold bind, load. rewrite file_to_set_separator_idle.
  destruct (file_to_set opts2 fn w) as [[[e|s] w1]|]; try reflexivity;
    apply IH.
Qed.

Lemma step3_separator_idle out w :
  step3 opts1 cl out w = step3 opts2 cl out w.
Proof.
  unfold step3. destruct (set_query_type cl); try reflexivity;
    unfold bind, load; rewrite file_to_set_separator_idle; reflexivity.
Qed.

Lemma execute_setop_separator_idle w :
  execute_setop opts1 cl w = execute_setop opts2 cl w.
Proof.
  unfold execute_setop, bind. rewrite step1_separator_idle.
  destruct (step1 opts2 cl true _ [] w) as [[[e|out1] w1]|]; try reflexivity;
    rewrite step2_separator_idle;
    destruct (step2 opts2 _ out1 w1) as [[[e|out2] w2]|]; try reflexivity;
    apply step3_separator_idle.
Qed.
End SeparatorIdle.

Lemma compile_separator_some {pattern : Type}
    (regex_compile : list ascii -> option pattern) (format : list ascii) :
  format = [] \/ regex_compile format <> None ->
  exists separator_regex,
    match format with
    | [] => Some None
    | _ :: _ => option_map Some (regex_compile format)
    end = Some separator_regex.
Proof.
  destruct format as [|d format]; intros H; [now exists None|].
  destruct H as [H|H]; [discriminate|].
  destruct (regex_compile (d :: format)) as [re|]; [now exists (Some re)|].
  now elim H.
Qed.

(** X12.  When [--input-element] is given, the value of
    [--input-separator] has no influence as long as it compiles: the
    input is not split at separators first.  With any two separator
    formats that are empty or compile, the program writes the same and
    returns the same exit code. *)
Theorem element_expression_overrides_separator
    {pattern : Type} {engine : RegexEngine pattern}
    (regex_compile : list ascii -> option pattern) (char_is_signed : bool)
    (help_text : list ascii) (po : ProgramOptions)
    (separator_format : list ascii) (w : world) :
  po_input_element po <> [] ->
  (po_input_separator po = [] \/ regex_compile (po_input_separator po) <> None) ->
  (separator_format = [] \/ regex_compile separator_format <> None) ->
  main_options regex_compile char_is_signed help_text
    (with_input_separator separator_format po) w
  = main_options regex_compile char_is_signed help_text po w.
Proof.
  intros Hel Hsep1 Hsep2.
  unfold main_options.
  unfold execute_setop_options, with_input_separator, count_set_operations,
    count_queries, chosen_set_operation, chosen_query.
  cbn [po_help po_version po_quiet po_verbose po_ignore_case po_include_empty
       po_input_separator po_input_element po_output_separator po_trim
       po_union po_intersection po_symmetric_difference po_difference
       po_cardinality po_is_empty po_contains po_equal po_subset po_superset
       po_inputfile].
  destruct (po_help po); [reflexivity|].
  destruct (po_version po); [reflexivity|].
  unfold bind.
  destruct (po_quiet po && po_verbose po);
    [unfold cerr | unfold ret]; cbv beta iota.
  all: destruct (1 <? _); [reflexivity|].
  all: destruct (1 <? _); [reflexivity|].
  all: destruct (unescape_sequence (po_trim po)) as [e|trim]; [reflexivity|].
  all: destruct (unescape_sequence (po_output_separator po)) as [e|sep];
    [reflexivity|].
  all: destruct (po_input_element po) as [|c el] eqn:Hpel; [now elim Hel|].
  all: unfold compile_regexes.
  all: destruct (regex_compile (c :: el)) as [ere|]; cbn [option_map];
    [|reflexivity].
  all: destruct (compile_separator_some regex_compile _ Hsep1) as [sre1 ->].
  all: destruct (compile_separator_some regex_compile _ Hsep2) as [sre2 ->].
  all: rewrite (execute_setop_separator_idle _ _ _ sre2 sre1); reflexivity.
Qed.

(** On [12,34], new line, [5]: with the element expression [\d+] the
    program writes the three numbers, whether the separator is the comma
    or is not given.  Splitting at the comma first and keeping the pieces
    that are numbers would keep [12] only. *)
Lemma element_expression_overrides_separator_witness :
  main_options example_regex_compile true []
    (with_input_separator (str ",") digits_options) digits_world
  = main_options example_regex_compile true [] digits_options digits_world
  /\ main_options example_regex_compile true []
       (with_input_separator (str ",") digits_options) digits_world
     = Some (EXIT_SUCCESS,
             mk_world (files digits_world) (mk_istream [] true)
               (str "12" ++ [newline] ++ str "34" ++ [newline]
                  ++ str "5" ++ [newline]) []).
Proof.
  assert (H : main_options example_regex_compile true []
                (with_input_separator (str ",") digits_options) digits_world
              = main_options example_regex_compile true [] digits_options
                  digits_world).
  { apply element_expression_overrides_separator.
    - discriminate.
    - left. reflexivity.
    - right. vm_compute. discriminate. }
  split; [exact H|]. rewrite H. vm_compute. reflexivity.
Defined.

(** * Which spelling the set operations keep

    Membership in a [std::set] is up to equivalence under the comparator;
    with [--ignore-case] equivalent elements can be spelled differently.
    The following is about the strings themselves. *)

Section Spelling.
Context (comp : el_comp_t) {SWO : StrictWeakOrder comp}.

Local Abbreviation lt a b := (comp a b = true).
Local Abbreviation eqv a b := (equiv comp a b).

Lemma mem_self_above x s : (forall w, In w s -> lt x w) -> mem comp x s = false.
Proof. intros H. apply (mem_above comp x s x H). apply equiv_refl; assumption. Qed.

Lemma In_set_insert s x z :
  is_set comp s ->
  In z (set_insert comp x s) <-> In z s \/ (z = x /\ mem comp x s = false).
Proof.
  induction s as [|y s IH]; intros Hs.
  - cbn. split; [intros [<-|[]]; right; auto | intros [[]|[-> _]]; now left].
  - apply is_set_inv in Hs. destruct Hs as [Hs Hall].
    cbn [set_insert]. rewrite mem_cons.
    destruct (comp y x) eqn:Hyx; [|destruct (comp x y) eqn:Hxy].
    + rewrite (gt_not_equiv comp y x Hyx). cbn [orb In].
      rewrite (IH Hs). tauto.
    + rewrite (lt_not_equiv comp x y Hxy). cbn [orb].
      assert (Hm : mem comp x s = false).
      { apply mem_self_above. intros w Hw.
        exact (comp_trans x y w Hxy (Hall w Hw)). }
      rewrite Hm. cbn [In]. split.
      * intros [<-|H]; [right; auto | now left].
      * intros [H|[-> _]]; [now right | now left].
    + assert (He : eqv x y = true) by (unfold equiv; now rewrite Hyx, Hxy).
      rewrite He. cbn [orb]. split; [now left|].
      intros [H|[_ H]]; [exact H | discriminate].
Qed.

Lemma In_set_erase s x z :
  is_set comp s ->
  In z (set_erase comp x s) <-> In z s /\ eqv z x = false.
Proof.
  induction s as [|y s IH]; intros Hs.
  - cbn. tauto.
  - apply is_set_inv in Hs. destruct Hs as [Hs Hall]. cbn [set_erase].
    destruct (comp y x) eqn:Hyx; [|destruct (comp x y) eqn:Hxy].
    + cbn [In]. rewrite (IH Hs). split.
      * intros [<-|[H1 H2]]; [|tauto].
        split; [now left | now apply lt_not_equiv].
      * intros [[<-|H] He]; [now left | right; now split].
    + split; [|tauto]. intros H. split; [exact H|].
      destruct H as [<-|H]; [now apply gt_not_equiv|].
      apply gt_not_equiv. exact (comp_trans x y z Hxy (Hall z H)).
    + assert (He : eqv y x = true) by (unfold equiv; now rewrite Hyx, Hxy).
      split.
      * intros H. split; [now right|].
        apply gt_not_equiv. exact (comp_equiv_l comp y z x (Hall z H) He).
      * intros [[<-|H] Hz]; [congruence | exact H].
Qed.

Lemma set_find_mem s x :
  is_set comp s ->
  mem comp x s = match set_find comp x s with Some _ => true | None => false end.
Proof. intros Hs. now rewrite <- (set_contains_mem comp x s Hs). Qed.

Lemma In_not_mem s x z :
  mem comp x s = false -> In z s -> eqv z x = false.
Proof.
  intros Hm Hz. destruct (eqv z x) eqn:He; [|reflexivity].
  assert (Hx : mem comp x s = true).
  { apply mem_iff. exists z. split; [exact Hz|]. now rewrite equiv_sym. }
  congruence.
Qed.

Lemma In_toggle s el z :
  is_set comp s ->
  In z (toggle comp s el)
  <-> (In z s /\ eqv z el = false) \/ (z = el /\ mem comp el s = false).
Proof.
  intros Hs. rewrite (set_find_mem s el Hs). unfold toggle.
  destruct (set_find comp el s) as [it|] eqn:Hf.
  - rewrite (set_erase_at_find comp _ _ _ Hf), (In_set_erase s el z Hs).
    split; [now left|]. intros [H|[_ H]]; [exact H | discriminate].
  - assert (Hm : mem comp el s = false) by (now rewrite (set_find_mem s el Hs), Hf).
    rewrite (In_set_insert s el z Hs), Hm. split.
    + intros [H|H]; [left | now right].
      split; [exact H | now apply (In_not_mem s)].
    + intros [[H _]|H]; [now left | now right].
Qed.

(** Union: what is stored stays; an element of the new set comes in when
    nothing equivalent is stored. *)
Lemma In_insert_range curr : forall out z,
  is_set comp out -> is_set comp curr ->
  In z (set_insert_range comp curr out)
  <-> In z out \/ (In z curr /\ mem comp z out = false).
Proof.
  unfold set_insert_range.
  induction curr as [|y curr IH]; intros out z Hout Hcurr; cbn [fold_left].
  - cbn [In]. tauto.
  - apply is_set_inv in Hcurr. destruct Hcurr as [Hcurr Hall].
    rewrite (IH _ z (set_insert_is_set comp y out Hout) Hcurr).
    rewrite (In_set_insert out y z Hout), (mem_insert comp z y out).
    cbn [In]. split.
    + intros [[H|[-> H]]|[H1 H2]].
      * now left.
      * right. split; [now left | exact H].
      * apply orb_false_iff in H2. right. split; [now right | tauto].
    + intros [H|[[<-|H1] H2]].
      * left; now left.
      * left; right; now split.
      * right. split; [exact H1|]. rewrite H2, orb_false_r.
        apply gt_not_equiv. exact (Hall z H1).
Qed.

(** Intersection: the elements of the stored set that the new set holds,
    as the stored set spells them. *)
Lemma In_fold_keep curr els : forall acc z,
  is_set comp curr -> is_set comp els -> is_set comp acc ->
  (forall x, In x els -> mem comp x acc = false) ->
  In z (fold_left (keep_if_found comp curr) els acc)
  <-> In z acc \/ (In z els /\ mem comp z curr = true).
Proof.
  induction els as [|y els IH]; intros acc z Hcurr Hels Hacc Hfresh;
    cbn [fold_left].
  - cbn [In]. tauto.
  - apply is_set_inv in Hels. destruct Hels as [Hels Hall].
    assert (Hacc1 : is_set comp (keep_if_found comp curr acc y)).
    { unfold keep_if_found. destruct (set_find comp y curr);
        [now apply set_insert_is_set | exact Hacc]. }
    assert (Hfresh1 : forall x, In x els ->
                        mem comp x (keep_if_found comp curr acc y) = false).
    { intros x Hx. unfold keep_if_found.
      destruct (set_find comp y curr); [|apply Hfresh; now right].
      rewrite (mem_insert comp x y acc), (Hfresh x (or_intror Hx)), orb_false_r.
      apply gt_not_equiv. exact (Hall x Hx). }
    rewrite (IH _ z Hcurr Hels Hacc1 Hfresh1).
    unfold keep_if_found. rewrite (set_find_mem curr z Hcurr).
    pose proof (set_find_mem curr y Hcurr) as Hy.
    destruct (set_find comp y curr) as [it|] eqn:Hf.
    + rewrite (In_set_insert acc y z Hacc), (Hfresh y (or_introl eq_refl)).
      cbn [In]. split.
      * intros [[H|[-> _]]|[H1 H2]]; [now left | right | right; tauto].
        split; [now left|]. now rewrite Hf.
      * intros [H|[[<-|H1] H2]]; [left; now left | left; right; now split |].
        right. now split.
    + cbn [In]. split.
      * intros [H|[H1 H2]]; [now left | right; tauto].
      * intros [H|[[<-|H1] H2]]; [now left | | right; now split].
        rewrite Hf in H2. discriminate.
Qed.

(** Symmetric difference: the elements of exactly one of the two sets, as
    that set spells them. *)
Lemma In_fold_toggle curr : forall out z,
  is_set comp out -> is_set comp curr ->
  In z (fold_left (toggle comp) curr out)
  <-> (In z out /\ mem comp z curr = false)
      \/ (In z curr /\ mem comp z out = false).
Proof.
  induction curr as [|y curr IH]; intros out z Hout Hcurr; cbn [fold_left].
  - cbn [In mem existsb]. tauto.
  - apply is_set_inv in Hcurr. destruct Hcurr as [Hcurr Hall].
    rewrite (IH _ z (toggle_is_set comp out y Hout) Hcurr).
    rewrite (In_toggle out y z Hout), (mem_toggle comp z out y Hout), mem_cons.
    assert (Hy : mem comp y curr = false) by (now apply mem_self_above).
    cbn [In]. split.
    + intros [[[[H1 H2]|[-> H1]] H3]|[H1 H2]].
      * left. split; [exact H1|]. now rewrite H2, H3.
      * right. split; [now left | exact H1].
      * right. split; [now right|].
        rewrite (gt_not_equiv comp y z (Hall z H1)) in H2. exact H2.
    + intros [[H1 H2]|[[<-|H1] H2]].
      * apply orb_false_iff in H2. destruct H2 as [H2 H3].
        left. split; [left; now split | exact H3].
      * left. split; [right; now split | exact Hy].
      * right. split; [exact H1|].
        now rewrite (gt_not_equiv comp y z (Hall z H1)).
Qed.

(** Difference: the stored elements nothing in the new set is equivalent
    to. *)
Lemma In_fold_erase diff : forall out z,
  is_set comp out ->
  In z (fold_left (fun out el => set_erase comp el out) diff out)
  <-> In z out /\ mem comp z diff = false.
Proof.
  induction diff as [|y diff IH]; intros out z Hout; cbn [fold_left].
  - cbn [mem existsb]. tauto.
  - rewrite (IH _ z (set_erase_is_set comp y out Hout)).
    rewrite (In_set_erase out y z Hout), mem_cons, orb_false_iff. tauto.
Qed.

(** X13.  Which strings one step of the primary operation leaves, for a
    stored set [out] and a new set [curr]: the union keeps every stored
    string and takes a new one only when nothing equivalent is stored (the
    first occurrence wins); the intersection keeps the stored strings that
    have an equivalent in the new set, in the stored spelling; the
    symmetric difference keeps the strings of either set that have no
    equivalent in the other. *)
Theorem concat_step_spelling (op : SetConcat) (out curr : set_t) (z : element_t) :
  is_set comp out -> is_set comp curr ->
  In z (concat_step comp op out curr)
  <-> match op with
      | UNION => In z out \/ (In z curr /\ mem comp z out = false)
      | INTERSECTION => In z out /\ mem comp z curr = true
      | SYM_DIFFERENCE =>
          (In z out /\ mem comp z curr = false)
          \/ (In z curr /\ mem comp z out = false)
      end.
Proof.
  intros Hout Hcurr. destruct op; cbn [concat_step].
  - now apply In_insert_range.
  - rewrite (In_fold_keep curr out [] z Hcurr Hout (is_set_nil comp)).
    + cbn [In]. tauto.
    + reflexivity.
  - now apply In_fold_toggle.
Qed.

Lemma In_fold_intersection others : forall acc z,
  is_set comp acc -> Forall (is_set comp) others ->
  In z (fold_left (concat_step comp INTERSECTION) others acc)
  <-> In z acc /\ forallb (mem comp z) others = true.
Proof.
  induction others as [|c others IH]; intros acc z Hacc Hall; cbn [fold_left forallb].
  - tauto.
  - inversion Hall as [|? ? Hc Hothers]; subst.
    rewrite (IH _ z (concat_step_is_set comp INTERSECTION acc c Hacc) Hothers).
    cbn [concat_step].
    rewrite (In_fold_keep c acc [] z Hc Hacc (is_set_nil comp)) by reflexivity.
    cbn [In]. rewrite andb_true_iff. tauto.
Qed.

Lemma In_subtract_sets diffs : forall out z,
  is_set comp out ->
  In z (subtract_sets comp out diffs)
  <-> In z out /\ existsb (mem comp z) diffs = false.
Proof.
  unfold subtract_sets.
  induction diffs as [|d diffs IH]; intros out z Hout; cbn [fold_left existsb].
  - tauto.
  - rewrite (IH _ z (difference_step_is_set comp out d Hout)).
    unfold difference_step. rewrite (In_fold_erase d out z Hout).
    rewrite orb_false_iff. tauto.
Qed.

(** X14.  Under [-i] with any number of inputs and any number of [-d]
    files, the output holds exactly the strings of the first input that
    have an equivalent in every other input and in none of the subtracted
    ones: every string written is spelled as in the first input. *)
Theorem intersection_and_difference_keep_first_input
    (first_set : set_t) (others diffs : list set_t) (z : element_t) :
  is_set comp first_set -> Forall (is_set comp) others ->
  In z (subtract_sets comp (concat_sets comp INTERSECTION (first_set :: others)) diffs)
  <-> In z first_set
      /\ forallb (mem comp z) others = true
      /\ existsb (mem comp z) diffs = false.
Proof.
  intros Hfirst Hothers.
  rewrite In_subtract_sets
    by (apply concat_sets_is_set; [assumption | now constructor]).
  cbn [concat_sets].
  rewrite (In_fold_intersection others first_set z Hfirst Hothers). tauto.
Qed.
End Spelling.

Lemma concat_step_spelling_witness :
  let comp := element_comp_of true true in
  is_set comp [str "Foo"] /\ is_set comp [str "bar"; str "FOO"]
  /\ (In (str "FOO") (concat_step comp UNION [str "Foo"] [str "bar"; str "FOO"])
      <-> In (str "FOO") [str "Foo"]
          \/ (In (str "FOO") [str "bar"; str "FOO"]
              /\ mem comp (str "FOO") [str "Foo"] = false)).
Proof.
  cbv zeta.
  assert (H1 : is_set (element_comp_of true true) [str "Foo"])
    by (repeat constructor).
  assert (H2 : is_set (element_comp_of true true) [str "bar"; str "FOO"])
    by (repeat constructor).
  split; [exact H1|]. split; [exact H2|].
  exact (concat_step_spelling (element_comp_of true true) UNION
           [str "Foo"] [str "bar"; str "FOO"] (str "FOO") H1 H2).
Defined.

Lemma intersection_and_difference_keep_first_input_witness :
  let comp := element_comp_of true true in
  is_set comp [str "bar"; str "Foo"]
  /\ Forall (is_set comp) [[str "FOO"]]
  /\ (In (str "Foo")
        (subtract_sets comp
           (concat_sets comp INTERSECTION [[str "bar"; str "Foo"]; [str "FOO"]])
           [[str "BAR"]])
      <-> In (str "Foo") [str "bar"; str "Foo"]
          /\ forallb (mem comp (str "Foo")) [[str "FOO"]] = true
          /\ existsb (mem comp (str "Foo")) [[str "BAR"]] = false).
Proof.
  cbv zeta.
  assert (H1 : is_set (element_comp_of true true) [str "bar"; str "Foo"])
    by (repeat constructor).
  assert (H2 : Forall (is_set (element_comp_of true true)) [[str "FOO"]])
    by (repeat constructor).
  split; [exact H1|]. split; [exact H2|].
  exact (intersection_and_difference_keep_first_input (element_comp_of true true)
           [str "bar"; str "Foo"] [[str "FOO"]] [[str "BAR"]] (str "Foo") H1 H2).
Defined.

(** * The primary operation over any number of inputs *)

Section PrimaryOperation.
Context (comp : el_comp_t) {SWO : StrictWeakOrder comp}.

Lemma mem_fold_union z others : forall acc,
  is_set comp acc -> Forall (is_set comp) others ->
  mem comp z (fold_left (concat_step comp UNION) others acc)
  = mem comp z acc || existsb (mem comp z) others.
Proof.
  induction others as [|c others IH]; intros acc Hacc Hall;
    cbn [fold_left existsb].
  - now rewrite orb_false_r.
  - inversion Hall as [|? ? Hc Hothers]; subst.
    rewrite (IH _ (concat_step_is_set comp UNION acc c Hacc) Hothers).
    rewrite (mem_concat_step comp z UNION acc c Hacc Hc).
    now rewrite orb_assoc.
Qed.

Lemma mem_fold_intersection z others : forall acc,
  is_set comp acc -> Forall (is_set comp) others ->
  mem comp z (fold_left (concat_step comp INTERSECTION) others acc)
  = mem comp z acc && forallb (mem comp z) others.
Proof.
  induction others as [|c others IH]; intros acc Hacc Hall;
    cbn [fold_left forallb].
  - now rewrite andb_true_r.
  - inversion Hall as [|? ? Hc Hothers]; subst.
    rewrite (IH _ (concat_step_is_set comp INTERSECTION acc c Hacc) Hothers).
    rewrite (mem_concat_step comp z INTERSECTION acc c Hacc Hc).
    now rewrite andb_assoc.
Qed.

Lemma forallb_contains_mem z sets :
  Forall (is_set comp) sets ->
  forallb (set_contains comp z) sets = forallb (mem comp z) sets.
Proof.
  induction 1 as [|s sets Hs _ IH]; cbn [forallb]; [reflexivity|].
  now rewrite IH, (set_contains_mem comp z s Hs).
Qed.

Lemma existsb_contains_mem' z sets :
  Forall (is_set comp) sets ->
  existsb (set_contains comp z) sets = existsb (mem comp z) sets.
Proof.
  induction 1 as [|s sets Hs _ IH]; cbn [existsb]; [reflexivity|].
  now rewrite IH, (set_contains_mem comp z s Hs).
Qed.

Lemma concat_sets_contains op sets z :
  Forall (is_set comp) sets ->
  set_contains comp z (concat_sets comp op sets)
  = primary_membership comp op z sets.
Proof.
  intros Hall. destruct op; cbn [primary_membership].
  - rewrite (set_contains_mem comp z _ (concat_sets_is_set comp UNION sets Hall)).
    rewrite (existsb_contains_mem' z sets Hall).
    destruct sets as [|s0 others]; [reflexivity|].
    inversion Hall as [|? ? Hs0 Hothers]; subst. cbn [concat_sets existsb].
    now apply mem_fold_union.
  - rewrite (set_contains_mem comp z _
               (concat_sets_is_set comp INTERSECTION sets Hall)).
    destruct sets as [|s0 others]; [reflexivity|].
    rewrite (forallb_contains_mem z _ Hall).
    inversion Hall as [|? ? Hs0 Hothers]; subst. cbn [concat_sets forallb].
    now apply mem_fold_intersection.
  - now apply sym_difference_parity.
Qed.


Lemma primary_membership_permutation op z sets sets' :
  Permutation sets sets' ->
  primary_membership comp op z sets = primary_membership comp op z sets'.
Proof.
  intros Hp. destruct op; cbn [primary_membership].
  - induction Hp as [|s l l' _ IH|a b l|l l' l'' _ IH1 _ IH2]; cbn [existsb];
      try congruence.
    now rewrite !orb_assoc, (orb_comm (set_contains comp z b)).
  - assert (Hall : forallb (set_contains comp z) sets
                   = forallb (set_contains comp z) sets').
    { induction Hp as [|s l l' _ IH|a b l|l l' l'' _ IH1 _ IH2]; cbn [forallb];
        try congruence.
      now rewrite !andb_assoc, (andb_comm (set_contains comp z b)). }
    destruct sets as [|s sets], sets' as [|s' sets']; try reflexivity;
      try exact Hall.
    + apply Permutation_nil in Hp. discriminate.
    + apply Permutation_sym, Permutation_nil in Hp. discriminate.
  - unfold count_containing. f_equal.
    induction Hp as [|s l l' _ IH|a b l|l l' l'' _ IH1 _ IH2]; cbn [filter];
      try congruence.
    + destruct (set_contains comp z s); cbn [List.length]; congruence.
    + destruct (set_contains comp z a), (set_contains comp z b); reflexivity.
Qed.

(** X16.  The primary operations are commutative as sets: handing the
    inputs over in another order leaves the result with the same elements
    up to equivalence under the comparator. *)
Theorem input_order_keeps_membership
    (op : SetConcat) (sets sets' : list set_t) (z : element_t) :
  Forall (is_set comp) sets -> Permutation sets sets' ->
  set_contains comp z (concat_sets comp op sets)
  = set_contains comp z (concat_sets comp op sets').
Proof.
  intros Hall Hp.
  assert (Hall' : Forall (is_set comp) sets').
  { rewrite Forall_forall in *. intros s Hs. apply Hall.
    now apply (Permutation_in s (Permutation_sym Hp)). }
  rewrite (concat_sets_contains op sets z Hall).
  rewrite (concat_sets_contains op sets' z Hall').
  now apply primary_membership_permutation.
Qed.

(** Two sets with the same strings are the same sequence. *)
Lemma is_set_ext s1 : forall s2,
  is_set comp s1 -> is_set comp s2 ->
  (forall z, In z s1 <-> In z s2) -> s1 = s2.
Proof.
  induction s1 as [|a s1 IH]; intros [|b s2] H1 H2 Hin.
  - reflexivity.
  - destruct (proj2 (Hin b) (or_introl eq_refl)).
  - destruct (proj1 (Hin a) (or_introl eq_refl)).
  - apply is_set_inv in H1. destruct H1 as [H1 Ha].
    apply is_set_inv in H2. destruct H2 as [H2 Hb].
    assert (Hab : a = b).
    { destruct (proj1 (Hin a) (or_introl eq_refl)) as [E|Ia]; [now symmetry|].
      destruct (proj2 (Hin b) (or_introl eq_refl)) as [E|Ib]; [exact E|].
      pose proof (Hb a Ia) as L1. pose proof (Ha b Ib) as L2.
      rewrite (comp_asym comp a b L2) in L1. discriminate. }
    subst b. f_equal. apply IH; try assumption.
    intros z. split; intros Hz.
    + destruct (proj1 (Hin z) (or_intror Hz)) as [E|I]; [|exact I].
      subst z. pose proof (Ha a Hz) as L. rewrite comp_irrefl in L. discriminate.
    + destruct (proj2 (Hin z) (or_intror Hz)) as [E|I]; [|exact I].
      subst z. pose proof (Hb a Hz) as L. rewrite comp_irrefl in L. discriminate.
Qed.

Lemma existsb_permutation {A : Type} (f : A -> bool) l l' :
  Permutation l l' -> existsb f l = existsb f l'.
Proof.
  induction 1 as [|s l l' _ IH|a b l|l l' l'' _ IH1 _ IH2]; cbn [existsb];
    try congruence.
  now rewrite !orb_assoc, (orb_comm (f b)).
Qed.

(** X17.  The files given with [-d] can come in any order: the set after
    step 2 is the same sequence of strings. *)
Theorem difference_order_is_irrelevant (out : set_t) (diffs diffs' : list set_t) :
  is_set comp out -> Permutation diffs diffs' ->
  subtract_sets comp out diffs = subtract_sets comp out diffs'.
Proof.
  intros Hout Hp.
  apply is_set_ext; try (now apply subtract_sets_is_set).
  intros z. rewrite !(In_subtract_sets comp) by assumption.
  now rewrite (existsb_permutation (mem comp z) diffs diffs' Hp).
Qed.
End PrimaryOperation.


Lemma input_order_keeps_membership_witness :
  let comp := element_comp_of true true in
  Forall (is_set comp) [[str "Foo"]; [str "bar"; str "FOO"]]
  /\ Permutation [[str "Foo"]; [str "bar"; str "FOO"]]
                 [[str "bar"; str "FOO"]; [str "Foo"]]
  /\ set_contains comp (str "foo")
       (concat_sets comp SYM_DIFFERENCE [[str "Foo"]; [str "bar"; str "FOO"]])
     = set_contains comp (str "foo")
         (concat_sets comp SYM_DIFFERENCE [[str "bar"; str "FOO"]; [str "Foo"]]).
Proof.
  cbv zeta.
  assert (H : Forall (is_set (element_comp_of true true))
                [[str "Foo"]; [str "bar"; str "FOO"]])
    by (repeat constructor).
  assert (Hp : Permutation [[str "Foo"]; [str "bar"; str "FOO"]]
                           [[str "bar"; str "FOO"]; [str "Foo"]])
    by apply perm_swap.
  split; [exact H|]. split; [exact Hp|].
  exact (input_order_keeps_membership (element_comp_of true true) SYM_DIFFERENCE
           _ _ (str "foo") H Hp).
Defined.

Lemma difference_order_is_irrelevant_witness :
  let comp := element_comp_of true false in
  is_set comp [str "a"; str "b"; str "c"]
  /\ Permutation [[str "a"]; [str "c"; str "d"]] [[str "c"; str "d"]; [str "a"]]
  /\ subtract_sets comp [str "a"; str "b"; str "c"] [[str "a"]; [str "c"; str "d"]]
     = subtract_sets comp [str "a"; str "b"; str "c"] [[str "c"; str "d"]; [str "a"]].
Proof.
  cbv zeta.
  assert (H : is_set (element_comp_of true false) [str "a"; str "b"; str "c"])
    by (repeat constructor).
  assert (Hp : Permutation [[str "a"]; [str "c"; str "d"]]
                           [[str "c"; str "d"]; [str "a"]])
    by apply perm_swap.
  split; [exact H|]. split; [exact Hp|].
  exact (difference_order_is_irrelevant (element_comp_of true false) _ _ _ H Hp).
Defined.

(** ** Without [--ignore-case] *)

Lemma case_sensitive_mem_In sg z s :
  mem (element_comp_of sg false) z s = true <-> In z s.
Proof.
  unfold mem. rewrite existsb_exists. split.
  - intros (y & Hy & He). apply is_less_equiv_eq in He. now subst y.
  - intros Hz. exists z. split; [exact Hz|]. now apply is_less_equiv_eq.
Qed.

(** X18.  Without [--ignore-case] the order of the inputs makes no
    difference at all: for each of the three primary operations, the
    result over the inputs in another order is the same sequence of
    strings, so the program writes the same. *)
Theorem input_order_is_irrelevant_case_sensitive
    (sg : bool) (op : SetConcat) (sets sets' : list set_t) :
  Forall (is_set (element_comp_of sg false)) sets ->
  Permutation sets sets' ->
  concat_sets (element_comp_of sg false) op sets
  = concat_sets (element_comp_of sg false) op sets'.
Proof.
  intros Hall Hp.
  pose proof (element_comp_of_swo sg false) as SWO.
  assert (Hall' : Forall (is_set (element_comp_of sg false)) sets').
  { rewrite Forall_forall in *. intros s Hs. apply Hall.
    now apply (Permutation_in s (Permutation_sym Hp)). }
  pose proof (concat_sets_is_set _ op sets Hall) as H1.
  pose proof (concat_sets_is_set _ op sets' Hall') as H2.
  apply (is_set_ext (element_comp_of sg false)); try assumption.
  intros z. rewrite <- !(case_sensitive_mem_In sg).
  rewrite <- (set_contains_mem _ z _ H1), <- (set_contains_mem _ z _ H2).
  rewrite (concat_sets_contains _ op sets z Hall).
  rewrite (concat_sets_contains _ op sets' z Hall').
  now rewrite (primary_membership_permutation _ op z sets sets' Hp).
Qed.

Lemma input_order_is_irrelevant_case_sensitive_witness :
  Forall (is_set (element_comp_of true false))
    [[str "a"; str "b"]; [str "b"; str "c"]; [str "c"]]
  /\ concat_sets (element_comp_of true false) SYM_DIFFERENCE
       [[str "a"; str "b"]; [str "b"; str "c"]; [str "c"]]
     = concat_sets (element_comp_of true false) SYM_DIFFERENCE
         [[str "b"; str "c"]; [str "a"; str "b"]; [str "c"]].
Proof.
  assert (H : Forall (is_set (element_comp_of true false))
                [[str "a"; str "b"]; [str "b"; str "c"]; [str "c"]])
    by (repeat constructor).
  split; [exact H|].
  apply (input_order_is_irrelevant_case_sensitive true SYM_DIFFERENCE _ _ H).
  apply perm_swap.
Defined.

(** ** The query [--equal] against [--subset] and [--superset] *)

Section EqualQuery.
Context {pattern : Type} (input_opts : InputOptions pattern).
Context {SWO : StrictWeakOrder (element_comp input_opts)}.

Local Abbreviation comp := (element_comp input_opts).

Lemma subset_test_iff R C :
  is_set comp R ->
  subset_test input_opts R C = true <-> (forall x, In x C -> set_In comp x R).
Proof.
  intros HR. unfold subset_test. rewrite forallb_forall.
  split; intros H x Hx.
  - apply (set_contains_iff comp x R HR). exact (H x Hx).
  - apply (set_contains_iff comp x R HR). exact (H x Hx).
Qed.

Lemma superset_test_iff R C :
  is_set comp C ->
  superset_test input_opts R C = true <-> (forall x, In x R -> set_In comp x C).
Proof.
  intros HC. unfold superset_test. rewrite forallb_forall.
  split; intros H x Hx.
  - apply (set_contains_iff comp x C HC). exact (H x Hx).
  - apply (set_contains_iff comp x C HC). exact (H x Hx).
Qed.

Lemma set_eqb_true_iff a b : set_eqb a b = true <-> a = b.
Proof.
  unfold set_eqb. destruct (list_eq_dec (list_eq_dec ascii_dec) a b);
    split; auto; discriminate.
Qed.

(** X19.  A result that is equal to the set of the file ([operator==] on
    the two sets) passes the subset and the superset test against that
    file; and whenever two different strings are equivalent under the
    comparator (as with [--ignore-case]), the converse fails: the sets of
    the two strings pass both tests, and are not equal. *)
Theorem equal_query_is_stricter_than_subset_and_superset (R C : set_t) :
  is_set comp R ->
  (set_eqb C R = true ->
   subset_test input_opts R C = true /\ superset_test input_opts R C = true)
  /\ (forall a b, a <> b -> equiv comp a b = true ->
        set_eqb [b] [a] = false
        /\ subset_test input_opts [a] [b] = true
        /\ superset_test input_opts [a] [b] = true).
Proof.
  intros HR. split.
  - intros He. apply set_eqb_true_iff in He. subst C.
    assert (Hself : forall x, In x R -> set_In comp x R).
    { intros x Hx. exists x. split; [exact Hx | now apply equiv_refl]. }
    split; [now apply subset_test_iff | now apply superset_test_iff].
  - intros a b Hab He.
    assert (Ha : is_set comp [a]) by (repeat constructor).
    assert (Hb : is_set comp [b]) by (repeat constructor).
    split; [|split].
    + destruct (set_eqb [b] [a]) eqn:E; [|reflexivity].
      apply set_eqb_true_iff in E. injection E as E. now elim Hab.
    + apply (subset_test_iff [a] [b] Ha). intros x [<-|[]].
      exists a. split; [now left|]. now rewrite equiv_sym.
    + apply (superset_test_iff [a] [b] Hb). intros x [<-|[]].
      exists b. split; [now left | exact He].
Qed.
End EqualQuery.

Lemma equal_query_is_stricter_than_subset_and_superset_witness :
  is_set (element_comp (options_of true true false None None []))
    [str "bar"; str "Foo"]
  /\ set_eqb [str "FOO"] [str "Foo"] = false
  /\ subset_test (options_of true true false None None []) [str "Foo"] [str "FOO"]
     = true
  /\ superset_test (options_of true true false None None []) [str "Foo"] [str "FOO"]
     = true.
Proof.
  assert (H : is_set (element_comp (options_of true true false None None []))
                [str "bar"; str "Foo"]) by (repeat constructor).
  split; [exact H|].
  apply (proj2 (@equal_query_is_stricter_than_subset_and_superset _
                  (options_of true true false None None [])
                  (element_comp_of_swo true true)
                  [str "bar"; str "Foo"] [] H)).
  - discriminate.
  - vm_compute. reflexivity.
Defined.

(** X20.  Without [--ignore-case] the query [--equal] succeeds exactly
    when both [--subset] and [--superset] succeed for the same file. *)
Theorem equal_query_case_sensitive {pattern : Type}
    (input_opts : InputOptions pattern) (sg : bool) (R C : set_t) :
  element_comp input_opts = element_comp_of sg false ->
  is_set (element_comp input_opts) R -> is_set (element_comp input_opts) C ->
  set_eqb C R
  = subset_test input_opts R C && superset_test input_opts R C.
Proof.
  intros Hcomp HR HC.
  assert (SWO : StrictWeakOrder (element_comp input_opts))
    by (rewrite Hcomp; apply element_comp_of_swo).
  apply eq_true_iff_eq. rewrite andb_true_iff, set_eqb_true_iff.
  rewrite (subset_test_iff input_opts R C HR).
  rewrite (superset_test_iff input_opts R C HC).
  assert (Hin : forall x s, set_In (element_comp input_opts) x s <-> In x s).
  { intros x s. rewrite <- mem_iff, Hcomp. apply case_sensitive_mem_In. }
  split.
  - intros ->. split; intros x Hx; now apply Hin.
  - intros [H1 H2]. apply (is_set_ext (element_comp input_opts)); try assumption.
    intros z. split; intros Hz; apply Hin; auto.
Qed.

Lemma equal_query_case_sensitive_witness :
  set_eqb [str "a"; str "b"] [str "a"; str "b"]
  = subset_test default_options [str "a"; str "b"] [str "a"; str "b"]
    && superset_test default_options [str "a"; str "b"] [str "a"; str "b"].
Proof.
  apply (equal_query_case_sensitive default_options true);
    [reflexivity | repeat constructor | repeat constructor].
Defined.

(** * The buffer holds the input and nothing else *)

Lemma is_substring_of_refl s : is_substring_of s s.
Proof. exists [], []. cbn. now rewrite app_nil_r. Qed.

Lemma is_substring_of_trans a b c :
  is_substring_of a b -> is_substring_of b c -> is_substring_of a c.
Proof.
  intros (p1 & q1 & ->) (p2 & q2 & ->).
  exists (p2 ++ p1), (q1 ++ q2). now rewrite <- !app_assoc.
Qed.

Lemma is_substring_of_nil s : is_substring_of [] s.
Proof. exists [], s. reflexivity. Qed.

Lemma substring_is_substring region a b :
  is_substring_of (substring region a b) region.
Proof.
  unfold substring.
  exists (firstn a region), (skipn (b - a) (skipn a region)).
  now rewrite firstn_skipn, firstn_skipn.
Qed.

Lemma firstn_is_substring (l : list ascii) n : is_substring_of (firstn n l) l.
Proof. exists [], (skipn n l). cbn. now rewrite firstn_skipn. Qed.

Lemma trim_if_is_substring p s : is_substring_of (trim_if p s) s.
Proof.
  destruct (trim_if_decomposition p s) as (l & r & H & _).
  now exists l, r.
Qed.

Section ElementsFromInput.
Context {pattern : Type} {engine : RegexEngine pattern}.
Variable input_opts : InputOptions pattern.
Variable use_separator_regex : bool.
Variable regex : pattern.

(** The whole input. *)
Variable input : list ascii.

Local Abbreviation round := (tokenizer_round input_opts use_separator_regex regex).
Local Abbreviation from_input r := (forall x, In x r -> is_substring_of x input).

Lemma adjust_and_insert_element_from_input r el check :
  from_input r -> is_substring_of el input ->
  from_input (adjust_and_insert_element input_opts r el check).
Proof.
  intros Hr Hel. unfold adjust_and_insert_element.
  destruct (_ || _ || _); [|exact Hr].
  destruct (negb _ || _); [|exact Hr].
  intros x Hx. apply set_insert_In_inv in Hx. destruct Hx as [->|Hx]; [|now apply Hr].
  eapply is_substring_of_trans; [apply trim_if_is_substring | exact Hel].
Qed.

Lemma match_loop_from_input failed region ms : forall handled r,
  is_substring_of region input -> from_input r ->
  from_input (fst (fst (match_loop input_opts use_separator_regex regex
                          failed region ms handled r))).
Proof.
  induction ms as [|m ms IH]; intros handled r Hregion Hr; cbn [match_loop];
    [exact Hr|].
  destruct (match_is_final regex failed region m); [|exact Hr].
  destruct use_separator_regex; apply IH; try assumption;
    apply adjust_and_insert_element_from_input; try assumption;
    (eapply is_substring_of_trans; [apply substring_is_substring | exact Hregion]).
Qed.

(** What a round matches on: the pending characters followed by the
    characters it has read. *)
Lemma round_read_region t :
  tokenizer_ok t ->
  exists got,
    firstn (snd (fst (round_read t))) (fst (fst (round_read t))) = pending t ++ got
    /\ is_content (inputstream t) = got ++ is_content (snd (round_read t)).
Proof.
  intros [Hused Hlen]. unfold round_read.
  assert (Hc : is_content (inputstream t)
               = fst (istream_read (inputstream t) (buffersize t - used_buffer t))
                 ++ is_content (snd (istream_read (inputstream t)
                                       (buffersize t - used_buffer t)))).
  { unfold istream_read. destruct (is_good (inputstream t)); cbn [fst snd is_content].
    - now rewrite firstn_skipn.
    - reflexivity. }
  destruct (istream_read _ _) as [got stream]. cbn [fst snd] in *.
  exists got. split; [|exact Hc].
  rewrite array_write_firstn by lia. reflexivity.
Qed.

Lemma tokenizer_round_holds_input t :
  buffer_holds_input input t -> buffer_holds_input input (round t).
Proof.
  intros (Hok & [before Hin] & Hres).
  split; [now apply tokenizer_round_ok|].
  destruct (round_read_region t Hok) as (got & Hregion & Hcontent).
  pose proof (round_read_spec t Hok) as Hspec.
  unfold tokenizer_round, round_scan.
  destruct (round_read t) as [[buffer1 buffer_end] stream].
  cbn [fst snd] in Hregion, Hcontent.
  destruct Hspec as (Hlen & He & _).
  assert (Hsub : is_substring_of (firstn buffer_end buffer1) input).
  { exists before, (is_content stream).
    now rewrite Hregion, <- app_assoc, <- Hcontent. }
  pose proof (match_loop_from_input (negb (is_good stream))
                (firstn buffer_end buffer1)
                (cregex_iterator regex (firstn buffer_end buffer1))
                0 (result t) Hsub Hres) as Hloop.
  destruct (match_loop _ _ _ _ _ _ _ _) as [[r1 h0] cm]. cbn [fst] in Hloop.
  set (h := if use_separator_regex then h0
            else match cm with m :: _ => first m | [] => buffer_end end).
  assert (Hbs : 0 < buffersize t) by (destruct Hok; lia).
  destruct (Nat.le_gt_cases h buffer_end) as [Hh|Hh].
  - pose proof (round_keep_spec (buffersize t) buffer1 buffer_end h
                  Hbs Hlen He Hh) as Hkeep.
    destruct (round_keep _ _ _ _) as [[size used] buffer2].
    destruct Hkeep as (_ & Hpending & _).
    unfold pending. cbn [used_buffer buffer inputstream result].
    split; [|exact Hloop].
    exists (before ++ firstn h (firstn buffer_end buffer1)).
    rewrite Hpending, <- app_assoc, (app_assoc (firstn h _)), firstn_skipn.
    now rewrite Hregion, <- app_assoc, <- Hcontent.
  - unfold round_keep.
    replace (buffer_end - h) with 0 by lia.
    destruct (h =? 0); unfold pending;
      cbn [used_buffer buffer inputstream result firstn app];
      (split; [|exact Hloop]);
      exists (before ++ firstn buffer_end buffer1);
      now rewrite Hregion, <- !app_assoc, <- Hcontent.
Qed.

Lemma tokenizer_loop_holds_input fuel : forall t t',
  buffer_holds_input input t ->
  tokenizer_loop input_opts use_separator_regex regex fuel t = Some t' ->
  buffer_holds_input input t'.
Proof.
  induction fuel as [|fuel IH]; intros t t' Ht; cbn [tokenizer_loop];
    [discriminate|].
  pose proof (tokenizer_round_holds_input t Ht) as Ht1.
  destruct (is_good (inputstream (round t))).
  - now apply IH.
  - now intros [= <-].
Qed.

Lemma tokenizer_finish_from_input t :
  buffer_holds_input input t ->
  from_input (tokenizer_finish input_opts use_separator_regex t).
Proof.
  intros (_ & [before Hin] & Hres). unfold tokenizer_finish.
  destruct (use_separator_regex && _); [|exact Hres].
  apply adjust_and_insert_element_from_input; [exact Hres|].
  exists before, (is_content (inputstream t)). exact Hin.
Qed.
End ElementsFromInput.

Lemma tokenize_from_input {pattern : Type} {engine : RegexEngine pattern}
    (input_opts : InputOptions pattern) (sep : bool) (re : pattern)
    (n : nat) (stream : istream) (s : set_t) (stream' : istream) :
  0 < n ->
  tokenize input_opts sep re n stream = Some (s, stream') ->
  forall x, In x s -> is_substring_of x (is_content stream).
Proof.
  intros Hn. unfold tokenize.
  destruct (tokenizer_loop _ _ _ _ _) as [t|] eqn:Hloop; [|discriminate].
  intros [= <- _].
  apply tokenizer_finish_from_input.
  apply (tokenizer_loop_holds_input input_opts sep re (is_content stream)
           _ _ _ ) with (2 := Hloop).
  split; [split; [exact Hn | apply new_char_array_length]|].
  split; [|intros x []].
  exists []. reflexivity.
Qed.

(** X21.  Whatever the patterns and whatever the engine answers, every
    element of a set [file_to_set] returns is a run of consecutive
    characters of its input (the file, or what is left on standard
    input): the buffer management never mixes, repeats or invents
    characters. *)
Theorem file_to_set_elements_are_substrings
    {pattern : Type} {engine : RegexEngine pattern}
    (input_opts : InputOptions pattern)
    (filename : list ascii) (w w' : world) (s : set_t) (x : element_t) :
  file_to_set input_opts filename w = Some (inr s, w') ->
  In x s ->
  exists input,
    ((filename = str "-" /\ input = is_content (std_cin w))
     \/ (filename <> str "-" /\ files w filename = Some input))
    /\ is_substring_of x input.
Proof.
  unfold file_to_set, file_to_set_with. intros Hf Hx.
  assert (Hn : 0 < INITIAL_BUFFERSIZE) by (unfold INITIAL_BUFFERSIZE; lia).
  destruct (list_eq_dec ascii_dec filename (str "-")) as [E|E].
  - destruct (if regex_empty (input_element_regex input_opts)
              then input_separator_regex input_opts
              else input_element_regex input_opts) as [re|]; [|discriminate].
    destruct (tokenize _ _ _ _ _) as [[s0 stream']|] eqn:Ht; [|discriminate].
    injection Hf as <- _.
    exists (is_content (std_cin w)). split; [left; now split|].
    exact (tokenize_from_input _ _ _ _ _ _ _ Hn Ht x Hx).
  - destruct (files w filename) as [content|] eqn:Hfile; [|discriminate].
    destruct (if regex_empty (input_element_regex input_opts)
              then input_separator_regex input_opts
              else input_element_regex input_opts) as [re|]; [|discriminate].
    destruct (tokenize _ _ _ _ _) as [[s0 stream']|] eqn:Ht; [|discriminate].
    injection Hf as <- _.
    exists content. split; [right; now split|].
    exact (tokenize_from_input _ _ _ _ _ _ _ Hn Ht x Hx).
Qed.

Lemma file_to_set_elements_are_substrings_witness :
  exists input,
    ((str "A" = str "-" /\ input = is_content (std_cin example_world))
     \/ (str "A" <> str "-" /\ files example_world (str "A") = Some input))
    /\ is_substring_of (str "b") input.
Proof.
  apply (file_to_set_elements_are_substrings default_options (str "A")
           example_world example_world [str "a"; str "b"] (str "b")).
  - vm_compute. reflexivity.
  - right. left. reflexivity.
Defined.

(** * Standard input can be read once *)

Lemma tokenize_failed_stream {pattern : Type} {engine : RegexEngine pattern}
    (input_opts : InputOptions pattern) (sep : bool) (re : pattern)
    (n : nat) (stream : istream) :
  is_good stream = false ->
  cregex_iterator re [] = [] ->
  tokenize input_opts sep re n stream = Some ([], stream).
Proof.
  intros Hg Hnone. unfold tokenize. cbn [Nat.add tokenizer_loop].
  unfold tokenizer_round, round_read, initial_tokenizer.
  cbn [inputstream buffersize used_buffer buffer result].
  unfold istream_read. rewrite Hg.
  cbn [List.length Nat.add]. unfold round_scan. cbn [firstn].
  rewrite Hnone. cbn [match_loop].
  replace (if sep then 0 else 0) with 0 by (now destruct sep).
  unfold round_keep. cbn [Nat.eqb Nat.sub inputstream].
  rewrite Hg. unfold tokenizer_finish. cbn [used_buffer Nat.ltb Nat.leb result].
  rewrite andb_false_r. reflexivity.
Qed.

Lemma fold_keep_nothing comp els :
  fold_left (keep_if_found comp []) els [] = [].
Proof. induction els as [|e els IH]; cbn [fold_left]; [reflexivity | exact IH]. Qed.

(** X22.  Standard input can be read once.  After a call of [file_to_set]
    on [-] has returned a set, another call on [-] returns the empty set
    and changes nothing (the engine finding nothing in an empty text); so
    the intersection of standard input with itself ([-i - -]) is the empty
    set, whatever was on standard input. *)
Theorem standard_input_is_read_once
    {pattern : Type} {engine : RegexEngine pattern}
    (input_opts : InputOptions pattern) (re : pattern)
    (w w1 : world) (s : set_t) :
  regex_in_use input_opts = Some re ->
  cregex_iterator re [] = [] ->
  file_to_set input_opts (str "-") w = Some (inr s, w1) ->
  file_to_set input_opts (str "-") w1 = Some (inr [], w1)
  /\ forall cl, set_concat_type cl = INTERSECTION ->
       step1 input_opts cl true [str "-"; str "-"] [] w = Some (inr [], w1).
Proof.
  intros Hre Hnone Hfirst.
  assert (Hgood : is_good (std_cin w1) = false).
  { destruct (file_to_set_outcome input_opts (str "-") w)
      as [[_ H]|[_ [[_ H]|[_ [s0 H]]]]]; rewrite H in Hfirst; try discriminate.
    injection Hfirst as _ <-.
    destruct (list_eq_dec ascii_dec (str "-") (str "-")) as [_|N];
      [|now elim N].
    unfold cin_read. cbn [std_cin]. now destruct (is_good (std_cin w)) eqn:E. }
  assert (Hsecond : file_to_set input_opts (str "-") w1 = Some (inr [], w1)).
  { unfold file_to_set, file_to_set_with.
    destruct (list_eq_dec ascii_dec (str "-") (str "-")) as [_|N];
      [|now elim N].
    unfold regex_in_use in Hre. rewrite Hre.
    rewrite (tokenize_failed_stream input_opts _ re INITIAL_BUFFERSIZE
               (std_cin w1) Hgood Hnone).
    now rewrite world_eta. }
  split; [exact Hsecond|].
  intros cl Hop. cbn [step1]. unfold bind, load. rewrite Hfirst, Hsecond.
  rewrite Hop. cbn [concat_step]. unfold ret.
  now rewrite fold_keep_nothing.
Qed.

Lemma standard_input_is_read_once_witness :
  let w1 := mk_world (fun _ => None) (mk_istream [] false) [] [] in
  file_to_set default_options (str "-") w1 = Some (inr [], w1)
  /\ forall cl, set_concat_type cl = INTERSECTION ->
       step1 default_options cl true [str "-"; str "-"] []
         (world_with_cin (lines ["a"; "b"]%string))
       = Some (inr [], w1).
Proof.
  cbv zeta.
  apply (standard_input_is_read_once default_options re_newline
           (world_with_cin (lines ["a"; "b"]%string))
           (mk_world (fun _ => None) (mk_istream [] false) [] [])
           [str "a"; str "b"]).
  - reflexivity.
  - vm_compute. reflexivity.
  - vm_compute. reflexivity.
Defined.

(** * Separators of one character: the end of the input and the output *)

Lemma split_fields_last_pending (f : ascii -> bool) pre d :
  f d = false ->
  forall cur, exists r, snd (split_fields f true cur (pre ++ [d])) = r ++ [d].
Proof.
  intros Hd. induction pre as [|e pre IH]; intros cur; cbn [app split_fields].
  - rewrite Hd. now exists cur.
  - destruct (f e); cbn [orb].
    + destruct (IH []) as [r Hr].
      destruct (split_fields f true [] (pre ++ [d])) as [fs rest].
      now exists r.
    + apply IH.
Qed.

(** X23.  With a separator of one character, a separator at the very end
    of an input that does not end with one already makes no difference: a
    file with and without its final new line gives the same set, whatever
    the capacity of the buffer. *)
Theorem final_separator_makes_no_difference
    (input_opts : InputOptions perl_pattern) (f : ascii -> bool)
    (n : nat) (pre : list ascii) (d c : ascii) :
  0 < n -> f c = true -> f d = false ->
  tokenize input_opts true (p_char f) n (mk_istream (pre ++ [d; c]) true)
  = tokenize input_opts true (p_char f) n (mk_istream (pre ++ [d]) true).
Proof.
  intros Hn Hc Hd.
  pose proof (tokenize_char_separator input_opts (p_char f) f
                (perl_cregex_iterator_char f) (perl_regex_match_partial_char f))
    as H.
  rewrite !(H n _ Hn). do 3 f_equal.
  replace (pre ++ [d; c]) with ((pre ++ [d]) ++ [c])
    by (now rewrite <- app_assoc).
  unfold all_fields. rewrite (split_fields_final_separator f _ c [] Hc).
  destruct (split_fields_last_pending f pre d Hd []) as [r Hr].
  destruct (split_fields f true [] (pre ++ [d])) as [fs rest].
  cbn [fst snd] in *. subst rest. rewrite app_nil_r.
  destruct r; reflexivity.
Qed.

Lemma final_separator_makes_no_difference_witness :
  tokenize default_options true (p_char (Ascii.eqb newline)) INITIAL_BUFFERSIZE
    (mk_istream (str "a" ++ [newline] ++ str "b" ++ [newline]) true)
  = tokenize default_options true (p_char (Ascii.eqb newline)) INITIAL_BUFFERSIZE
      (mk_istream (str "a" ++ [newline] ++ str "b") true).
Proof.
  apply (final_separator_makes_no_difference default_options (Ascii.eqb newline)
           INITIAL_BUFFERSIZE (str "a" ++ [newline]) "b"%char newline).
  - apply Nat.ltb_lt. vm_compute. reflexivity.
  - reflexivity.
  - reflexivity.
Defined.

Lemma split_fields_of_output (f : ascii -> bool) c s :
  f c = true ->
  (forall x, In x s -> forallb (fun a => negb (f a)) x = true) ->
  forall cur, forallb (fun a => negb (f a)) cur = true ->
  split_fields f true cur (List.concat (map (fun el => el ++ [c]) s))
  = (match s with [] => [] | x :: s' => (cur ++ x) :: s' end,
     match s with [] => cur | _ :: _ => [] end).
Proof.
  intros Hc. induction s as [|x s IH]; intros Hs cur Hcur.
  - reflexivity.
  - cbn [map List.concat]. rewrite <- app_assoc.
    rewrite (split_fields_acc f true x cur _ (Hs x (or_introl eq_refl))).
    cbn [app split_fields]. rewrite Hc. cbn [orb].
    rewrite (IH (fun y Hy => Hs y (or_intror Hy)) [] eq_refl).
    destruct s; reflexivity.
Qed.

Section ReadBack.
Context {pattern : Type} {engine : RegexEngine pattern}.
Variable input_opts : InputOptions pattern.
Context {SWO : StrictWeakOrder (element_comp input_opts)}.

Local Abbreviation comp := (element_comp input_opts).

Lemma set_insert_last x acc :
  (forall y, In y acc -> comp y x = true) -> set_insert comp x acc = acc ++ [x].
Proof.
  induction acc as [|y acc IH]; intros H; cbn [set_insert app]; [reflexivity|].
  rewrite (H y (or_introl eq_refl)). f_equal. apply IH.
  intros z Hz. apply H. now right.
Qed.

Lemma is_set_app_inv a b :
  is_set comp (a ++ b) -> forall y x, In y a -> In x b -> comp y x = true.
Proof.
  induction a as [|e a IH]; intros Hs y x Hy Hx; [contradiction|].
  cbn [app] in Hs. apply is_set_inv in Hs. destruct Hs as [Hs Hall].
  destruct Hy as [<-|Hy].
  - apply Hall. apply in_or_app. now right.
  - now apply IH.
Qed.

Lemma insert_ascending els : forall acc,
  is_set comp (acc ++ els) ->
  fold_left (fun a e => set_insert comp e a) els acc = acc ++ els.
Proof.
  induction els as [|x els IH]; intros acc Hs; cbn [fold_left].
  - now rewrite app_nil_r.
  - rewrite set_insert_last.
    + rewrite IH; rewrite <- app_assoc; [reflexivity | exact Hs].
    + intros y Hy. apply (is_set_app_inv acc (x :: els) Hs y x Hy). now left.
Qed.

Lemma insert_elements_normalized els : forall acc,
  input_element_regex input_opts = None ->
  (forall x, In x els ->
     trim_if (is_any_of (trim_characters input_opts)) x = x
     /\ (x = [] -> include_empty_elements input_opts = true)) ->
  insert_elements input_opts true els acc
  = fold_left (fun a e => set_insert comp e a) els acc.
Proof.
  unfold insert_elements.
  induction els as [|x els IH]; intros acc Hre Hels; cbn [fold_left];
    [reflexivity|].
  rewrite <- (IH _ Hre (fun y Hy => Hels y (or_intror Hy))). f_equal.
  unfold adjust_and_insert_element. rewrite Hre. cbn [regex_empty negb orb].
  destruct (Hels x (or_introl eq_refl)) as [Htrim Hempty]. rewrite Htrim.
  destruct x as [|a x]; cbn [negb orb]; [|reflexivity].
  now rewrite (Hempty eq_refl).
Qed.
End ReadBack.

(** X24.  What the program writes for a set can be read back: with a
    separator of one character that is also the output separator, and no
    element expression, [file_to_set] on the text step 3 writes for a set
    (every element followed by the output separator) returns that set,
    provided the elements are as [file_to_set] stores them (trimmed, empty
    only when empty elements are included) and hold no separator. *)
Theorem output_can_be_read_back
    (input_opts : InputOptions perl_pattern) (f : ascii -> bool) (c : ascii)
    (n : nat) (s : set_t) :
  StrictWeakOrder (element_comp input_opts) ->
  0 < n ->
  input_element_regex input_opts = None ->
  output_separator input_opts = [c] -> f c = true ->
  is_set (element_comp input_opts) s ->
  (forall x, In x s ->
     forallb (fun a => negb (f a)) x = true
     /\ trim_if (is_any_of (trim_characters input_opts)) x = x
     /\ (x = [] -> include_empty_elements input_opts = true)) ->
  tokenize input_opts true (p_char f) n
    (mk_istream
       (List.concat (map (fun el => el ++ output_separator input_opts) s)) true)
  = Some (s, mk_istream [] false).
Proof.
  intros SWO Hn Hre Hout Hc Hs Hels.
  pose proof (tokenize_char_separator input_opts (p_char f) f
                (perl_cregex_iterator_char f) (perl_regex_match_partial_char f))
    as H.
  rewrite (H n _ Hn). do 2 f_equal. rewrite Hout.
  assert (Hfields : all_fields f (List.concat (map (fun el => el ++ [c]) s)) = s).
  { unfold all_fields.
    rewrite (split_fields_of_output f c s Hc (fun x Hx => proj1 (Hels x Hx))
               [] eq_refl).
    destruct s; [reflexivity|]. cbn [app]. now rewrite app_nil_r. }
  rewrite Hfields.
  rewrite (insert_elements_normalized input_opts s [] Hre
             (fun x Hx => proj2 (Hels x Hx))).
  exact (insert_ascending input_opts s [] Hs).
Qed.

Lemma output_can_be_read_back_witness :
  tokenize default_options true (p_char (Ascii.eqb newline)) INITIAL_BUFFERSIZE
    (mk_istream
       (List.concat (map (fun el => el ++ output_separator default_options)
                       [str "a"; str "b"])) true)
  = Some ([str "a"; str "b"], mk_istream [] false).
Proof.
  apply (output_can_be_read_back default_options (Ascii.eqb newline) newline
           INITIAL_BUFFERSIZE [str "a"; str "b"]).
  - apply element_comp_of_swo.
  - apply Nat.ltb_lt. vm_compute. reflexivity.
  - reflexivity.
  - reflexivity.
  - reflexivity.
  - repeat constructor.
  - intros x [<-|[<-|[]]]; repeat split; try reflexivity; discriminate.
Defined.

(** * The argument of [--contains] *)

Section ContainsQuery.
Context {pattern : Type} {engine : RegexEngine pattern}.
Variable input_opts : InputOptions pattern.


End ContainsQuery.

(** * A difference that leaves nothing *)

Section DifferenceAndSuperset.
Context {pattern : Type} (input_opts : InputOptions pattern).
Context {SWO : StrictWeakOrder (element_comp input_opts)}.

Local Abbreviation comp := (element_comp input_opts).

Lemma nil_iff_no_element (l : set_t) : l = [] <-> (forall z, ~ In z l).
Proof.
  split.
  - intros -> z [].
  - destruct l as [|x l]; [reflexivity|]. intros H.
    elim (H x). now left.
Qed.

(** X27.  Subtracting a file leaves nothing exactly when the superset
    query for that file succeeds: [-d D] empties the result [R] if and only
    if every element of [R] has an equivalent in [D]. *)
Theorem difference_leaves_nothing_iff_superset (R D : set_t) :
  is_set comp R -> is_set comp D ->
  difference_step comp R D = [] <-> superset_test input_opts R D = true.
Proof.
  intros HR HD. rewrite nil_iff_no_element.
  rewrite (superset_test_iff input_opts R D HD). unfold difference_step.
  split.
  - intros H x Hx. apply mem_iff.
    destruct (mem comp x D) eqn:Hm; [reflexivity|].
    elim (H x). apply (In_fold_erase comp D R x HR). now split.
  - intros H z Hz. apply (In_fold_erase comp D R z HR) in Hz.
    destruct Hz as [Hz Hm]. apply H, mem_iff in Hz. congruence.
Qed.
End DifferenceAndSuperset.

Lemma difference_leaves_nothing_iff_superset_witness :
  is_set (element_comp (options_of true true false None None [])) [str "Foo"]
  /\ is_set (element_comp (options_of true true false None None []))
       [str "bar"; str "FOO"]
  /\ (difference_step (element_comp (options_of true true false None None []))
        [str "Foo"] [str "bar"; str "FOO"] = []
      <-> superset_test (options_of true true false None None [])
            [str "Foo"] [str "bar"; str "FOO"] = true).
Proof.
  assert (H1 : is_set (element_comp (options_of true true false None None []))
                 [str "Foo"]) by (repeat constructor).
  assert (H2 : is_set (element_comp (options_of true true false None None []))
                 [str "bar"; str "FOO"]) by (repeat constructor).
  split; [exact H1|]. split; [exact H2|].
  exact (@difference_leaves_nothing_iff_superset _
           (options_of true true false None None [])
           (element_comp_of_swo true true) _ _ H1 H2).
Defined.

(** * What the tokenizer hands to [adjust_and_insert_element] *)

Lemma insert_elements_cons {pattern : Type} {engine : RegexEngine pattern}
    (input_opts : InputOptions pattern) check el els r :
  insert_elements input_opts check (el :: els) r
  = insert_elements input_opts check els
      (adjust_and_insert_element input_opts r el check).
Proof. reflexivity. Qed.

Lemma insert_elements_append {pattern : Type} {engine : RegexEngine pattern}
    (input_opts : InputOptions pattern) check els1 els2 r :
  insert_elements input_opts check (els1 ++ els2) r
  = insert_elements input_opts check els2
      (insert_elements input_opts check els1 r).
Proof. unfold insert_elements. apply fold_left_app. Qed.

Section RawElements.
Context {pattern : Type} {engine : RegexEngine pattern}.

(** The inner loop: which strings it hands over, where it stops and what
    it returns for [buffer_handled_until] depend on the expression and on
    the text, not on the options or on the set. *)
Lemma match_loop_raw (sep : bool) (re : pattern) failed region ms :
  forall handled,
  exists raw h cm,
    forall (input_opts : InputOptions pattern) r,
      match_loop input_opts sep re failed region ms handled r
      = (insert_elements input_opts sep raw r, h, cm).
Proof.
  induction ms as [|m ms IH]; intros handled.
  - exists [], handled, []. reflexivity.
  - destruct (match_is_final re failed region m) eqn:Hfinal.
    + destruct sep.
      * destruct (IH (second m)) as (raw & h & cm & H).
        exists (substring region handled (first m) :: raw), h, cm.
        intros input_opts r. cbn [match_loop]. rewrite Hfinal.
        now rewrite H, insert_elements_cons.
      * destruct (IH handled) as (raw & h & cm & H).
        exists (substring region (first m) (second m) :: raw), h, cm.
        intros input_opts r. cbn [match_loop]. rewrite Hfinal.
        now rewrite H, insert_elements_cons.
    + exists [], handled, (m :: ms). intros input_opts r.
      cbn [match_loop]. now rewrite Hfinal.
Qed.

Lemma tokenizer_round_raw (sep : bool) (re : pattern) bs used buf st :
  exists raw size used' buf' st',
    forall (input_opts : InputOptions pattern) r,
      tokenizer_round input_opts sep re (mk_tokenizer bs used buf r st)
      = mk_tokenizer size used' buf' (insert_elements input_opts sep raw r) st'.
Proof.
  unfold tokenizer_round, round_read, round_scan.
  cbn [buffersize used_buffer buffer inputstream result].
  destruct (istream_read st (bs - used)) as [got stream].
  destruct (match_loop_raw sep re (negb (is_good stream))
              (firstn (used + List.length got) (array_write buf used got))
              (cregex_iterator re
                 (firstn (used + List.length got) (array_write buf used got)))
              0) as (raw & h & cm & H).
  destruct (round_keep bs (array_write buf used got) (used + List.length got)
              (if sep then h
               else match cm with
                    | m :: _ => first m
                    | [] => used + List.length got
                    end)) as [[size used'] buf'] eqn:Hkeep.
  exists raw, size, used', buf', stream.
  intros input_opts r. rewrite H, Hkeep. reflexivity.
Qed.

Lemma tokenizer_loop_raw (sep : bool) (re : pattern) fuel :
  forall bs used buf st,
    (exists raw size used' buf' st',
        forall (input_opts : InputOptions pattern) r,
          tokenizer_loop input_opts sep re fuel (mk_tokenizer bs used buf r st)
          = Some (mk_tokenizer size used' buf'
                    (insert_elements input_opts sep raw r) st'))
    \/ (forall (input_opts : InputOptions pattern) r,
          tokenizer_loop input_opts sep re fuel (mk_tokenizer bs used buf r st)
          = None).
Proof.
  induction fuel as [|fuel IH]; intros bs used buf st.
  - right. reflexivity.
  - destruct (tokenizer_round_raw sep re bs used buf st)
      as (raw1 & size1 & used1 & buf1 & st1 & H1).
    destruct (is_good st1) eqn:Hg.
    + destruct (IH size1 used1 buf1 st1)
        as [(raw2 & size2 & used2 & buf2 & st2 & H2)|H2].
      * left. exists (raw1 ++ raw2), size2, used2, buf2, st2.
        intros input_opts r. cbn [tokenizer_loop]. rewrite H1.
        cbn [inputstream]. rewrite Hg, H2.
        now rewrite insert_elements_append.
      * right. intros input_opts r. cbn [tokenizer_loop]. rewrite H1.
        cbn [inputstream]. now rewrite Hg, H2.
    + left. exists raw1, size1, used1, buf1, st1.
      intros input_opts r. cbn [tokenizer_loop]. rewrite H1.
      cbn [inputstream]. now rewrite Hg.
Qed.

Lemma tokenize_raw (sep : bool) (re : pattern) n stream :
  (exists raw stream',
      forall input_opts : InputOptions pattern,
        tokenize input_opts sep re n stream
        = Some (insert_elements input_opts sep raw [], stream'))
  \/ (forall input_opts : InputOptions pattern,
        tokenize input_opts sep re n stream = None).
Proof.
  unfold tokenize, initial_tokenizer.
  destruct (tokenizer_loop_raw sep re (2 + List.length (is_content stream))
              n 0 (new_char_array n) stream)
    as [(raw & size & used & buf & st & H)|H].
  - left. destruct (sep && (0 <? used)) eqn:Hlast.
    + exists (raw ++ [firstn used buf]), st. intros input_opts.
      rewrite H. unfold tokenizer_finish.
      cbn [used_buffer buffer result inputstream]. rewrite Hlast.
      rewrite insert_elements_append.
      apply andb_true_iff in Hlast. destruct Hlast as [-> _]. reflexivity.
    + exists raw, st. intros input_opts.
      rewrite H. unfold tokenizer_finish.
      cbn [used_buffer buffer result inputstream]. now rewrite Hlast.
  - right. intros input_opts. now rewrite H.
Qed.
End RawElements.

(** X28.  What [file_to_set] hands to [adjust_and_insert_element], and in
    which order, depends on the two expressions, on the input and on
    nothing else: for a file (or standard input) and two expressions there
    is one list of strings such that, under any comparator, trim characters
    and treatment of empty elements, the set returned is the result of
    handing these strings over one after the other, starting from the
    empty set. *)
Theorem file_to_set_hands_over_raw_elements
    {pattern : Type} {engine : RegexEngine pattern}
    (element_regex separator_regex : option pattern)
    (filename : list ascii) (w : world) :
  exists raw,
    forall (input_opts : InputOptions pattern) s w',
      input_element_regex input_opts = element_regex ->
      input_separator_regex input_opts = separator_regex ->
      file_to_set input_opts filename w = Some (inr s, w') ->
      s = insert_elements input_opts (regex_empty element_regex) raw [].
Proof.
  unfold file_to_set, file_to_set_with.
  destruct (if if list_eq_dec ascii_dec filename (str "-") then true else false
            then Some (std_cin w)
            else match files w filename with
                 | Some content => Some (mk_istream content true)
                 | None => None
                 end) as [stream|].
  - destruct (if regex_empty element_regex then separator_regex else element_regex)
      as [re|] eqn:Hre.
    + destruct (tokenize_raw (regex_empty element_regex) re INITIAL_BUFFERSIZE stream)
        as [(raw & stream' & H)|H].
      * exists raw. intros input_opts s w' -> -> Hs.
        rewrite Hre, H in Hs. now injection Hs as <- _.
      * exists []. intros input_opts s w' -> -> Hs.
        rewrite Hre, H in Hs. discriminate.
    + exists []. intros input_opts s w' -> -> Hs. rewrite Hre in Hs.
      discriminate.
  - exists []. intros input_opts s w' _ _ Hs. discriminate.
Qed.

(** * [--include-empty] *)

Lemma empty_element_is_alone sg ignore_case y :
  equiv (element_comp_of sg ignore_case) [] y = true -> y = [].
Proof.
  destruct y as [|c y]; [reflexivity|].
  unfold equiv, element_comp_of. destruct ignore_case; cbn; discriminate.
Qed.

Section IncludeEmpty.
Context {pattern : Type} {engine : RegexEngine pattern}.
Variable input_opts : InputOptions pattern.
Context {SWO : StrictWeakOrder (element_comp input_opts)}.

Local Abbreviation comp := (element_comp input_opts).

Hypothesis empty_alone : forall y, equiv comp [] y = true -> y = [].

Lemma mem_without_empty r0 r1 t :
  without_empty comp r0 r1 -> t <> [] -> mem comp t r0 = mem comp t r1.
Proof.
  intros (_ & _ & H) Ht. apply eq_true_iff_eq. rewrite !mem_iff. split.
  - intros (y & Hy & He). exists y. split; [|exact He]. now apply H.
  - intros (y & Hy & He). exists y. split; [|exact He]. apply H.
    split; [exact Hy|]. intros ->. apply Ht. apply empty_alone.
    now rewrite equiv_sym.
Qed.

Lemma adjust_and_insert_element_without_empty r0 r1 el check :
  without_empty comp r0 r1 ->
  without_empty comp
    (adjust_and_insert_element (with_include_empty false input_opts) r0 el check)
    (adjust_and_insert_element (with_include_empty true input_opts) r1 el check).
Proof.
  intros J. pose proof J as (H0 & H1 & H).
  unfold adjust_and_insert_element, with_include_empty.
  cbn [input_element_regex trim_characters include_empty_elements element_comp].
  destruct (_ || _ || _); [|exact J].
  destruct (trim_if (is_any_of (trim_characters input_opts)) el) as [|a t] eqn:Ht;
    cbn [negb orb].
  - split; [exact H0|]. split; [now apply set_insert_is_set|].
    intros z. rewrite (In_set_insert comp r1 [] z H1), (H z). split.
    + intros [Hz Hn]. split; [now left | exact Hn].
    + intros [[Hz|[-> _]] Hn]; [now split | now elim Hn].
  - split; [now apply set_insert_is_set|].
    split; [now apply set_insert_is_set|].
    intros z.
    rewrite (In_set_insert comp r0 (a :: t) z H0).
    rewrite (In_set_insert comp r1 (a :: t) z H1).
    rewrite (mem_without_empty r0 r1 (a :: t) J) by discriminate.
    rewrite (H z). split.
    + intros [[Hz Hn]|[-> Hm]].
      * split; [now left | exact Hn].
      * split; [right; now split | discriminate].
    + intros [[Hz|[-> Hm]] Hn].
      * left. now split.
      * right. now split.
Qed.

Lemma insert_elements_without_empty check raw : forall r0 r1,
  without_empty comp r0 r1 ->
  without_empty comp
    (insert_elements (with_include_empty false input_opts) check raw r0)
    (insert_elements (with_include_empty true input_opts) check raw r1).
Proof.
  induction raw as [|el raw IH]; intros r0 r1 J; [exact J|].
  rewrite !insert_elements_cons. apply IH.
  now apply adjust_and_insert_element_without_empty.
Qed.

(** X29.  [--include-empty] adds the empty element and nothing else: for
    the same file and expressions, the set built without the option holds
    exactly the strings of the set built with it that are not empty. *)
Theorem include_empty_only_adds_the_empty_element
    (filename : list ascii) (w w0 w1 : world) (s0 s1 : set_t) :
  file_to_set (with_include_empty false input_opts) filename w = Some (inr s0, w0) ->
  file_to_set (with_include_empty true input_opts) filename w = Some (inr s1, w1) ->
  forall z, In z s0 <-> In z s1 /\ z <> [].
Proof.
  intros Hf0 Hf1. unfold file_to_set, file_to_set_with in Hf0, Hf1.
  change (input_element_regex (with_include_empty false input_opts))
    with (input_element_regex input_opts) in Hf0.
  change (input_separator_regex (with_include_empty false input_opts))
    with (input_separator_regex input_opts) in Hf0.
  change (input_element_regex (with_include_empty true input_opts))
    with (input_element_regex input_opts) in Hf1.
  change (input_separator_regex (with_include_empty true input_opts))
    with (input_separator_regex input_opts) in Hf1.
  revert Hf0 Hf1.
  destruct (if if list_eq_dec ascii_dec filename (str "-") then true else false
            then Some (std_cin w)
            else match files w filename with
                 | Some content => Some (mk_istream content true)
                 | None => None
                 end) as [stream|]; [|discriminate].
  destruct (if regex_empty (input_element_regex input_opts)
            then input_separator_regex input_opts
            else input_element_regex input_opts) as [re|]; [|discriminate].
  destruct (tokenize_raw (regex_empty (input_element_regex input_opts)) re
              INITIAL_BUFFERSIZE stream) as [(raw & stream' & H)|H].
  - rewrite !H. intros [= <- _] [= <- _].
    apply (insert_elements_without_empty _ raw [] []).
    split; [apply is_set_nil|]. split; [apply is_set_nil|].
    intros z. cbn [In]. tauto.
  - rewrite !H. discriminate.
Qed.
End IncludeEmpty.

Lemma include_empty_only_adds_the_empty_element_witness :
  let w := mk_world (fun _ => Some (lines ["a"; ""; "b"]%string))
             (mk_istream [] true) [] [] in
  file_to_set (with_include_empty false default_options) (str "f") w
  = Some (inr [str "a"; str "b"], w)
  /\ file_to_set (with_include_empty true default_options) (str "f") w
     = Some (inr [[]; str "a"; str "b"], w)
  /\ (In (str "a") [str "a"; str "b"]
      <-> In (str "a") [[]; str "a"; str "b"] /\ str "a" <> []).
Proof.
  cbv zeta.
  assert (H0 : file_to_set (with_include_empty false default_options) (str "f")
                 (mk_world (fun _ => Some (lines ["a"; ""; "b"]%string))
                    (mk_istream [] true) [] [])
               = Some (inr [str "a"; str "b"],
                       mk_world (fun _ => Some (lines ["a"; ""; "b"]%string))
                         (mk_istream [] true) [] []))
    by (vm_compute; reflexivity).
  assert (H1 : file_to_set (with_include_empty true default_options) (str "f")
                 (mk_world (fun _ => Some (lines ["a"; ""; "b"]%string))
                    (mk_istream [] true) [] [])
               = Some (inr [[]; str "a"; str "b"],
                       mk_world (fun _ => Some (lines ["a"; ""; "b"]%string))
                         (mk_istream [] true) [] []))
    by (vm_compute; reflexivity).
  split; [exact H0|]. split; [exact H1|].
  exact (@include_empty_only_adds_the_empty_element _ _ default_options
           (element_comp_of_swo true false) (empty_element_is_alone true false)
           (str "f") _ _ _ _ _ H0 H1 (str "a")).
Defined.
